(** * repo-summarizer: selection, budgeting, truncation and rendering

    Shallow embedding of [src/processor.py] and of the pure part of
    [src/github.py] (what [fetch_repo_contents] does between receiving the
    tree listing and starting the downloads), with the properties the
    specification states about them.

    Conventions of the embedding.
    - A Python [str] is a list of characters; a character is an 8-bit code
      point (the Latin-1 range of Unicode), so [len] is [length].  The
      regular-expression classes, [str.lower] and the case-insensitive
      matching below are the ones CPython applies to that range.
    - A Python [int] is a [Z].
    - [pathlib.PurePosixPath] follows CPython 3.8 to 3.13.
    - A [dict] that is iterated is an association list in insertion order.
    - A raised exception is the [Err] case of a result. *)

From Stdlib Require Import Ascii String DecimalString.
From Stdlib Require Import List ZArith Lia Bool.
From Stdlib Require Import Permutation Sorted.
Import ListNotations.
Open Scope Z_scope.

(* ===================================================================== *)
(** ** Strings *)
(* ===================================================================== *)

Module Str.

Definition str := list ascii.

Definition lit (s : String.string) : str := String.list_ascii_of_string s.
Arguments lit s%_string.

Definition code (c : ascii) : nat := nat_of_ascii c.

Definition chr_eqb (a b : ascii) : bool := Ascii.eqb a b.

Fixpoint eqb (a b : str) : bool :=
  match a, b with
  | [], [] => true
  | x :: a', y :: b' => chr_eqb x y && eqb a' b'
  | _, _ => false
  end.

(** [x in S] for a set (or tuple) of strings. *)
Definition mem (x : str) (s : list str) : bool := existsb (eqb x) s.

Definition NL : ascii := "010"%char.
Definition SLASH : ascii := "/"%char.
Definition DOT : ascii := "."%char.

Definition between (lo hi n : nat) : bool := (Nat.leb lo n && Nat.leb n hi)%bool.

(** [str.lower] on one character: A-Z, and in the upper half U+00C0 to
    U+00DE except the multiplication sign U+00D7. *)
Definition lower_char (c : ascii) : ascii :=
  let n := code c in
  if (between 65 90 n || between 192 214 n || between 216 222 n)%bool
  then ascii_of_nat (n + 32) else c.

Definition lower (s : str) : str := map lower_char s.

Fixpoint startswith (s p : str) : bool :=
  match p, s with
  | [], _ => true
  | x :: p', y :: s' => chr_eqb x y && startswith s' p'
  | _ :: _, [] => false
  end.

Definition endswith (s p : str) : bool := startswith (rev s) (rev p).

(** [s.count(c)] for a one-character needle. *)
Fixpoint count (c : ascii) (s : str) : nat :=
  match s with
  | [] => O
  | x :: s' => if chr_eqb x c then S (count c s') else count c s'
  end.

(** [s.rfind(c)]: the highest index of [c], or -1. *)
Fixpoint rfind (c : ascii) (s : str) : Z :=
  match s with
  | [] => -1
  | x :: s' =>
      let r := rfind c s' in
      if 0 <=? r then r + 1
      else if chr_eqb x c then 0 else -1
  end.

(** [s[:k]], where a negative [k] counts from the end. *)
Definition slice_to (s : str) (k : Z) : str :=
  if 0 <=? k then firstn (Z.to_nat k) s
  else firstn (Z.to_nat (Z.of_nat (length s) + k)) s.

Definition len (s : str) : Z := Z.of_nat (length s).

(** [sep.join(parts)]. *)
Fixpoint join (sep : str) (parts : list str) : str :=
  match parts with
  | [] => []
  | [p] => p
  | p :: rest => p ++ sep ++ join sep rest
  end.

(** [s.split("/")]. *)
Fixpoint split_on (c : ascii) (s : str) : list str :=
  match s with
  | [] => [[]]
  | x :: s' =>
      if chr_eqb x c then [] :: split_on c s'
      else match split_on c s' with
           | [] => [[x]]
           | w :: ws => (x :: w) :: ws
           end
  end.

(** [str(n)] for a natural number. *)
Definition of_nat (n : nat) : str := lit (DecimalString.NilEmpty.string_of_uint (Nat.to_uint n)).

(** Lexicographic comparison of strings by code point ([a <= b]). *)
Fixpoint leb (a b : str) : bool :=
  match a, b with
  | [], _ => true
  | _ :: _, [] => false
  | x :: a', y :: b' =>
      if Nat.ltb (code x) (code y) then true
      else if Nat.ltb (code y) (code x) then false
      else leb a' b'
  end.

End Str.

Import Str.

(* ===================================================================== *)
(** ** Regular expressions, as the [re] module matches them *)
(* ===================================================================== *)

Module Re.

Inductive re : Type :=
| Void : re
| Eps : re
| Cls : (ascii -> bool) -> re
| Cat : re -> re -> re
| Alt : re -> re -> re
| Star : re -> re.

Fixpoint nullable (r : re) : bool :=
  match r with
  | Void => false
  | Eps => true
  | Cls _ => false
  | Cat a b => nullable a && nullable b
  | Alt a b => nullable a || nullable b
  | Star _ => true
  end.

Definition cat (a b : re) : re :=
  match a, b with
  | Void, _ => Void
  | _, Void => Void
  | Eps, _ => b
  | _, Eps => a
  | _, _ => Cat a b
  end.

Definition alt (a b : re) : re :=
  match a, b with
  | Void, _ => b
  | _, Void => a
  | _, _ => Alt a b
  end.

(** The strings a pattern denotes. *)
Inductive Matches : re -> str -> Prop :=
| MEps : Matches Eps []
| MCls (f : ascii -> bool) (c : ascii) : f c = true -> Matches (Cls f) [c]
| MCat (a b : re) (s t : str) : Matches a s -> Matches b t -> Matches (Cat a b) (s ++ t)
| MAltL (a b : re) (s : str) : Matches a s -> Matches (Alt a b) s
| MAltR (a b : re) (s : str) : Matches b s -> Matches (Alt a b) s
| MStar0 (a : re) : Matches (Star a) []
| MStarS (a : re) (s t : str) :
    Matches a s -> Matches (Star a) t -> Matches (Star a) (s ++ t).

(** Brzozowski derivative. *)
Fixpoint deriv (c : ascii) (r : re) : re :=
  match r with
  | Void => Void
  | Eps => Void
  | Cls f => if f c then Eps else Void
  | Cat a b => alt (cat (deriv c a) b) (if nullable a then deriv c b else Void)
  | Alt a b => alt (deriv c a) (deriv c b)
  | Star a => cat (deriv c a) (Star a)
  end.

(** The whole of [s] is in the language of [r]. *)
Fixpoint fullmatch (r : re) (s : str) : bool :=
  match s with
  | [] => nullable r
  | c :: s' => fullmatch (deriv c r) s'
  end.

(** Pattern syntax. *)
Definition chr (c : ascii) : re := Cls (chr_eqb c).
Definition chr_i (c : ascii) : re := Cls (fun x => chr_eqb (lower_char x) (lower_char c)).

Fixpoint word (s : str) : re :=
  match s with [] => Eps | c :: s' => Cat (chr c) (word s') end.
Fixpoint word_i (s : str) : re :=
  match s with [] => Eps | c :: s' => Cat (chr_i c) (word_i s') end.

Definition w (s : String.string) : re := word (lit s).
Definition wi (s : String.string) : re := word_i (lit s).
Arguments w s%_string.
Arguments wi s%_string.

Fixpoint alts (rs : list re) : re :=
  match rs with [] => Void | [r] => r | r :: rs' => Alt r (alts rs') end.
Fixpoint cats (rs : list re) : re :=
  match rs with [] => Eps | [r] => r | r :: rs' => Cat r (cats rs') end.

Definition opt (r : re) : re := Alt r Eps.
Definition plus (r : re) : re := Cat r (Star r).

(** [(?s).]: any character at all. *)
Definition anything : re := Cls (fun _ => true).
(** [.]: any character but a newline. *)
Definition dot : re := Cls (fun c => negb (chr_eqb c NL)).
(** [\d]: a decimal digit. *)
Definition digit : re := Cls (fun c => between 48 57 (code c)).
(** [\w]: a character that is alphanumeric for [str.isalnum], or [_]. *)
Definition is_word_char (c : ascii) : bool :=
  let n := code c in
  (between 48 57 n || between 65 90 n || between 97 122 n || Nat.eqb n 95
   || Nat.eqb n 170 || Nat.eqb n 178 || Nat.eqb n 179 || Nat.eqb n 181
   || Nat.eqb n 185 || Nat.eqb n 186 || between 188 190 n
   || between 192 214 n || between 216 246 n || between 248 255 n)%bool.
Definition wordchar : re := Cls is_word_char.

(** [$] without [re.MULTILINE]: the end of the string, or just before a
    newline that ends the string. *)
Definition dollar : re := opt (chr NL).

(** [pattern.search(s)] for a pattern written [r], which may end in
    [dollar]: some substring of [s] matches. *)
Definition search (r : re) (s : str) : bool :=
  fullmatch (cats [Star anything; r; Star anything]) s.

(** [pattern.search(s)] for a pattern [r$]. *)
Definition search_to_end (r : re) (s : str) : bool :=
  fullmatch (cats [Star anything; r; dollar]) s.

(** [pattern.match(s)] for a pattern [^r$]. *)
Definition match_whole (r : re) (s : str) : bool :=
  fullmatch (Cat r dollar) s.

End Re.

(* ===================================================================== *)
(** ** [pathlib.PurePosixPath] *)
(* ===================================================================== *)

Module PurePosixPath.

Fixpoint leading_slashes (s : str) : nat :=
  match s with
  | c :: s' => if chr_eqb c SLASH then S (leading_slashes s') else O
  | [] => O
  end.

(** The root: [//] for exactly two leading slashes, [/] for one or for
    three and more, none otherwise. *)
Definition root (s : str) : option str :=
  match leading_slashes s with
  | O => None
  | 2%nat => Some [SLASH; SLASH]
  | _ => Some [SLASH]
  end.

Definition is_component (x : str) : bool :=
  negb (Str.eqb x []) && negb (Str.eqb x [DOT]).

(** The components after the root: empty ones and [.] are dropped. *)
Definition tail (s : str) : list str := filter is_component (split_on SLASH s).

Definition parts (s : str) : list str :=
  match root s with
  | Some r => r :: tail s
  | None => tail s
  end.

Definition name (s : str) : str := last (tail s) [].

(** [p.suffix]: from the last dot of the name, when that dot is neither
    its first nor its last character. *)
Definition suffix (s : str) : str :=
  let n := name s in
  let i := rfind DOT n in
  if (0 <? i) && (i <? len n - 1) then skipn (Z.to_nat i) n else [].

End PurePosixPath.

(* ===================================================================== *)
(** ** [processor.py]: configuration, skip rules, tiers *)
(* ===================================================================== *)

Import Re.

Definition CHAR_BUDGET : Z := 70000.
Definition MAX_FILE_CHARS : Z := 6000.
Definition TREE_MAX_ENTRIES : nat := 500.

Definition SKIP_DIRS : list str := map lit
  [ "node_modules"; "vendor"; "dist"; "build"; ".git"; "__pycache__";
    ".next"; ".nuxt"; "venv"; ".venv"; "env"; ".env"; "target";
    "coverage"; ".nyc_output"; "eggs"; ".eggs"; "*.egg-info";
    "htmlcov"; ".tox"; ".pytest_cache"; ".mypy_cache"; ".ruff_cache";
    "site-packages"; "bower_components"; "jspm_packages" ]%string.

Definition SKIP_EXTENSIONS : list str := map lit
  [ ".png"; ".jpg"; ".jpeg"; ".gif"; ".svg"; ".ico"; ".webp"; ".bmp"; ".tiff";
    ".mp4"; ".mp3"; ".wav"; ".ogg"; ".mov"; ".avi";
    ".woff"; ".woff2"; ".ttf"; ".eot"; ".otf";
    ".pdf"; ".doc"; ".docx"; ".xls"; ".xlsx"; ".ppt"; ".pptx";
    ".zip"; ".tar"; ".gz"; ".bz2"; ".7z"; ".rar"; ".xz";
    ".exe"; ".dll"; ".so"; ".dylib"; ".a"; ".lib";
    ".pyc"; ".pyo"; ".class"; ".jar"; ".war";
    ".bin"; ".dat"; ".db"; ".sqlite"; ".sqlite3";
    ".lock" ]%string.

Definition SKIP_FILENAMES : list str := map lit
  [ "package-lock.json"; "yarn.lock"; "poetry.lock"; "Pipfile.lock";
    "composer.lock"; "Gemfile.lock"; "cargo.lock"; "pnpm-lock.yaml";
    "shrinkwrap.json"; "npm-shrinkwrap.json";
    ".DS_Store"; "Thumbs.db"; ".gitkeep" ]%string.

(** A compiled pattern, by the way its text is anchored. *)
Inductive pattern : Type :=
| Anywhere (r : re)          (* r *)
| AtEnd (r : re)             (* r$ *)
| ComponentAtEnd (r : re).   (* (^|/)r$ *)

Definition pattern_search (p : pattern) (s : str) : bool :=
  match p with
  | Anywhere r => search r s
  | AtEnd r => search_to_end r s
  | ComponentAtEnd r =>
      fullmatch (cats [opt (Cat (Star anything) (chr SLASH)); r; dollar]) s
  end.

Definition SKIP_PATTERNS : list pattern :=
  [ AtEnd (cats [w ".min."; alts [w "js"; w "css"]]);
    AtEnd (w ".bundle.js");
    AtEnd (cats [w "."; alts [w "pb"; w "pb2"]; w ".go"]);
    AtEnd (cats [w ".generated."; plus wordchar]);
    AtEnd (w "_pb2.py");
    AtEnd (cats [w "migration"; opt (w "s"); w "/"; plus digit; Star dot; w ".py"]);
    AtEnd (w ".snap");
    AtEnd (w ".map");
    Anywhere (cats [w "test"; opt (alts [w "_"; w "-"]); w "fixture"; opt (w "s"); w "/"]);
    AtEnd (cats [w "fixture"; opt (w "s"); w "/"; Star dot; w ".";
                 alts [w "json"; w "yaml"; w "yml"]]) ].

(** [^(README|...)(\.md|\.rst|\.txt)?$] with [re.IGNORECASE]. *)
Definition TIER1_NAMES : re :=
  cats [ alts [wi "README"; wi "ARCHITECTURE"; wi "OVERVIEW"; wi "CONTRIBUTING";
               wi "CHANGELOG"; wi "DESIGN"];
         opt (alts [wi ".md"; wi ".rst"; wi ".txt"]) ].

Definition TIER2_NAMES : list str := map lit
  [ "package.json"; "pyproject.toml"; "setup.py"; "setup.cfg";
    "Cargo.toml"; "go.mod"; "pom.xml"; "build.gradle"; "build.gradle.kts";
    "Gemfile"; "composer.json"; "mix.exs"; "pubspec.yaml";
    "requirements.txt"; "Pipfile";
    "Dockerfile"; "docker-compose.yml"; "docker-compose.yaml";
    ".env.example"; ".env.sample" ]%string.

Definition TIER3_ENTRY_PATTERNS : pattern :=
  ComponentAtEnd
    (cats [ alts [wi "main"; wi "app"; wi "server"; wi "index"; wi "cli";
                  wi "__main__"; wi "__init__"];
            wi ".";
            alts [wi "py"; wi "go"; wi "js"; wi "ts"; wi "rb"; wi "rs";
                  wi "java"; wi "cs"; wi "cpp"; wi "c"] ]).

Definition TIER4_INFRA_PATTERNS : pattern :=
  Anywhere
    (alts [wi ".github/workflows/"; wi ".gitlab-ci"; wi "Makefile"; wi "Taskfile";
           wi "nginx.conf"; wi "supervisord"; wi "gunicorn"; wi "uwsgi"]).

(** [part.lower() in SKIP_DIRS or part.endswith(".egg-info")]. *)
Definition skip_dir_part (part : str) : bool :=
  mem (lower part) SKIP_DIRS || endswith part (lit ".egg-info").

Definition _should_skip (path : str) : bool :=
  let parts := PurePosixPath.parts path in
  let name := PurePosixPath.name path in
  let ext := lower (PurePosixPath.suffix path) in
  if existsb skip_dir_part (removelast parts) then true
  else if mem name SKIP_FILENAMES then true
  else if mem ext SKIP_EXTENSIONS then true
  else if existsb (fun p => pattern_search p path) SKIP_PATTERNS then true
  else false.

Definition _tier (path : str) : Z :=
  let name := PurePosixPath.name path in
  if match_whole TIER1_NAMES name then 1
  else if mem name TIER2_NAMES then 2
  else if pattern_search TIER3_ENTRY_PATTERNS path then 3
  else if pattern_search TIER4_INFRA_PATTERNS path then 4
  else 5.

(* ===================================================================== *)
(** ** Tree entries and the selector *)
(* ===================================================================== *)

(** The [type] of a record of the tree listing. *)
Inductive kind : Type := Blob | Tree | Commit.

Definition kind_is_blob (k : kind) : bool :=
  match k with Blob => true | _ => false end.

(** One record of the tree listing.  [size] is [None] when the record has
    no such key (directory and submodule records have none). *)
Record entry : Type := mkEntry {
  path : str;
  size : option Z;
  type : kind
}.

(** [(path, size, tier)]. *)
Definition candidate : Type := (str * Z * Z)%type.

Definition cpath (c : candidate) : str := fst (fst c).
Definition csize (c : candidate) : Z := snd (fst c).
Definition ctier (c : candidate) : Z := snd c.

(** [item.get("size", 0)]. *)
Definition get_size (item : entry) : Z :=
  match size item with Some n => n | None => 0 end.

(** The first loop of [filter_and_prioritize]. *)
Fixpoint candidates_of (tree : list entry) : list candidate :=
  match tree with
  | [] => []
  | item :: rest =>
      if negb (_should_skip (path item))
      then (path item, get_size item, _tier (path item)) :: candidates_of rest
      else candidates_of rest
  end.

(** The sort key [(x[2], x[1])] and the order of such tuples. *)
Definition key (c : candidate) : Z * Z := (ctier c, csize c).

Definition key_leb (a b : Z * Z) : bool :=
  (fst a <? fst b) || ((fst a =? fst b) && (snd a <=? snd b)).

(** [list.sort(key=...)] is a stable sort: an element goes before the
    first one whose key is not smaller, and the elements are inserted from
    the last to the first. *)
Fixpoint insert_by (x : candidate) (l : list candidate) : list candidate :=
  match l with
  | [] => [x]
  | y :: l' => if key_leb (key x) (key y) then x :: l else y :: insert_by x l'
  end.

Fixpoint sort_candidates (l : list candidate) : list candidate :=
  match l with
  | [] => []
  | x :: l' => insert_by x (sort_candidates l')
  end.

(** The second loop of [filter_and_prioritize], from a given budget:
    [break] ends it with what has been selected so far. *)
Fixpoint select_loop (budget : Z) (cands : list candidate) : list str :=
  match cands with
  | [] => []
  | (p, sz, tier) :: rest =>
      if budget <=? 0 then []
      else
        let allotment := Z.min sz MAX_FILE_CHARS in
        if (allotment <=? budget) || (tier <=? 2)
        then p :: select_loop (budget - allotment) rest
        else select_loop budget rest
  end.

Definition filter_and_prioritize (tree : list entry) : list str :=
  select_loop CHAR_BUDGET (sort_candidates (candidates_of tree)).

(** The budget with which the loop arrives after a run of candidates, or
    [None] when it has left through [break] before. *)
Fixpoint budget_after (budget : Z) (cands : list candidate) : option Z :=
  match cands with
  | [] => Some budget
  | (p, sz, tier) :: rest =>
      if budget <=? 0 then None
      else
        let allotment := Z.min sz MAX_FILE_CHARS in
        if (allotment <=? budget) || (tier <=? 2)
        then budget_after (budget - allotment) rest
        else budget_after budget rest
  end.

(* ===================================================================== *)
(** ** Content truncation and rendering *)
(* ===================================================================== *)

(** The note [f"\n\n... [truncated: showing {lines_kept}/{lines_total} lines]"]. *)
Definition truncation_note (lines_kept lines_total : nat) : str :=
  [NL; NL] ++ lit "... [truncated: showing " ++ Str.of_nat lines_kept
    ++ lit "/" ++ Str.of_nat lines_total ++ lit " lines]".

(** The part of [content] that [truncate_file] keeps when it is longer
    than [char_limit].  The test [last_newline > char_limit * 0.8] compares
    an integer with a float product.  For a limit below 2^50 in absolute
    value that product is four fifths of [char_limit] when this is an
    integer, and within less than 0.2 of it otherwise, so the test is the
    integer one written here; a limit that a string can exceed in length
    is in that range, and so is any negative limit down to -2^50 (the
    product of a negative limit of more than 300 digits overflows and
    raises, which is outside this definition). *)
Definition kept_prefix (content : str) (char_limit : Z) : str :=
  let truncated := slice_to content char_limit in
  let last_newline := rfind NL truncated in
  if 4 * char_limit <? 5 * last_newline
  then slice_to truncated last_newline
  else truncated.

Definition truncate_file (path content : str) (char_limit : Z) : str :=
  if len content <=? char_limit then content
  else
    let truncated := kept_prefix content char_limit in
    let lines_total := S (count NL content) in
    let lines_kept := S (count NL truncated) in
    truncated ++ truncation_note lines_kept lines_total.

Definition OMITTED_MARKER : str :=
  lit "... [additional files omitted due to context budget]".

(** [f"### {path}\n```\n{content}\n```"]. *)
Definition file_block (path content : str) : str :=
  lit "### " ++ path ++ [NL] ++ lit "```" ++ [NL] ++ content ++ [NL] ++ lit "```".

(** The loop of [build_file_context]: [parts] after it, from a running
    [total]. *)
Fixpoint render_parts (total : Z) (files : list (str * str)) : list str :=
  match files with
  | [] => []
  | (p, content) :: rest =>
      let content := truncate_file p content MAX_FILE_CHARS in
      let block := file_block p content in
      let total := total + len block in
      if CHAR_BUDGET <=? total then [block; OMITTED_MARKER]
      else block :: render_parts total rest
  end.

Definition build_file_context (files : list (str * str)) : str :=
  join [NL; NL] (render_parts 0 files).

(** [sorted(...)] on strings. *)
Fixpoint insert_str (x : str) (l : list str) : list str :=
  match l with
  | [] => [x]
  | y :: l' => if Str.leb x y then x :: l else y :: insert_str x l'
  end.

Fixpoint sorted (l : list str) : list str :=
  match l with
  | [] => []
  | x :: l' => insert_str x (sorted l')
  end.

(** The paths [build_directory_tree] collects: blobs that are not
    skipped, sorted. *)
Definition tree_paths (tree : list entry) : list str :=
  sorted (map path
    (filter (fun item => kind_is_blob (type item) && negb (_should_skip (path item))) tree)).

(** The branch glyph and its trailing space, as the bytes of its UTF-8
    encoding (the only text here outside the 8-bit range). *)
Definition BRANCH : str := lit "└── ".

Definition tree_line (p : str) : str :=
  let depth := count SLASH p in
  let name := PurePosixPath.name p in
  concat (repeat (lit "  ") depth) ++ (if Nat.ltb 0 depth then BRANCH else []) ++ name.

(** The paths it renders: at most [TREE_MAX_ENTRIES] of them. *)
Definition shown_paths (tree : list entry) : list str :=
  firstn TREE_MAX_ENTRIES (tree_paths tree).

Definition build_directory_tree (tree : list entry) : str :=
  let paths := tree_paths tree in
  match paths with
  | [] => lit "(empty)"
  | _ =>
      let truncated := Nat.ltb TREE_MAX_ENTRIES (length paths) in
      let lines := map tree_line (shown_paths tree) in
      let lines :=
        if truncated
        then lines ++ [lit "  ... [tree truncated at " ++ Str.of_nat TREE_MAX_ENTRIES
                         ++ lit " entries]"]
        else lines in
      join [NL] lines
  end.

(* ===================================================================== *)
(** ** [github.py]: from the tree listing to the paths to download *)
(* ===================================================================== *)

Inductive exn : Type :=
| ValueError (msg : str).

Inductive result (A : Type) : Type :=
| Ok (a : A)
| Err (e : exn).
Arguments Ok {A} a.
Arguments Err {A} e.

(** What [_get_tree] returns for the [tree] list of the response. *)
Definition _get_tree (listing : list entry) : list entry :=
  filter (fun item => kind_is_blob (type item)) listing.

Definition EMPTY_REPOSITORY : str := lit "Repository appears to be empty.".
Definition NO_READABLE_FILES : str := lit "No readable files found in repository.".

(** [fetch_repo_contents] from the tree listing it received up to the
    download of the selected paths: the rendered directory tree and the
    paths to fetch, or the exception it raises. *)
Definition fetch_repo_contents (listing : list entry) : result (str * list str) :=
  let tree := _get_tree listing in
  match tree with
  | [] => Err (ValueError EMPTY_REPOSITORY)
  | _ =>
      let directory_tree := build_directory_tree tree in
      let selected_paths := filter_and_prioritize tree in
      match selected_paths with
      | [] => Err (ValueError NO_READABLE_FILES)
      | _ => Ok (directory_tree, selected_paths)
      end
  end.

(* ===================================================================== *)
(** ** Vocabulary of the statements *)
(* ===================================================================== *)

(** The order of the sort: tier ascending, then size ascending. *)
Definition key_le (a b : candidate) : Prop := key_leb (key a) (key b) = true.

(** The candidates that carry a given key. *)
Definition same_key (k : Z * Z) (c : candidate) : bool :=
  (fst (key c) =? fst k) && (snd (key c) =? snd k).

(** [s] is [l] with some elements left out, the order kept. *)
Inductive Subseq {A : Type} : list A -> list A -> Prop :=
| Subseq_nil : Subseq [] []
| Subseq_keep (x : A) (s l : list A) : Subseq s l -> Subseq (x :: s) (x :: l)
| Subseq_drop (x : A) (s l : list A) : Subseq s l -> Subseq s (x :: l).

(** The candidate that an entry which is not skipped becomes. *)
Definition candidate_of (item : entry) : candidate :=
  (path item, get_size item, _tier (path item)).

(** The block [build_file_context] renders for one file. *)
Definition rendered_block (f : str * str) : str :=
  file_block (fst f) (truncate_file (fst f) (snd f) MAX_FILE_CHARS).

Definition total_len (l : list str) : Z := fold_right (fun s n => len s + n) 0 l.

(** Equality of two strings up to case. *)
Definition same_up_to_case (a b : str) : Prop := lower a = lower b.

(** A tree of thirteen manifests of 6000 bytes each, in thirteen
    directories. *)
Definition thirteen_manifests : list entry :=
  map (fun d => mkEntry (d ++ lit "/package.json") (Some 6000) Blob)
      (map lit [ "d01"; "d02"; "d03"; "d04"; "d05"; "d06"; "d07"; "d08"; "d09";
                 "d10"; "d11"; "d12"; "d13" ]%string).

(** A tree whose manifests and entry point leave 100 characters of budget
    for two ordinary files of 100 and 50 bytes. *)
Definition nearly_full_tree : list entry :=
  map (fun d => mkEntry (d ++ lit "/package.json") (Some 6000) Blob)
      (map lit [ "d01"; "d02"; "d03"; "d04"; "d05"; "d06"; "d07"; "d08"; "d09";
                 "d10"; "d11" ]%string)
  ++ [ mkEntry (lit "src/big.py") (Some 100) Blob;
       mkEntry (lit "src/small.py") (Some 50) Blob;
       mkEntry (lit "src/main.py") (Some 3900) Blob ].

(** Twelve files of 6000 characters each. *)
Definition twelve_files : list (str * str) :=
  map (fun n => (n ++ lit ".py", repeat "a"%char (Z.to_nat MAX_FILE_CHARS)))
      (map lit [ "f01"; "f02"; "f03"; "f04"; "f05"; "f06"; "f07"; "f08"; "f09";
                 "f10"; "f11"; "f12" ]%string).

(** The statement that no directory record of a tree reaches the selection
    [filter_and_prioritize] makes from that tree. *)
Definition no_directory_selected (tree : list entry) : Prop :=
  forall item, In item tree -> type item = Tree ->
               ~ In (path item) (filter_and_prioritize tree).

(** The statement that [truncate_file] cuts back to the last newline of
    the first [limit] characters when that newline is at or after four
    fifths of [limit], and keeps the hard cut otherwise. *)
Definition cuts_back_from_80_percent (content : str) (limit : Z) : Prop :=
  let prefix := slice_to content limit in
  let n := rfind NL prefix in
  (4 * limit <= 5 * n -> kept_prefix content limit = slice_to prefix n)
  /\ (5 * n < 4 * limit -> kept_prefix content limit = prefix).

(** A path component that the first skip rule names: a member of
    [SKIP_DIRS] up to case, or a name that ends in [.egg-info]. *)
Definition denylisted (part : str) : Prop :=
  (exists d, In d SKIP_DIRS /\ same_up_to_case part d)
  \/ endswith part (lit ".egg-info") = true.

(** The same with the ending taken up to case as well. *)
Definition denylisted_in_any_case (part : str) : Prop :=
  (exists d, In d SKIP_DIRS /\ same_up_to_case part d)
  \/ endswith (lower part) (lit ".egg-info") = true.

(** The statement that a path is skipped when a component other than
    its last is denylisted, whatever the case of that component. *)
Definition skips_denylisted_in_any_case : Prop :=
  forall p part,
    In part (removelast (PurePosixPath.parts p)) ->
    denylisted_in_any_case part ->
    _should_skip p = true.

(** A component as a tree listing has them: not empty, not [.], without a
    slash. *)
Definition proper_component (x : str) : Prop :=
  PurePosixPath.is_component x = true /\ count SLASH x = O.

(* ===================================================================== *)
(** ** Further vocabulary: what the selector charges, what the tree shows *)
(* ===================================================================== *)

(** [min(size, MAX_FILE_CHARS)], what a selected candidate is charged. *)
Definition allotment (c : candidate) : Z := Z.min (csize c) MAX_FILE_CHARS.

(** The candidates whose paths [select_loop] returns. *)
Fixpoint selected_candidates (budget : Z) (cands : list candidate) : list candidate :=
  match cands with
  | [] => []
  | c :: rest =>
      if budget <=? 0 then []
      else if (allotment c <=? budget) || (ctier c <=? 2)
           then c :: selected_candidates (budget - allotment c) rest
           else selected_candidates budget rest
  end.

Definition charged (l : list candidate) : Z :=
  fold_right (fun c n => allotment c + n) 0 l.

(** The entries [build_directory_tree] keeps. *)
Definition eligible (item : entry) : bool :=
  kind_is_blob (type item) && negb (_should_skip (path item)).

(** The order of [sorted]. *)
Definition str_le (a b : str) : Prop := Str.leb a b = true.

(** A pattern that cannot tell a character from its lower case: what
    [re.IGNORECASE] makes of literal text. *)
Fixpoint case_blind (r : re) : Prop :=
  match r with
  | Void | Eps => True
  | Cls f => forall c, f (lower_char c) = f c
  | Cat a b | Alt a b => case_blind a /\ case_blind b
  | Star a => case_blind a
  end.

(** The names of tier 1, in lower case. *)
Definition TIER1_LOWER : list str := map lit
  [ "readme"; "architecture"; "overview"; "contributing"; "changelog"; "design";
    "readme.md"; "architecture.md"; "overview.md"; "contributing.md";
    "changelog.md"; "design.md";
    "readme.rst"; "architecture.rst"; "overview.rst"; "contributing.rst";
    "changelog.rst"; "design.rst";
    "readme.txt"; "architecture.txt"; "overview.txt"; "contributing.txt";
    "changelog.txt"; "design.txt" ]%string.

(* ===================================================================== *)
(** ** More of [str]: what the callers of the core use *)
(* ===================================================================== *)

Module Text.

(** [needle in s]. *)
Fixpoint contains (needle s : str) : bool :=
  startswith s needle ||
  match s with
  | [] => false
  | _ :: s' => contains needle s'
  end.

(** The characters [str.strip] removes: the white space of the 8-bit
    range. *)
Definition is_space (c : ascii) : bool :=
  let n := code c in
  (between 9 13 n || between 28 32 n || Nat.eqb n 133 || Nat.eqb n 160)%bool.

Fixpoint lstrip (s : str) : str :=
  match s with
  | c :: s' => if is_space c then lstrip s' else s
  | [] => []
  end.

Definition rstrip (s : str) : str := rev (lstrip (rev s)).

Definition strip (s : str) : str := rstrip (lstrip s).

(** [s.split(sep)] for a separator that is not empty: the cuts are at the
    occurrences of [sep] found from the left, [skip] counting the
    characters of an occurrence still to pass. *)
Fixpoint split_from (sep : str) (skip : nat) (cur : str) (s : str) : list str :=
  match s with
  | [] => [rev cur]
  | c :: s' =>
      match skip with
      | S k => split_from sep k cur s'
      | O =>
          if startswith s sep
          then rev cur :: split_from sep (Nat.pred (length sep)) [] s'
          else split_from sep O (c :: cur) s'
      end
  end.

Definition split (sep s : str) : list str := split_from sep O [] s.

End Text.

(* ===================================================================== *)
(** ** [github.py]: the calls to the API and what they raise *)
(* ===================================================================== *)

Module Github.

Import Text.

(** The exceptions that travel through [github.py], [summarizer.py] and
    [main.py].  [JSONDecodeError] is the one of [json], which [r.json()]
    raises on a body that is not JSON: it is a subclass of [ValueError],
    so a handler of [ValueError] takes it.  The last three are those of
    [httpx]; none of them is a subclass of one of the others here, nor of
    a built-in one (a time-out is given apart from the other request
    errors, as the handlers take it first). *)
Inductive error : Type :=
| ValueError (msg : str)
| JSONDecodeError (msg : str)
| PermissionError (msg : str)
| TimeoutError (msg : str)
| RuntimeError (msg : str)
| KeyError (key : str)
| TimeoutException (text : str)
| RequestError (text : str)
| HTTPStatusError (text : str).

Inductive outcome (A : Type) : Type :=
| Return (a : A)
| Raise (e : error).
Arguments Return {A} a.
Arguments Raise {A} e.

(** What [client.get] gives: an exception of [httpx], or a response.
    [Response] is a response on which [r.json()] gives a JSON object:
    with its status code, the [message] of that object when it has one (a
    string), and what the caller reads of the body.  [NotJSON] is a
    response whose body is not JSON: [r.json()] raises [JSONDecodeError]
    with the text [why]; [body] is what a caller that does not go through
    [r.json()] reads of it. *)
Inductive sent (A : Type) : Type :=
| Failed (e : error)
| Response (status_code : Z) (message : option str) (body : A)
| NotJSON (status_code : Z) (why : str) (body : A).
Arguments Failed {A} e.
Arguments Response {A} status_code message body.
Arguments NotJSON {A} status_code why body.

Definition NOT_FOUND : str := lit "Repository not found or is private.".
Definition RATE_LIMITED : str :=
  lit "GitHub API rate limit exceeded. Try again later or set GITHUB_TOKEN.".
Definition ACCESS_DENIED : str := lit "Access denied. The repository may be private.".
Definition LEGAL_REASONS : str := lit "Repository unavailable for legal reasons.".

(** [_get].  [raise_for_status] is the test of [httpx] on the status
    code, with the text of the exception it raises.  [r.json()] is called
    at two places: for the message of a response of status 403, and for
    the value returned; on a body that is not JSON it raises there. *)
Definition _get {A : Type} (raise_for_status : Z -> option str) (r : sent A) : outcome A :=
  match r with
  | Failed e => Raise e
  | Response status_code message body =>
      if status_code =? 404 then Raise (ValueError NOT_FOUND)
      else if status_code =? 403 then
        let msg := match message with Some m => m | None => [] end in
        if contains (lit "rate limit") (lower msg)
        then Raise (RuntimeError RATE_LIMITED)
        else Raise (PermissionError ACCESS_DENIED)
      else if status_code =? 451 then Raise (PermissionError LEGAL_REASONS)
      else match raise_for_status status_code with
           | Some text => Raise (HTTPStatusError text)
           | None => Return body
           end
  | NotJSON status_code why _ =>
      if status_code =? 404 then Raise (ValueError NOT_FOUND)
      else if status_code =? 403 then Raise (JSONDecodeError why)
      else if status_code =? 451 then Raise (PermissionError LEGAL_REASONS)
      else match raise_for_status status_code with
           | Some text => Raise (HTTPStatusError text)
           | None => Raise (JSONDecodeError why)
           end
  end.

(** [_get_default_branch]: the body read is [data["default_branch"]],
    [None] when the key is absent. *)
Definition _get_default_branch (raise_for_status : Z -> option str)
    (r : sent (option str)) : outcome str :=
  match _get raise_for_status r with
  | Raise e => Raise e
  | Return (Some branch) => Return branch
  | Return None => Raise (KeyError (lit "default_branch"))
  end.

(** [_get_tree]: the body read is [data.get("tree", [])]. *)
Definition _get_tree (raise_for_status : Z -> option str)
    (r : sent (option (list entry))) : outcome (list entry) :=
  match _get raise_for_status r with
  | Raise e => Raise e
  | Return data =>
      Return (filter (fun item => kind_is_blob (type item))
                     (match data with Some tree => tree | None => [] end))
  end.

(** [_fetch_file]: the text of a response of status 200 whose content
    decodes, the body read being that text or [None]; [None] in every
    other case, exceptions included.  [r.json()] is not called: whether
    the body is JSON makes no difference. *)
Definition _fetch_file (r : sent (option str)) : option str :=
  match r with
  | Response status_code _ (Some text)
  | NotJSON status_code _ (Some text) => if status_code =? 200 then Some text else None
  | _ => None
  end.

(** [d[k] = v] on a dictionary kept in insertion order. *)
Fixpoint dict_set (d : list (str * str)) (k v : str) : list (str * str) :=
  match d with
  | [] => [(k, v)]
  | (k', v') :: d' => if Str.eqb k' k then (k', v) :: d' else (k', v') :: dict_set d' k v
  end.

(** [{path: content for path, content in results if content is not None}]. *)
Definition files_of (results : list (str * option str)) : list (str * str) :=
  fold_left (fun d pc => match snd pc with
                         | Some content => dict_set d (fst pc) content
                         | None => d
                         end) results [].

Record repo_data : Type := mkRepoData {
  owner : str;
  repo : str;
  directory_tree : str;
  files : list (str * str)
}.

(** [fetch_repo_contents], given what the three kinds of call give: the
    one for the repository, the one for the tree of a branch, the one for
    the file of a path. *)
Definition fetch_repo_contents (raise_for_status : Z -> option str)
    (repo_call : sent (option str))
    (tree_call : str -> sent (option (list entry)))
    (file_call : str -> sent (option str))
    (owner repo : str) : outcome repo_data :=
  match _get_default_branch raise_for_status repo_call with
  | Raise (TimeoutException _) => Raise (TimeoutError (lit "GitHub API request timed out."))
  | Raise (RequestError e) =>
      Raise (RuntimeError (lit "Network error contacting GitHub: " ++ e))
  | Raise e => Raise e
  | Return branch =>
      match _get_tree raise_for_status (tree_call branch) with
      | Raise (TimeoutException _) =>
          Raise (TimeoutError (lit "GitHub API request timed out fetching tree."))
      | Raise (RequestError e) =>
          Raise (RuntimeError (lit "Network error fetching repository tree: " ++ e))
      | Raise e => Raise e
      | Return tree =>
          match tree with
          | [] => Raise (ValueError EMPTY_REPOSITORY)
          | _ =>
              let directory_tree := build_directory_tree tree in
              let selected_paths := filter_and_prioritize tree in
              match selected_paths with
              | [] => Raise (ValueError NO_READABLE_FILES)
              | _ =>
                  let results :=
                    map (fun p => (p, _fetch_file (file_call p))) selected_paths in
                  Return (mkRepoData owner repo directory_tree (files_of results))
              end
          end
      end
  end.

End Github.

(* ===================================================================== *)
(** ** [summarizer.py]: the prompt and the text of the answer *)
(* ===================================================================== *)

Module Summarizer.

Import Text Github.

(** [_build_user_prompt]. *)
Definition _build_user_prompt (d : repo_data) : str :=
  lit "Repository: " ++ owner d ++ lit "/" ++ repo d ++ [NL; NL]
  ++ lit "## Directory Structure" ++ [NL] ++ lit "```" ++ [NL]
  ++ directory_tree d ++ [NL] ++ lit "```" ++ [NL; NL]
  ++ lit "## File Contents" ++ [NL]
  ++ build_file_context (files d) ++ [NL; NL]
  ++ lit "Analyze the above repository and return the JSON summary.".

Definition FENCE : str := lit "```".

(** The lines of [summarize_repo] that take the markdown fences off the
    text of the answer, from [raw], which is that text stripped.  The
    index [1] of the split raises when there is no such part. *)
Definition unfence (raw : str) : option str :=
  if startswith raw FENCE then
    match split FENCE raw with
    | _ :: part :: _ =>
        let part := if startswith part (lit "json") then skipn 4 part else part in
        Some (strip part)
    | _ => None
    end
  else Some raw.

(** [str(n)] for an integer. *)
Definition str_of_Z (n : Z) : str :=
  if n <? 0 then lit "-" ++ Str.of_nat (Z.to_nat (- n)) else Str.of_nat (Z.to_nat n).

Definition NO_API_KEY : str :=
  lit "No LLM API key found. Set ANTHROPIC_API_KEY or NEBIUS_API_KEY environment variable.".

(** [summarize_repo] up to the body of the response of the model: the
    test of the key ([None] or empty is no key), the exceptions of the
    request, the tests on the status ([is_success] is a status from 200
    to 299).  The body read is [r.text]; [r.json()] is called after
    these lines, and what it gives is not part of this development. *)
Definition summarize_repo_request (api_key : option str) (post : sent str) : outcome str :=
  match api_key with
  | None | Some [] => Raise (RuntimeError NO_API_KEY)
  | Some _ =>
      match post with
      | Failed (TimeoutException _) => Raise (TimeoutError (lit "LLM API request timed out."))
      | Failed (RequestError e) => Raise (RuntimeError (lit "Network error calling LLM API: " ++ e))
      | Failed e => Raise e
      | Response status_code _ text
      | NotJSON status_code _ text =>
          if status_code =? 401 then Raise (RuntimeError (lit "Invalid LLM API key."))
          else if status_code =? 429 then Raise (RuntimeError (lit "LLM API rate limit exceeded."))
          else if negb ((200 <=? status_code) && (status_code <=? 299))
          then Raise (RuntimeError (lit "LLM API error " ++ str_of_Z status_code
                                      ++ lit ": " ++ firstn 200 text))
          else Return text
      end
  end.

End Summarizer.

(* ===================================================================== *)
(** ** [main.py]: the address of the repository and the replies *)
(* ===================================================================== *)

Module Main.

Import Text Github.

(** [[a-zA-Z0-9_.-]]. *)
Definition url_char (c : ascii) : bool :=
  let n := code c in
  (between 97 122 n || between 65 90 n || between 48 57 n
   || Nat.eqb n 95 || Nat.eqb n 46 || Nat.eqb n 45)%bool.

(** What follows the second group: an optional [.git], then an optional
    slash with any characters of one line. *)
Definition URL_TAIL : re := cats [opt (w ".git"); opt (Cat (w "/") (Star dot))].

(** [GITHUB_URL_PATTERN] between [^] and [$], as a language. *)
Definition GITHUB_URL_PATTERN : re :=
  cats [ w "http"; opt (w "s"); w "://github.com/";
         plus (Cls url_char); w "/"; plus (Cls url_char); URL_TAIL ].

(** A lazy group [(c+?)]: the shortest run of [cls], of one character at
    least, after which the rest of the pattern matches. *)
Fixpoint lazy_group (cls : ascii -> bool) (k : str -> bool) (taken s : str) : option str :=
  match s with
  | c :: s' =>
      if cls c
      then if k s' then Some (rev (c :: taken)) else lazy_group cls k (c :: taken) s'
      else None
  | [] => None
  end.

(** A greedy group [(c+)]: the longest run of [cls], of one character at
    least, after which the rest of the pattern matches, [k] giving the
    groups of that rest. *)
Fixpoint greedy_group {B : Type} (cls : ascii -> bool) (k : str -> option B) (s : str)
  : option (str * B) :=
  match s with
  | c :: s' =>
      if cls c
      then match greedy_group cls k s' with
           | Some (g, b) => Some (c :: g, b)
           | None => match k s' with
                     | Some b => Some ([c], b)
                     | None => None
                     end
           end
      else None
  | [] => None
  end.

Definition after (prefix s : str) : option str :=
  if startswith s prefix then Some (skipn (length prefix) s) else None.

(** [GITHUB_URL_PATTERN.match(url)]: groups 1 and 2, or [None]. *)
Definition url_groups (url : str) : option (str * str) :=
  let rest :=
    match after (lit "https://github.com/") url with
    | Some r => Some r
    | None => after (lit "http://github.com/") url
    end in
  match rest with
  | None => None
  | Some r =>
      greedy_group url_char
        (fun r1 => match r1 with
                   | c :: r2 =>
                       if chr_eqb c SLASH
                       then lazy_group url_char (match_whole URL_TAIL) [] r2
                       else None
                   | [] => None
                   end) r
  end.

(** What a request is answered: a JSON error with its status code and
    message, the result with the status 200, or an exception that no
    handler of [summarize] takes. *)
Inductive reply (R : Type) : Type :=
| JSONError (status_code : Z) (message : str)
| JSONResult (result : R)
| Unhandled (e : error).
Arguments JSONError {R} status_code message.
Arguments JSONResult {R} result.
Arguments Unhandled {R} e.

(** [str(e)]. *)
Definition error_text (e : error) : str :=
  match e with
  | ValueError m | JSONDecodeError m => m
  | PermissionError m | TimeoutError m | RuntimeError m => m
  | TimeoutException m | RequestError m | HTTPStatusError m => m
  | KeyError k => lit "'" ++ k ++ lit "'"
  end.

Definition INVALID_URL : str :=
  lit "Invalid GitHub URL format. Expected: https://github.com/owner/repo".

(** [summarize], given what the two awaited calls do. *)
Definition summarize {R : Type} (github_url : str)
    (fetch_repo_contents : str -> str -> outcome repo_data)
    (summarize_repo : repo_data -> outcome R) : reply R :=
  match url_groups (strip github_url) with
  | None => JSONError 400 INVALID_URL
  | Some (owner, repo) =>
      match fetch_repo_contents owner repo with
      | Raise (ValueError m) | Raise (JSONDecodeError m) => JSONError 404 m
      | Raise (PermissionError m) => JSONError 403 m
      | Raise (TimeoutError m) => JSONError 504 m
      | Raise (RuntimeError m) =>
          if contains (lit "rate limit") (lower m) then JSONError 429 m else JSONError 502 m
      | Raise e => Unhandled e
      | Return data =>
          match summarize_repo data with
          | Raise e => JSONError 500 (lit "Failed to generate summary: " ++ error_text e)
          | Return result => JSONResult result
          end
      end
  end.

Definition status_code {R : Type} (r : reply R) : option Z :=
  match r with
  | JSONError c _ => Some c
  | JSONResult _ => Some 200
  | Unhandled _ => None
  end.

(** The name of the repository that the second group holds for a last
    component [name] of the address: [name] without one final [.git],
    when something comes before it. *)
Definition repo_name (name : str) : str :=
  if endswith name (lit ".git") && Nat.ltb 4 (length name)
  then firstn (length name - 4) name
  else name.

End Main.

(* ===================================================================== *)
(** ** Vocabulary for the calls and the replies *)
(* ===================================================================== *)

(** A text that holds the words [rate limit] in some case. *)
Definition mentions_rate_limit (msg : str) : Prop :=
  exists pre w post, msg = pre ++ w ++ post /\ lower w = lit "rate limit".

(** The files of a list of paths that were fetched, with their text, in
    the order of the paths. *)
Definition fetched_files (fetch : str -> option str) (paths : list str) : list (str * str) :=
  flat_map (fun p => match fetch p with Some text => [(p, text)] | None => [] end) paths.

(** The shape of the address of a repository: the host after [http] or
    [https], an owner and a name made of letters, digits, [_], [.] and
    [-], and either nothing or a slash and the rest of a line. *)
Definition url_scheme (s : str) : Prop :=
  s = lit "https://github.com/" \/ s = lit "http://github.com/".

Definition url_word (s : str) : Prop := s <> [] /\ forallb Main.url_char s = true.

Definition url_rest (s : str) : Prop :=
  s = [] \/ exists t, s = SLASH :: t /\ count NL t = O.

(* ===================================================================== *)
(** ** The sort of the candidates *)
(* ===================================================================== *)

Section Sorting.

Lemma key_leb_refl k : key_leb k k = true.
Proof.
  unfold key_leb. rewrite Z.eqb_refl, Z.leb_refl. simpl. apply orb_true_r.
Qed.

Lemma key_leb_spec a b :
  key_leb a b = true <-> fst a < fst b \/ (fst a = fst b /\ snd a <= snd b).
Proof.
  unfold key_leb. rewrite orb_true_iff, andb_true_iff.
  rewrite Z.ltb_lt, Z.eqb_eq, Z.leb_le. tauto.
Qed.

(** The order of the sort, spelled out. *)
Lemma key_le_spec a b :
  key_le a b <-> ctier a < ctier b \/ (ctier a = ctier b /\ csize a <= csize b).
Proof. unfold key_le. rewrite key_leb_spec. reflexivity. Qed.

Lemma key_leb_total a b : key_leb a b = false -> key_leb b a = true.
Proof.
  intros H. apply key_leb_spec.
  destruct (key_leb a b) eqn:E; [discriminate|].
  assert (N : ~ (fst a < fst b \/ (fst a = fst b /\ snd a <= snd b))).
  { intros C. apply key_leb_spec in C. congruence. }
  lia.
Qed.

Lemma key_leb_trans a b c :
  key_leb a b = true -> key_leb b c = true -> key_leb a c = true.
Proof. rewrite !key_leb_spec. lia. Qed.

Lemma key_leb_antisym a b :
  key_leb a b = true -> key_leb b a = true -> a = b.
Proof.
  rewrite !key_leb_spec. destruct a, b; simpl. intros.
  f_equal; lia.
Qed.

Lemma same_key_spec k c : same_key k c = true <-> key c = k.
Proof.
  unfold same_key. rewrite andb_true_iff, !Z.eqb_eq.
  destruct (key c), k; simpl. split.
  - intros [-> ->]. reflexivity.
  - intros E. injection E as -> ->. auto.
Qed.

Lemma same_key_own c : same_key (key c) c = true.
Proof. apply same_key_spec. reflexivity. Qed.

Lemma insert_by_perm x l : Permutation (x :: l) (insert_by x l).
Proof.
  induction l as [|y l IH]; simpl.
  - apply Permutation_refl.
  - destruct (key_leb (key x) (key y)).
    + apply Permutation_refl.
    + eapply perm_trans; [apply perm_swap|]. apply perm_skip, IH.
Qed.

Lemma sort_candidates_perm l : Permutation l (sort_candidates l).
Proof.
  induction l as [|x l IH]; simpl.
  - apply perm_nil.
  - eapply perm_trans; [apply perm_skip, IH | apply insert_by_perm].
Qed.

Lemma insert_by_sorted x l :
  StronglySorted key_le l -> StronglySorted key_le (insert_by x l).
Proof.
  induction 1 as [|y l Hs IH Hall]; simpl.
  - constructor; constructor.
  - destruct (key_leb (key x) (key y)) eqn:E.
    + constructor.
      * constructor; assumption.
      * constructor; [exact E|].
        eapply Forall_impl; [|exact Hall].
        intros z Hz. unfold key_le in *. eapply key_leb_trans; eassumption.
    + constructor; [exact IH|].
      apply (Permutation_Forall (insert_by_perm x l)).
      constructor; [|exact Hall].
      apply key_leb_total, E.
Qed.

Lemma sort_candidates_sorted l : StronglySorted key_le (sort_candidates l).
Proof.
  induction l as [|x l IH]; simpl.
  - constructor.
  - apply insert_by_sorted, IH.
Qed.

Lemma insert_by_stable k x l :
  filter (same_key k) (insert_by x l) = filter (same_key k) (x :: l).
Proof.
  induction l as [|y l IH]; [reflexivity|].
  simpl insert_by. destruct (key_leb (key x) (key y)) eqn:E; [reflexivity|].
  change (filter (same_key k) (y :: insert_by x l))
    with (if same_key k y then y :: filter (same_key k) (insert_by x l)
          else filter (same_key k) (insert_by x l)).
  rewrite IH. simpl.
  destruct (same_key k x) eqn:Ex, (same_key k y) eqn:Ey; try reflexivity.
  apply same_key_spec in Ex, Ey.
  rewrite Ex, Ey, key_leb_refl in E. discriminate.
Qed.

Lemma sort_candidates_stable k l :
  filter (same_key k) (sort_candidates l) = filter (same_key k) l.
Proof.
  induction l as [|x l IH]; [reflexivity|].
  simpl sort_candidates. rewrite insert_by_stable. simpl. rewrite IH. reflexivity.
Qed.

(** Two sorted lists with the same candidates in the same order under
    every key are the same list: a stable sort has one possible result,
    so this insertion sort returns what [list.sort] returns. *)
Lemma sorted_stable_unique l1 :
  forall l2,
    StronglySorted key_le l1 -> StronglySorted key_le l2 ->
    (forall k, filter (same_key k) l1 = filter (same_key k) l2) ->
    l1 = l2.
Proof.
  induction l1 as [|x l1 IH]; intros l2 S1 S2 F.
  - destruct l2 as [|y l2]; [reflexivity|].
    specialize (F (key y)). simpl in F. rewrite same_key_own in F. discriminate.
  - destruct l2 as [|y l2].
    { specialize (F (key x)). simpl in F. rewrite same_key_own in F. discriminate. }
    inversion S1 as [|? ? S1' A1]; subst. inversion S2 as [|? ? S2' A2]; subst.
    assert (Exy : x = y).
    { pose proof (F (key x)) as Fx. simpl in Fx. rewrite same_key_own in Fx.
      destruct (same_key (key x) y) eqn:Ey; [congruence|].
      assert (Ix : In x l2).
      { assert (I : In x (filter (same_key (key x)) l2)) by (rewrite <- Fx; left; reflexivity).
        apply filter_In in I. tauto. }
      pose proof (F (key y)) as Fy. simpl in Fy. rewrite same_key_own in Fy.
      destruct (same_key (key y) x) eqn:Ex.
      { apply same_key_spec in Ex.
        assert (same_key (key x) y = true) by (apply same_key_spec; congruence).
        congruence. }
      assert (Iy : In y l1).
      { assert (I : In y (filter (same_key (key y)) l1)) by (rewrite Fy; left; reflexivity).
        apply filter_In in I. tauto. }
      rewrite Forall_forall in A1, A2.
      pose proof (key_leb_antisym _ _ (A1 _ Iy) (A2 _ Ix)) as K.
      assert (same_key (key x) y = true) by (apply same_key_spec; congruence).
      congruence. }
    subst y. f_equal. apply IH; try assumption.
    intros k. specialize (F k). simpl in F.
    destruct (same_key k x); congruence.
Qed.

Lemma sort_candidates_unique l l' :
  StronglySorted key_le l' ->
  (forall k, filter (same_key k) l' = filter (same_key k) l) ->
  l' = sort_candidates l.
Proof.
  intros S F. apply sorted_stable_unique; [exact S | apply sort_candidates_sorted |].
  intros k. rewrite F, sort_candidates_stable. reflexivity.
Qed.

End Sorting.

(* ===================================================================== *)
(** ** Strings: equality and membership *)
(* ===================================================================== *)

Lemma chr_eqb_eq a b : chr_eqb a b = true <-> a = b.
Proof. unfold chr_eqb. apply Ascii.eqb_eq. Qed.

Lemma str_eqb_eq a : forall b, Str.eqb a b = true <-> a = b.
Proof.
  induction a as [|x a IH]; intros [|y b]; simpl; try (split; [discriminate|congruence]).
  - tauto.
  - rewrite andb_true_iff, chr_eqb_eq, IH. split.
    + intros [-> ->]. reflexivity.
    + intros E. injection E as -> ->. auto.
Qed.

Lemma mem_In x l : mem x l = true <-> In x l.
Proof.
  unfold mem. rewrite existsb_exists. split.
  - intros [y [Hy E]]. apply str_eqb_eq in E. subst. exact Hy.
  - intros H. exists x. split; [exact H | apply str_eqb_eq; reflexivity].
Qed.

Lemma mem_false_not_In x l : mem x l = false -> ~ In x l.
Proof. intros E H. apply mem_In in H. congruence. Qed.

(* ===================================================================== *)
(** ** The matcher computes the language of the pattern *)
(* ===================================================================== *)

Section Matcher.

Import Re.

Lemma Matches_Void s : ~ Matches Void s.
Proof. intros H. inversion H. Qed.

Lemma Matches_Eps s : Matches Eps s <-> s = [].
Proof.
  split.
  - intros H. inversion H. reflexivity.
  - intros ->. constructor.
Qed.

Lemma Matches_Cat a b s :
  Matches (Cat a b) s <-> exists s1 s2, s = s1 ++ s2 /\ Matches a s1 /\ Matches b s2.
Proof.
  split.
  - intros H. inversion H; subst. eauto.
  - intros [s1 [s2 [-> [H1 H2]]]]. constructor; assumption.
Qed.

Lemma Matches_Alt a b s : Matches (Alt a b) s <-> Matches a s \/ Matches b s.
Proof.
  split.
  - intros H. inversion H; subst; auto.
  - intros [H|H]; [apply MAltL | apply MAltR]; exact H.
Qed.

Lemma Matches_cat a b s : Matches (cat a b) s <-> Matches (Cat a b) s.
Proof.
  assert (VL : forall r, Matches (Cat Void r) s <-> Matches Void s).
  { intros r. rewrite Matches_Cat. split.
    - intros [s1 [s2 [_ [H _]]]]. destruct (Matches_Void _ H).
    - intros H. destruct (Matches_Void _ H). }
  assert (VR : forall r, Matches (Cat r Void) s <-> Matches Void s).
  { intros r. rewrite Matches_Cat. split.
    - intros [s1 [s2 [_ [_ H]]]]. destruct (Matches_Void _ H).
    - intros H. destruct (Matches_Void _ H). }
  assert (EL : forall r, Matches (Cat Eps r) s <-> Matches r s).
  { intros r. rewrite Matches_Cat. split.
    - intros [s1 [s2 [-> [H1 H2]]]]. apply Matches_Eps in H1. subst. exact H2.
    - intros H. exists [], s. repeat split; [constructor | exact H]. }
  assert (ER : forall r, Matches (Cat r Eps) s <-> Matches r s).
  { intros r. rewrite Matches_Cat. split.
    - intros [s1 [s2 [-> [H1 H2]]]]. apply Matches_Eps in H2. subst.
      rewrite app_nil_r. exact H1.
    - intros H. exists s, []. rewrite app_nil_r. repeat split; [exact H | constructor]. }
  destruct a, b; simpl;
    rewrite ?VL, ?VR, ?EL, ?ER; reflexivity.
Qed.

Lemma Matches_alt a b s : Matches (alt a b) s <-> Matches (Alt a b) s.
Proof.
  rewrite Matches_Alt.
  destruct a, b; simpl; rewrite ?Matches_Alt;
    intuition (try match goal with H : Matches Void _ |- _ => destruct (Matches_Void _ H) end).
Qed.

Lemma nullable_spec r : nullable r = true <-> Matches r [].
Proof.
  induction r as [| |f|a IHa b IHb|a IHa b IHb|a IHa]; simpl.
  - split; [discriminate | intros H; inversion H].
  - split; [constructor | reflexivity].
  - split; [discriminate | intros H; inversion H].
  - rewrite andb_true_iff, IHa, IHb, Matches_Cat. split.
    + intros [Ha Hb]. exists [], []. auto.
    + intros [s1 [s2 [E [Ha Hb]]]]. symmetry in E. apply app_eq_nil in E.
      destruct E; subst. auto.
  - rewrite orb_true_iff, IHa, IHb, Matches_Alt. reflexivity.
  - split; [constructor | reflexivity].
Qed.

(** A match of [a*] on a string that begins with [c] begins with a match
    of [a] that begins with [c]. *)
Lemma Matches_Star_cons a c s :
  Matches (Star a) (c :: s) ->
  exists s1 s2, s = s1 ++ s2 /\ Matches a (c :: s1) /\ Matches (Star a) s2.
Proof.
  intros H. remember (Star a) as r eqn:Er. remember (c :: s) as w eqn:Ew.
  induction H as [| | | | | |a' u t Hu _ Ht IHt]; try discriminate.
  injection Er as ->.
  destruct u as [|x u].
  - apply IHt; [reflexivity | exact Ew].
  - simpl in Ew. injection Ew as Ex Es. subst x s. exists u, t. auto.
Qed.

Lemma deriv_spec r : forall c s, Matches (deriv c r) s <-> Matches r (c :: s).
Proof.
  induction r as [| |f|a IHa b IHb|a IHa b IHb|a IHa]; intros c s; simpl.
  - split; intros H; inversion H.
  - split; intros H; inversion H.
  - destruct (f c) eqn:E.
    + rewrite Matches_Eps. split.
      * intros ->. constructor. exact E.
      * intros H. inversion H. reflexivity.
    + split; intros H; inversion H; congruence.
  - rewrite Matches_alt, Matches_Alt, Matches_cat, !Matches_Cat. split.
    + intros [[s1 [s2 [-> [H1 H2]]]]|H].
      * exists (c :: s1), s2. apply IHa in H1. auto.
      * destruct (nullable a) eqn:N; [|destruct (Matches_Void _ H)].
        exists [], (c :: s). apply nullable_spec in N. apply IHb in H. auto.
    + intros [s1 [s2 [E [H1 H2]]]]. destruct s1 as [|x s1].
      * right. simpl in E. subst s2. apply nullable_spec in H1. rewrite H1.
        apply IHb. exact H2.
      * left. injection E as <- ->. exists s1, s2. apply IHa in H1. auto.
  - rewrite Matches_alt, !Matches_Alt, IHa, IHb. reflexivity.
  - rewrite Matches_cat, Matches_Cat. split.
    + intros [s1 [s2 [-> [H1 H2]]]]. apply IHa in H1.
      change (c :: s1 ++ s2) with ((c :: s1) ++ s2). constructor; assumption.
    + intros H. apply Matches_Star_cons in H. destruct H as [s1 [s2 [-> [H1 H2]]]].
      exists s1, s2. apply IHa in H1. auto.
Qed.

Lemma fullmatch_spec s : forall r, fullmatch r s = true <-> Matches r s.
Proof.
  induction s as [|c s IH]; intros r; simpl.
  - apply nullable_spec.
  - rewrite IH. apply deriv_spec.
Qed.

Lemma Matches_anything_star s : Matches (Star anything) s.
Proof.
  induction s as [|c s IH]; [constructor|].
  change (c :: s) with ([c] ++ s). constructor; [|exact IH].
  constructor. reflexivity.
Qed.

(** [search]: some substring is in the language. *)
Lemma search_spec r s :
  search r s = true <-> exists a b c, s = a ++ b ++ c /\ Matches r b.
Proof.
  unfold search. rewrite fullmatch_spec. simpl cats.
  rewrite Matches_Cat. split.
  - intros [a [t [-> [_ H]]]]. apply Matches_Cat in H.
    destruct H as [b [c [-> [H _]]]]. exists a, b, c. auto.
  - intros [a [b [c [-> H]]]]. exists a, (b ++ c).
    repeat split; [apply Matches_anything_star|].
    constructor; [exact H | apply Matches_anything_star].
Qed.

(** [search] of a pattern that ends in [$]: some substring that ends the
    string, or that a final newline follows, is in the language. *)
Lemma search_to_end_spec r s :
  search_to_end r s = true <->
  exists a b, (s = a ++ b \/ s = a ++ b ++ [NL]) /\ Matches r b.
Proof.
  unfold search_to_end. rewrite fullmatch_spec. simpl cats.
  rewrite Matches_Cat. split.
  - intros [a [t [-> [_ H]]]]. apply Matches_Cat in H.
    destruct H as [b [c [-> [H D]]]]. exists a, b. split; [|exact H].
    unfold dollar, opt in D. apply Matches_Alt in D. destruct D as [D|D].
    + inversion D as [|f x Hx| | | | |]; subst. apply chr_eqb_eq in Hx. subst. auto.
    + apply Matches_Eps in D. subst. rewrite app_nil_r. auto.
  - intros [a [b [[->| ->] H]]].
    + exists a, b. repeat split; [apply Matches_anything_star|].
      rewrite <- (app_nil_r b). constructor; [exact H|].
      apply MAltR. constructor.
    + exists a, (b ++ [NL]). repeat split; [apply Matches_anything_star|].
      constructor; [exact H|]. apply MAltL. constructor.
      apply chr_eqb_eq. reflexivity.
Qed.

End Matcher.

(* ===================================================================== *)
(** ** The selection loop *)
(* ===================================================================== *)

Section Selection.

Lemma candidates_of_In c tree :
  In c (candidates_of tree) <->
  exists item, In item tree /\ _should_skip (path item) = false /\ c = candidate_of item.
Proof.
  induction tree as [|e tree IH]; simpl.
  - split; [tauto | intros [? [[] _]]].
  - destruct (_should_skip (path e)) eqn:E; simpl.
    + rewrite IH. split.
      * intros [i [Hi R]]. exists i. tauto.
      * intros [i [[->|Hi] [S R]]]; [congruence|]. exists i. tauto.
    + rewrite IH. split.
      * intros [<-|[i [Hi R]]].
        -- exists e. auto.
        -- exists i. tauto.
      * intros [i [[->|Hi] [S R]]]; [left; symmetry; exact R|].
        right. exists i. tauto.
Qed.

(** One step of the loop, with budget left. *)
Lemma select_loop_step b p sz tier rest :
  0 < b ->
  select_loop b ((p, sz, tier) :: rest) =
  if (Z.min sz MAX_FILE_CHARS <=? b) || (tier <=? 2)
  then p :: select_loop (b - Z.min sz MAX_FILE_CHARS) rest
  else select_loop b rest.
Proof.
  intros Hb. simpl. destruct (b <=? 0) eqn:E; [apply Z.leb_le in E; lia | reflexivity].
Qed.

(** The loop over a list in two pieces. *)
Lemma select_loop_app pre : forall b l,
  select_loop b (pre ++ l) =
  select_loop b pre ++
  match budget_after b pre with
  | Some b' => select_loop b' l
  | None => []
  end.
Proof.
  induction pre as [|[[p sz] tier] pre IH]; intros b l; [reflexivity|].
  simpl. destruct (b <=? 0); [reflexivity|].
  destruct ((Z.min sz MAX_FILE_CHARS <=? b) || (tier <=? 2)).
  - simpl. rewrite IH. reflexivity.
  - apply IH.
Qed.

Lemma select_loop_subseq l : forall b, Subseq (select_loop b l) (map cpath l).
Proof.
  induction l as [|[[p sz] tier] l IH]; intros b; simpl.
  - constructor.
  - destruct (b <=? 0).
    + clear IH. change (cpath (p, sz, tier)) with p.
      constructor. induction l; simpl; constructor; assumption.
    + destruct ((Z.min sz MAX_FILE_CHARS <=? b) || (tier <=? 2)).
      * apply Subseq_keep, IH.
      * apply Subseq_drop, IH.
Qed.

Lemma Subseq_In {A : Type} (s l : list A) x : Subseq s l -> In x s -> In x l.
Proof.
  induction 1; simpl; intuition.
Qed.

Lemma select_loop_In b l p :
  In p (select_loop b l) -> exists c, In c l /\ cpath c = p.
Proof.
  intros H. apply (Subseq_In _ _ _ (select_loop_subseq l b)) in H.
  apply in_map_iff in H. destruct H as [c [E I]]. exists c. auto.
Qed.

(** What is selected comes from an entry that is not skipped. *)
Lemma filter_and_prioritize_In tree p :
  In p (filter_and_prioritize tree) ->
  exists item, In item tree /\ path item = p /\ _should_skip p = false.
Proof.
  intros H. apply select_loop_In in H. destruct H as [c [Hc E]].
  apply (Permutation_in _ (Permutation_sym (sort_candidates_perm _))) in Hc.
  apply candidates_of_In in Hc. destruct Hc as [i [Hi [S R]]].
  subst c. simpl in E. subst p. exists i. auto.
Qed.

(** A candidate that the loop reaches with budget left is selected when
    its tier is 1 or 2 or its allotment fits. *)
Lemma reached_candidate_selected b0 pre c post b :
  budget_after b0 pre = Some b -> 0 < b ->
  (ctier c <= 2 \/ Z.min (csize c) MAX_FILE_CHARS <= b) ->
  select_loop b0 (pre ++ c :: post) =
  select_loop b0 pre ++ cpath c :: select_loop (b - Z.min (csize c) MAX_FILE_CHARS) post.
Proof.
  intros Hpre Hb Hc. rewrite select_loop_app, Hpre.
  destruct c as [[p sz] tier]. unfold ctier, csize, cpath in *. simpl fst in *. simpl snd in *.
  rewrite select_loop_step by exact Hb.
  replace ((Z.min sz MAX_FILE_CHARS <=? b) || (tier <=? 2)) with true; [reflexivity|].
  symmetry. apply orb_true_iff. rewrite Z.leb_le, Z.leb_le. tauto.
Qed.

(** The first candidate is always selected: a selection is empty only
    when there is no candidate. *)
Lemma selection_empty_iff tree :
  filter_and_prioritize tree = [] <-> candidates_of tree = [].
Proof.
  unfold filter_and_prioritize. split.
  - intros H. destruct (sort_candidates (candidates_of tree)) as [|[[p sz] tier] l] eqn:E.
    + apply Permutation_nil. rewrite <- E. apply Permutation_sym, sort_candidates_perm.
    + rewrite select_loop_step in H by (unfold CHAR_BUDGET; lia).
      replace (Z.min sz MAX_FILE_CHARS <=? CHAR_BUDGET) with true in H; [discriminate|].
      symmetry. apply Z.leb_le. unfold MAX_FILE_CHARS, CHAR_BUDGET. lia.
  - intros ->. reflexivity.
Qed.

End Selection.

(* ===================================================================== *)
(** ** Slices, truncation and the rendered parts *)
(* ===================================================================== *)

Section Rendering.

Lemma slice_to_prefix s k : exists rest, s = slice_to s k ++ rest.
Proof.
  unfold slice_to. destruct (0 <=? k).
  - exists (skipn (Z.to_nat k) s). symmetry. apply firstn_skipn.
  - exists (skipn (Z.to_nat (Z.of_nat (length s) + k)) s). symmetry. apply firstn_skipn.
Qed.

Lemma slice_to_len_le s k : 0 <= k -> len (slice_to s k) <= k.
Proof.
  intros Hk. unfold slice_to, len.
  destruct (0 <=? k) eqn:E; [|apply Z.leb_gt in E; lia].
  rewrite length_firstn. lia.
Qed.

Lemma slice_to_len_exact s k : 0 <= k <= len s -> len (slice_to s k) = k.
Proof.
  intros Hk. unfold slice_to, len in *.
  destruct (0 <=? k) eqn:E; [|apply Z.leb_gt in E; lia].
  rewrite length_firstn. lia.
Qed.

Lemma slice_to_whole s k : len s <= k -> slice_to s k = s.
Proof.
  intros Hk. unfold slice_to, len in *.
  destruct (0 <=? k) eqn:E; [|apply Z.leb_gt in E; lia].
  apply firstn_all2. lia.
Qed.

Lemma len_app a b : len (a ++ b) = len a + len b.
Proof. unfold len. rewrite length_app. lia. Qed.

Lemma len_nonneg s : 0 <= len s.
Proof. unfold len. lia. Qed.

Lemma kept_prefix_prefix c l : exists rest, c = kept_prefix c l ++ rest.
Proof.
  unfold kept_prefix.
  destruct (slice_to_prefix c l) as [r1 E1].
  destruct (4 * l <? 5 * rfind NL (slice_to c l)).
  - destruct (slice_to_prefix (slice_to c l) (rfind NL (slice_to c l))) as [r2 E2].
    exists (r2 ++ r1). rewrite app_assoc, <- E2. exact E1.
  - exists r1. exact E1.
Qed.

Lemma kept_prefix_len_le c l : 0 <= l -> len (kept_prefix c l) <= l.
Proof.
  intros Hl. unfold kept_prefix.
  pose proof (slice_to_len_le c l Hl) as H1.
  destruct (4 * l <? 5 * rfind NL (slice_to c l)); [|exact H1].
  destruct (slice_to_prefix (slice_to c l) (rfind NL (slice_to c l))) as [r E].
  rewrite E in H1 at 1. rewrite len_app in H1. pose proof (len_nonneg r). lia.
Qed.

(** The value of [truncate_file] in its two cases. *)
Lemma truncate_file_short p c l : len c <= l -> truncate_file p c l = c.
Proof.
  intros H. unfold truncate_file. apply Z.leb_le in H. rewrite H. reflexivity.
Qed.

Lemma truncate_file_long p c l :
  l < len c ->
  truncate_file p c l =
  kept_prefix c l ++ truncation_note (S (count NL (kept_prefix c l))) (S (count NL c)).
Proof.
  intros H. unfold truncate_file. apply Z.leb_gt in H. rewrite H. reflexivity.
Qed.

Lemma total_len_cons x l : total_len (x :: l) = len x + total_len l.
Proof. reflexivity. Qed.

Lemma total_len_app a b : total_len (a ++ b) = total_len a + total_len b.
Proof.
  induction a as [|x a IH]; simpl; [reflexivity|]. rewrite IH. lia.
Qed.

Lemma render_parts_cons t f rest :
  render_parts t (f :: rest) =
  if CHAR_BUDGET <=? t + len (rendered_block f)
  then [rendered_block f; OMITTED_MARKER]
  else rendered_block f :: render_parts (t + len (rendered_block f)) rest.
Proof. destruct f as [p c]. reflexivity. Qed.

(** The loop of [build_file_context] from a running total below the
    budget: it renders the first [n] files; the blocks before the last
    total less than the budget; either every file is rendered and the
    budget is not reached, or the last block reaches it and the marker
    follows. *)
Lemma render_parts_shape files : forall t,
  t < CHAR_BUDGET ->
  exists n, (n <= length files)%nat /\
    let blocks := map rendered_block (firstn n files) in
    t + total_len (removelast blocks) < CHAR_BUDGET /\
    ((n = length files /\ t + total_len blocks < CHAR_BUDGET
      /\ render_parts t files = blocks)
     \/ (CHAR_BUDGET <= t + total_len blocks
         /\ render_parts t files = blocks ++ [OMITTED_MARKER])).
Proof.
  induction files as [|f rest IH]; intros t Ht.
  - exists O. simpl. split; [lia|]. split; [lia|]. left. repeat split; lia.
  - rewrite render_parts_cons.
    destruct (CHAR_BUDGET <=? t + len (rendered_block f)) eqn:E.
    + apply Z.leb_le in E. exists 1%nat. simpl. split; [lia|]. split; [lia|].
      right. split; [lia | reflexivity].
    + apply Z.leb_gt in E. destruct (IH _ E) as [n [Hn [Hpre Hcase]]].
      exists (S n). split; [simpl; lia|].
      cbn zeta in *. rewrite firstn_cons, map_cons.
      set (blocks := map rendered_block (firstn n rest)) in *.
      split.
      * destruct blocks as [|b bs] eqn:Eb; [simpl; lia|].
        change (removelast (rendered_block f :: b :: bs))
          with (rendered_block f :: removelast (b :: bs)).
        rewrite total_len_cons. lia.
      * rewrite total_len_cons.
        destruct Hcase as [[Hall [Hsum Hr]]|[Hsum Hr]].
        -- left. repeat split; [simpl; lia | lia | rewrite Hr; reflexivity].
        -- right. split; [lia | rewrite Hr; reflexivity].
Qed.

Lemma len_join sep l :
  l <> [] -> len (join sep l) = total_len l + len sep * (Z.of_nat (length l) - 1).
Proof.
  induction l as [|x l IH]; [congruence|]. intros _.
  destruct l as [|y l].
  - simpl. lia.
  - change (join sep (x :: y :: l)) with (x ++ sep ++ join sep (y :: l)).
    rewrite !len_app, IH by discriminate. simpl total_len. simpl length. lia.
Qed.

Lemma insert_str_perm x l : Permutation (x :: l) (insert_str x l).
Proof.
  induction l as [|y l IH]; simpl.
  - apply Permutation_refl.
  - destruct (Str.leb x y).
    + apply Permutation_refl.
    + eapply perm_trans; [apply perm_swap|]. apply perm_skip, IH.
Qed.

Lemma sorted_perm l : Permutation l (sorted l).
Proof.
  induction l as [|x l IH]; simpl.
  - apply perm_nil.
  - eapply perm_trans; [apply perm_skip, IH | apply insert_str_perm].
Qed.

Lemma In_firstn {A : Type} (x : A) n l : In x (firstn n l) -> In x l.
Proof.
  intros H. rewrite <- (firstn_skipn n l). apply in_or_app. left. exact H.
Qed.

(** A path that [build_directory_tree] renders is the path of a blob of
    its argument that is not skipped. *)
Lemma shown_paths_In tree p :
  In p (shown_paths tree) ->
  exists item, In item tree /\ path item = p /\ type item = Blob
               /\ _should_skip p = false.
Proof.
  unfold shown_paths, tree_paths. intros H.
  apply In_firstn in H.
  apply (Permutation_in _ (Permutation_sym (sorted_perm _))) in H.
  apply in_map_iff in H. destruct H as [i [E I]].
  apply filter_In in I. destruct I as [I C].
  apply andb_true_iff in C. destruct C as [C1 C2].
  exists i. subst p. repeat split; try assumption.
  - destruct (type i); simpl in C1; congruence.
  - apply negb_true_iff. exact C2.
Qed.

Lemma _get_tree_In listing item :
  In item (_get_tree listing) <-> In item listing /\ type item = Blob.
Proof.
  unfold _get_tree. rewrite filter_In. split; intros [H K]; split; try exact H.
  - destruct (type item); simpl in K; congruence.
  - rewrite K. reflexivity.
Qed.

End Rendering.

(* ===================================================================== *)
(** ** The selector: claims C1, C2, C8, C9, C10 *)
(* ===================================================================== *)

(** C1, where the code departs from it.  The claim: every candidate of
    tier 1 or 2 is selected whatever budget is left, and the loop stops
    early only when the budget is spent and the tier is above 2.  The loop
    leaves as soon as the budget is spent, whatever the tier: of thirteen
    manifests of tier 2, none skipped, twelve spend the budget and the
    thirteenth is not selected. *)
Theorem C1_manifest_dropped_once_budget_spent :
  Forall (fun item => _should_skip (path item) = false /\ _tier (path item) = 2)
         thirteen_manifests
  /\ budget_after CHAR_BUDGET (firstn 12 (sort_candidates (candidates_of thirteen_manifests)))
     = Some (-2000)
  /\ filter_and_prioritize thirteen_manifests = map path (firstn 12 thirteen_manifests)
  /\ ~ In (lit "d13/package.json") (filter_and_prioritize thirteen_manifests).
Proof.
  split; [|split; [|split]].
  - repeat constructor.
  - vm_compute. reflexivity.
  - vm_compute. reflexivity.
  - apply mem_false_not_In. vm_compute. reflexivity.
Qed.

(** What holds of the candidates of tier 1 and 2: one that the loop
    reaches before the budget is spent is selected, even when its allotment
    exceeds what is left. *)
Lemma essential_selected_while_budget_left tree pre c post b :
  sort_candidates (candidates_of tree) = pre ++ c :: post ->
  budget_after CHAR_BUDGET pre = Some b -> 0 < b -> ctier c <= 2 ->
  In (cpath c) (filter_and_prioritize tree).
Proof.
  intros E Hpre Hb Ht. unfold filter_and_prioritize. rewrite E.
  rewrite (reached_candidate_selected _ _ _ _ _ Hpre Hb (or_introl Ht)).
  apply in_or_app. right. left. reflexivity.
Qed.

(* ===================================================================== *)
(** ** The order in which the entries of the tree are considered *)
(* ===================================================================== *)

Section ConsideredOrder.

(** The candidates are those of the entries that are not skipped, in the
    order of the tree. *)
Lemma candidates_of_kept tree :
  candidates_of tree
  = map candidate_of (filter (fun e => negb (_should_skip (path e))) tree).
Proof.
  induction tree as [|e tree IH]; [reflexivity|].
  simpl. destruct (_should_skip (path e)); simpl; rewrite IH; reflexivity.
Qed.

(** Where the sort puts the candidate of an entry: after the entries of a
    strictly smaller key, before the others. *)
Lemma insert_by_entry x es :
  exists es1 es2,
    es = es1 ++ es2
    /\ insert_by (candidate_of x) (map candidate_of es) = map candidate_of (es1 ++ x :: es2)
    /\ Forall (fun y => key_leb (key (candidate_of x)) (key (candidate_of y)) = false) es1.
Proof.
  induction es as [|y es IH].
  - exists [], []. split; [reflexivity|]. split; [reflexivity | constructor].
  - simpl. destruct (key_leb (key (candidate_of x)) (key (candidate_of y))) eqn:E.
    + exists [], (y :: es). split; [reflexivity|]. split; [reflexivity | constructor].
    + destruct IH as [es1 [es2 [-> [I F]]]].
      exists (y :: es1), es2. split; [reflexivity|]. split.
      * simpl. rewrite I. reflexivity.
      * constructor; assumption.
Qed.

(** The sorted candidates are the candidates of the entries in some
    order, which keeps the entries of one key as the tree has them. *)
Lemma sort_entries l :
  exists es,
    Permutation l es
    /\ sort_candidates (map candidate_of l) = map candidate_of es
    /\ forall k, filter (fun e => same_key k (candidate_of e)) es
                 = filter (fun e => same_key k (candidate_of e)) l.
Proof.
  induction l as [|x l [es [P [S F]]]].
  - exists []. split; [constructor|]. split; reflexivity.
  - destruct (insert_by_entry x es) as [es1 [es2 [-> [I G]]]].
    exists (es1 ++ x :: es2). split; [apply Permutation_cons_app, P|]. split.
    + simpl. rewrite S. exact I.
    + intros k. specialize (F k). rewrite filter_app in *. simpl.
      destruct (same_key k (candidate_of x)) eqn:E.
      * assert (N : filter (fun e => same_key k (candidate_of e)) es1 = []).
        { apply same_key_spec in E. clear - G E.
          induction G as [|y es1 Hy G IH]; [reflexivity|].
          simpl. rewrite IH. destruct (same_key k (candidate_of y)) eqn:Ey; [|reflexivity].
          apply same_key_spec in Ey. rewrite E, Ey, key_leb_refl in Hy. discriminate. }
        rewrite N in *. simpl in *. rewrite F. reflexivity.
      * rewrite <- F. reflexivity.
Qed.

Lemma StronglySorted_entries (R : candidate -> candidate -> Prop) es :
  StronglySorted R (map candidate_of es) ->
  StronglySorted (fun a b => R (candidate_of a) (candidate_of b)) es.
Proof.
  induction es as [|e es IH]; intros H; [constructor|].
  simpl in H. inversion H as [|? ? S A]; subst. constructor; [apply IH, S|].
  rewrite Forall_forall in *. intros y Hy. apply A, in_map, Hy.
Qed.

Lemma StronglySorted_impl {A : Type} (R R' : A -> A -> Prop) l :
  (forall a b, R a b -> R' a b) -> StronglySorted R l -> StronglySorted R' l.
Proof.
  intros H. induction 1 as [|x l S IH F]; constructor; [exact IH|].
  eapply Forall_impl; [|exact F]. intros y. apply H.
Qed.

Lemma sorted_before {A : Type} (R : A -> A -> Prop) pre a post b :
  StronglySorted R (pre ++ a :: post) -> In b pre -> R b a.
Proof.
  induction pre as [|x pre IH]; simpl; intros S I; [contradiction|].
  inversion S as [|? ? S' F]; subst. destruct I as [->|I]; [|apply IH; assumption].
  rewrite Forall_forall in F. apply F, in_or_app. right. left. reflexivity.
Qed.

Lemma NoDup_map_filter {A B : Type} (f : A -> B) (p : A -> bool) l :
  NoDup (map f l) -> NoDup (map f (filter p l)).
Proof.
  induction l as [|x l IH]; simpl; intros N; [constructor|].
  inversion N as [|? ? Hx N']; subst.
  destruct (p x); simpl; [|apply IH, N'].
  constructor; [|apply IH, N'].
  intros I. apply Hx. apply in_map_iff in I. destruct I as [y [E Hy]].
  apply filter_In in Hy. rewrite <- E. apply in_map. tauto.
Qed.

Lemma NoDup_app_disjoint {A : Type} (l1 l2 : list A) x :
  NoDup (l1 ++ l2) -> In x l1 -> In x l2 -> False.
Proof.
  induction l1 as [|y l1 IH]; simpl; intros N I1 I2; [contradiction|].
  inversion N as [|? ? Hy N']; subst. destruct I1 as [->|I1].
  - apply Hy, in_or_app. right. exact I2.
  - exact (IH N' I1 I2).
Qed.

Lemma NoDup_app_tail {A : Type} (l1 l2 : list A) : NoDup (l1 ++ l2) -> NoDup l2.
Proof.
  induction l1 as [|y l1 IH]; simpl; intros N; [exact N|].
  inversion N; subst. apply IH. assumption.
Qed.

Lemma paths_of_candidates es : map cpath (map candidate_of es) = map path es.
Proof. rewrite map_map. reflexivity. Qed.

(** An entry of tier 3 or more that the loop reaches with budget left is
    selected when its allotment fits, and passed over when it does not. *)
Lemma reached_entry pre e post left :
  budget_after CHAR_BUDGET (map candidate_of pre) = Some left -> 0 < left ->
  3 <= _tier (path e) ->
  select_loop CHAR_BUDGET (map candidate_of (pre ++ e :: post))
  = select_loop CHAR_BUDGET (map candidate_of pre)
    ++ (if Z.min (get_size e) MAX_FILE_CHARS <=? left
        then path e :: select_loop (left - Z.min (get_size e) MAX_FILE_CHARS)
                                   (map candidate_of post)
        else select_loop left (map candidate_of post)).
Proof.
  intros Hl Hpos Ht. rewrite map_app, select_loop_app, Hl. f_equal.
  change (map candidate_of (e :: post))
    with ((path e, get_size e, _tier (path e)) :: map candidate_of post).
  rewrite select_loop_step by exact Hpos.
  replace (_tier (path e) <=? 2) with false by (symmetry; apply Z.leb_gt; lia).
  rewrite orb_false_r. reflexivity.
Qed.

(** With paths that do not repeat and sizes that are not negative, a
    candidate of tier 3 or more whose allotment is more than the budget
    is not selected further on: the budget does not grow. *)
Lemma not_selected_when_short l : forall left c,
  In c l -> NoDup (map cpath l) -> (forall x, In x l -> 0 <= csize x) ->
  3 <= ctier c -> left < Z.min (csize c) MAX_FILE_CHARS ->
  ~ In (cpath c) (select_loop left l).
Proof.
  induction l as [|[[p s] t] l IH]; intros left c Hc N Hs Ht Hl; [contradiction|].
  simpl in N. inversion N as [|? ? Hp N']; subst.
  assert (Hs' : forall x, In x l -> 0 <= csize x) by (intros x Hx; apply Hs; right; exact Hx).
  assert (S0 : 0 <= s) by (apply (Hs (p, s, t)); left; reflexivity).
  simpl. destruct (left <=? 0); [intros []|].
  destruct Hc as [<-|Hc].
  - unfold csize, ctier, cpath in *. simpl in *.
    replace (Z.min s MAX_FILE_CHARS <=? left) with false by (symmetry; apply Z.leb_gt; lia).
    replace (t <=? 2) with false by (symmetry; apply Z.leb_gt; lia).
    simpl. intros I. apply Hp. destruct (select_loop_In _ _ _ I) as [c [Ic <-]].
    apply in_map, Ic.
  - destruct ((Z.min s MAX_FILE_CHARS <=? left) || (t <=? 2)).
    + intros [E|I].
      * apply Hp. change (cpath (p, s, t)) with p. rewrite E. apply in_map, Hc.
      * revert I. apply IH; try assumption. unfold MAX_FILE_CHARS in *. lia.
    + apply IH; assumption.
Qed.

End ConsideredOrder.

(** C2.  The entries of the tree that are not skipped are considered in
    the order of a stable sort on (tier, size), the size being that of the
    record, or 0 without one: the list [considered] that the loop runs
    over holds these entries, ascending in tier and then in size, those of
    one tier and one size as the tree has them, and the selection keeps
    that order.  For two such entries [a] and [b] of one tier of 3 or
    more, [a] smaller than [b] (as two of tier 5 and of sizes 50 and 100),
    whichever comes first in the tree: [a] is considered before [b]; each
    of them, reached with [left] characters of budget, is selected exactly
    when its allotment fits in [left], so with budget for the smaller
    alone the smaller is selected, and [b] after it only when it fits what
    is left then; and when paths do not repeat and no size is negative,
    [b] is selected only if [a] is, before it. *)
Theorem C2_selection_order tree :
  let sz := fun e : entry => match size e with Some n => n | None => 0 end in
  let tier := fun e : entry => _tier (path e) in
  let cand := fun e : entry => (path e, sz e, tier e) in
  let allotted := fun e : entry => Z.min (sz e) MAX_FILE_CHARS in
  let kept := filter (fun e => negb (_should_skip (path e))) tree in
  exists considered : list entry,
    Permutation kept considered
    /\ StronglySorted (fun x y => tier x < tier y \/ (tier x = tier y /\ sz x <= sz y))
                      considered
    /\ (forall t s, filter (fun e => (tier e =? t) && (sz e =? s)) considered
                    = filter (fun e => (tier e =? t) && (sz e =? s)) kept)
    /\ filter_and_prioritize tree = select_loop CHAR_BUDGET (map cand considered)
    /\ Subseq (filter_and_prioritize tree) (map path considered)
    /\ forall a b,
         In a tree -> In b tree ->
         _should_skip (path a) = false -> _should_skip (path b) = false ->
         tier a = tier b -> 3 <= tier a -> sz a < sz b ->
         exists pre mid post,
           considered = pre ++ a :: mid ++ b :: post
           /\ (forall left,
                 budget_after CHAR_BUDGET (map cand pre) = Some left -> 0 < left ->
                 filter_and_prioritize tree
                 = select_loop CHAR_BUDGET (map cand pre)
                   ++ (if allotted a <=? left
                       then path a :: select_loop (left - allotted a)
                                                  (map cand (mid ++ b :: post))
                       else select_loop left (map cand (mid ++ b :: post))))
           /\ (forall left,
                 budget_after CHAR_BUDGET (map cand (pre ++ a :: mid)) = Some left ->
                 0 < left ->
                 filter_and_prioritize tree
                 = select_loop CHAR_BUDGET (map cand (pre ++ a :: mid))
                   ++ (if allotted b <=? left
                       then path b :: select_loop (left - allotted b) (map cand post)
                       else select_loop left (map cand post)))
           /\ (NoDup (map path tree) -> (forall e, In e tree -> 0 <= sz e) ->
               In (path b) (filter_and_prioritize tree) ->
               exists l1 l2,
                 filter_and_prioritize tree = l1 ++ path a :: l2 /\ In (path b) l2).
Proof.
  intros sz tier cand allotted kept.
  destruct (sort_entries kept) as [considered [P [S F]]].
  assert (A4 : filter_and_prioritize tree = select_loop CHAR_BUDGET (map cand considered)).
  { unfold filter_and_prioritize. rewrite candidates_of_kept. fold kept. rewrite S.
    reflexivity. }
  assert (Srt : StronglySorted
                  (fun x y => tier x < tier y \/ (tier x = tier y /\ sz x <= sz y))
                  considered).
  { apply StronglySorted_impl
      with (R := fun a b => key_le (candidate_of a) (candidate_of b)).
    - intros a b H. apply key_le_spec in H. exact H.
    - apply StronglySorted_entries. rewrite <- S. apply sort_candidates_sorted. }
  exists considered.
  split; [exact P|]. split; [exact Srt|]. split; [intros t s; exact (F (t, s))|].
  split; [exact A4|]. split.
  { rewrite A4. rewrite <- (paths_of_candidates considered). apply select_loop_subseq. }
  intros a b Ia Ib Sa Sb Ht H3 Hsz.
  assert (Ka : In a considered).
  { apply (Permutation_in _ P), filter_In. rewrite Sa. auto. }
  assert (Kb : In b considered).
  { apply (Permutation_in _ P), filter_In. rewrite Sb. auto. }
  destruct (in_split _ _ Ka) as [pre [l2 E]].
  assert (Kb' : In b l2).
  { rewrite E in Kb, Srt. apply in_app_or in Kb. destruct Kb as [Kb|[Kb|Kb]].
    - pose proof (sorted_before _ _ _ _ _ Srt Kb) as H. cbv beta in H. lia.
    - subst b. lia.
    - exact Kb. }
  destruct (in_split _ _ Kb') as [mid [post E2]]. subst l2.
  exists pre, mid, post. split; [exact E|].
  split; [|split].
  - intros left Hl Hpos. rewrite A4, E.
    exact (reached_entry pre a (mid ++ b :: post) left Hl Hpos H3).
  - intros left Hl Hpos. rewrite A4, E.
    replace (pre ++ a :: mid ++ b :: post) with ((pre ++ a :: mid) ++ b :: post)
      by (rewrite <- app_assoc; reflexivity).
    apply (reached_entry (pre ++ a :: mid) b post left Hl Hpos).
    fold (tier b). rewrite <- Ht. exact H3.
  - intros N Hs Hb.
    assert (Np : NoDup (map path (pre ++ a :: mid ++ b :: post))).
    { rewrite <- E. apply (Permutation_NoDup (Permutation_map path P)).
      apply NoDup_map_filter, N. }
    assert (Hs' : forall x, In x (map candidate_of (mid ++ b :: post)) -> 0 <= csize x).
    { intros x Hx. apply in_map_iff in Hx. destruct Hx as [e [<- He]].
      apply (Hs e). apply (Permutation_in _ (Permutation_sym P)) in Ka.
      assert (Ie : In e considered).
      { rewrite E. apply in_or_app. right. right. exact He. }
      apply (Permutation_in _ (Permutation_sym P)) in Ie.
      apply filter_In in Ie. tauto. }
    assert (Nab : path a <> path b).
    { intros Eab. rewrite map_app in Np. apply NoDup_app_tail in Np.
      simpl in Np. inversion Np as [|? ? Hx _]; subst. apply Hx.
      rewrite Eab. apply in_map, in_or_app. right. left. reflexivity. }
    rewrite A4, E in Hb |- *.
    change (map cand (pre ++ a :: mid ++ b :: post))
      with (map candidate_of (pre ++ a :: mid ++ b :: post)) in Hb |- *.
    rewrite map_app, select_loop_app in Hb |- *.
    apply in_app_or in Hb. destruct Hb as [Hb|Hb].
    { exfalso. destruct (select_loop_In _ _ _ Hb) as [c [Ic Ec]].
      apply in_map_iff in Ic. destruct Ic as [e [<- Ie]].
      rewrite map_app in Np. apply (NoDup_app_disjoint _ _ (path b) Np).
      - change (cpath (candidate_of e)) with (path e) in Ec. rewrite <- Ec.
        apply in_map, Ie.
      - apply in_map. right. apply in_or_app. right. left. reflexivity. }
    destruct (budget_after CHAR_BUDGET (map candidate_of pre)) as [left|]; [|contradiction].
    change (map candidate_of (a :: mid ++ b :: post))
      with ((path a, get_size a, _tier (path a)) :: map candidate_of (mid ++ b :: post))
      in Hb |- *.
    destruct (Z.leb_spec left 0) as [L0|L0].
    { exfalso. simpl in Hb. replace (left <=? 0) with true in Hb by (symmetry; apply Z.leb_le; lia).
      contradiction. }
    rewrite select_loop_step in Hb |- * by exact L0.
    replace (_tier (path a) <=? 2) with false in Hb |- *
      by (symmetry; apply Z.leb_gt; unfold tier in H3; lia).
    rewrite orb_false_r in Hb |- *.
    destruct (Z.leb_spec (Z.min (get_size a) MAX_FILE_CHARS) left) as [La|La].
    + eexists. eexists. split; [reflexivity|].
      destruct Hb as [Hb|Hb]; [contradiction | exact Hb].
    + exfalso. revert Hb.
      change (path b) with (cpath (candidate_of b)).
      apply not_selected_when_short.
      * apply in_map, in_or_app. right. left. reflexivity.
      * rewrite paths_of_candidates. rewrite map_app in Np. apply NoDup_app_tail in Np.
        simpl in Np. inversion Np; assumption.
      * exact Hs'.
      * change (ctier (candidate_of b)) with (tier b). rewrite <- Ht. exact H3.
      * change (csize (candidate_of b)) with (sz b).
        change (get_size a) with (sz a) in La. lia.
Qed.

Lemma C2_witness :
  let big := mkEntry (lit "src/big.py") (Some 100) Blob in
  let small := mkEntry (lit "src/small.py") (Some 50) Blob in
  let tree := [big; small] in
  _tier (path small) = 5 /\ _tier (path big) = 5
  /\ NoDup (map path tree)
  /\ In (path big) (filter_and_prioritize tree)
  /\ exists l1 l2,
       filter_and_prioritize tree = l1 ++ path small :: l2 /\ In (path big) l2.
Proof.
  intros big small tree.
  assert (T1 : _tier (path small) = 5) by (vm_compute; reflexivity).
  assert (T2 : _tier (path big) = 5) by (vm_compute; reflexivity).
  assert (N : NoDup (map path tree)).
  { constructor; [|constructor; [|constructor]]; simpl.
    - intros [H|[]]. vm_compute in H. discriminate.
    - intros []. }
  assert (I : In (path big) (filter_and_prioritize tree)).
  { apply mem_In. vm_compute. reflexivity. }
  split; [exact T1|]. split; [exact T2|]. split; [exact N|]. split; [exact I|].
  destruct (C2_selection_order tree) as [considered [_ [_ [_ [_ [_ B]]]]]].
  destruct (B small big) as [pre [mid [post [_ [_ [_ H]]]]]].
  - right. left. reflexivity.
  - left. reflexivity.
  - vm_compute. reflexivity.
  - vm_compute. reflexivity.
  - rewrite T1, T2. reflexivity.
  - rewrite T1. lia.
  - simpl. lia.
  - apply H; [exact N | | exact I].
    intros e [<-|[<-|[]]]; simpl; lia.
Defined.

(** The same through the whole function: after eleven manifests and an
    entry point, 100 characters are left; the file of 50 bytes, listed
    after the one of 100, is selected and the one of 100 is not. *)
Example budget_for_one_of_two :
  budget_after CHAR_BUDGET (firstn 12 (sort_candidates (candidates_of nearly_full_tree)))
  = Some 100
  /\ skipn 11 (filter_and_prioritize nearly_full_tree) = [lit "src/main.py"; lit "src/small.py"]
  /\ ~ In (lit "src/big.py") (filter_and_prioritize nearly_full_tree).
Proof.
  split; [|split].
  - vm_compute. reflexivity.
  - vm_compute. reflexivity.
  - apply mem_false_not_In. vm_compute. reflexivity.
Qed.



(** C8, as stated, fails: [filter_and_prioritize] does not look at the
    kind of an entry, and selects the directory record of a tree that
    consists of it. *)
Lemma C8_directory_record_selected :
  ~ no_directory_selected [mkEntry (lit "src") None Tree].
Proof.
  intros H.
  apply (H (mkEntry (lit "src") None Tree)); [left; reflexivity | reflexivity |].
  apply mem_In. vm_compute. reflexivity.
Qed.

Lemma selected_or_shown_is_blob listing p :
  In p (filter_and_prioritize (_get_tree listing))
  \/ In p (shown_paths (_get_tree listing))
  \/ In p (shown_paths listing) ->
  exists item, In item listing /\ path item = p /\ type item = Blob.
Proof.
  intros [H|[H|H]].
  - apply filter_and_prioritize_In in H. destruct H as [i [Hi [E _]]].
    apply _get_tree_In in Hi. exists i. tauto.
  - apply shown_paths_In in H. destruct H as [i [Hi [E [B _]]]].
    apply _get_tree_In in Hi. exists i. tauto.
  - apply shown_paths_In in H. destruct H as [i [Hi [E [B _]]]].
    exists i. tauto.
Qed.

(** C8, amended.  The blobs are kept by [_get_tree]: every path that
    [filter_and_prioritize] selects from what [_get_tree] returns, and every
    path that [build_directory_tree] renders, from that or from the listing
    itself, is the path of a blob of the listing. *)
Theorem C8_only_blobs_past_get_tree listing p :
  In p (filter_and_prioritize (_get_tree listing))
  \/ In p (shown_paths (_get_tree listing))
  \/ In p (shown_paths listing) ->
  exists item, In item listing /\ path item = p /\ type item = Blob.
Proof. apply selected_or_shown_is_blob. Qed.

Lemma C8_witness :
  let listing := [mkEntry (lit "src") None Tree; mkEntry (lit "src/a.py") (Some 10) Blob] in
  In (lit "src/a.py") (filter_and_prioritize (_get_tree listing))
  /\ exists item, In item listing /\ path item = lit "src/a.py" /\ type item = Blob.
Proof.
  intros listing.
  assert (H : In (lit "src/a.py") (filter_and_prioritize (_get_tree listing))).
  { apply mem_In. vm_compute. reflexivity. }
  split; [exact H|].
  apply (C8_only_blobs_past_get_tree listing (lit "src/a.py")). left. exact H.
Defined.

(** Where no two records of the listing share a path, no record other
    than a blob is selected or rendered. *)
Lemma no_directory_past_get_tree listing item :
  NoDup (map path listing) -> In item listing -> type item <> Blob ->
  ~ In (path item) (filter_and_prioritize (_get_tree listing))
  /\ ~ In (path item) (shown_paths (_get_tree listing))
  /\ ~ In (path item) (shown_paths listing).
Proof.
  intros Hnd Hi Hk.
  assert (K : forall item', In item' listing -> path item' = path item -> item' = item).
  { clear Hk. induction listing as [|e l IH]; [contradiction|].
    simpl in Hnd. inversion Hnd as [|? ? Hn Hnd']; subst.
    intros i' [->|Hi'] E; destruct Hi as [->|Hi]; try reflexivity.
    - exfalso. apply Hn. rewrite E. apply in_map. exact Hi.
    - exfalso. apply Hn. rewrite <- E. apply in_map. exact Hi'.
    - apply IH; assumption. }
  assert (G : forall p, p = path item ->
                (In p (filter_and_prioritize (_get_tree listing))
                 \/ In p (shown_paths (_get_tree listing))
                 \/ In p (shown_paths listing)) -> False).
  { intros p -> H. apply selected_or_shown_is_blob in H.
    destruct H as [i' [Hi' [E B]]]. apply K in E; [|exact Hi']. subst i'. contradiction. }
  repeat split; intros H; eapply G; eauto.
Qed.

(** C9.  When the tree [_get_tree] returns is not empty and the selector
    returns nothing, [fetch_repo_contents] raises the error of the
    unreadable repository; this is not the error of the empty repository,
    which is raised exactly when the listing holds no blob. *)
Theorem C9_no_readable_files_is_distinct listing :
  _get_tree listing <> [] ->
  filter_and_prioritize (_get_tree listing) = [] ->
  fetch_repo_contents listing = Err (ValueError NO_READABLE_FILES)
  /\ ValueError NO_READABLE_FILES <> ValueError EMPTY_REPOSITORY
  /\ (forall listing',
        fetch_repo_contents listing' = Err (ValueError EMPTY_REPOSITORY)
        <-> (forall item, In item listing' -> type item <> Blob)).
Proof.
  intros Hne Hsel.
  assert (D : ValueError NO_READABLE_FILES <> ValueError EMPTY_REPOSITORY).
  { intros E. injection E as E. vm_compute in E. discriminate. }
  split; [|split; [exact D|]].
  - unfold fetch_repo_contents. destruct (_get_tree listing); [congruence|].
    rewrite Hsel. reflexivity.
  - intros l. unfold fetch_repo_contents. split.
    + intros H item Hi Hb.
      assert (I : In item (_get_tree l)) by (apply _get_tree_In; auto).
      destruct (_get_tree l) as [|e t]; [contradiction|].
      destruct (filter_and_prioritize (e :: t)); [|discriminate].
      apply D. congruence.
    + intros H. destruct (_get_tree l) as [|e t] eqn:E; [reflexivity|].
      exfalso. assert (I : In e (_get_tree l)) by (rewrite E; left; reflexivity).
      apply _get_tree_In in I. destruct I as [I B]. exact (H e I B).
Qed.

Lemma C9_witness :
  let listing := [mkEntry (lit "logo.png") (Some 2048) Blob] in
  _get_tree listing <> []
  /\ filter_and_prioritize (_get_tree listing) = []
  /\ fetch_repo_contents listing = Err (ValueError NO_READABLE_FILES).
Proof.
  intros listing.
  assert (N : _get_tree listing <> []) by (vm_compute; discriminate).
  assert (S : filter_and_prioritize (_get_tree listing) = []) by (vm_compute; reflexivity).
  split; [exact N|]. split; [exact S|].
  exact (proj1 (C9_no_readable_files_is_distinct listing N S)).
Defined.

(* ===================================================================== *)
(** ** The truncator and the renderer: claims C3, C4, C5, C6 *)
(* ===================================================================== *)

(** [rfind] returns the index of the last occurrence. *)
Lemma rfind_spec c s :
  (rfind c s = -1 /\ count c s = O)
  \/ (0 <= rfind c s < len s
      /\ nth_error s (Z.to_nat (rfind c s)) = Some c
      /\ count c (skipn (S (Z.to_nat (rfind c s))) s) = O).
Proof.
  induction s as [|x s IH]; [left; split; reflexivity|].
  unfold len in *. simpl rfind. simpl count. simpl length.
  destruct IH as [[E Z0]|[R [N C]]].
  - rewrite E. simpl (0 <=? -1).
    destruct (chr_eqb x c) eqn:Ex.
    + right. apply chr_eqb_eq in Ex. subst x. simpl. repeat split; lia.
    + left. split; [reflexivity | exact Z0].
  - right. destruct (0 <=? rfind c s) eqn:E0; [|apply Z.leb_gt in E0; lia].
    replace (Z.to_nat (rfind c s + 1)) with (S (Z.to_nat (rfind c s))) by lia.
    repeat split; try lia; try assumption.
Qed.

(** C3, as stated, fails: twelve files of 6000 characters are all
    rendered, and the string returned is longer than the budget. *)
Lemma C3_context_longer_than_budget :
  ~ len (build_file_context twelve_files) <= CHAR_BUDGET.
Proof.
  assert (E : len (build_file_context twelve_files) = 72304) by (vm_compute; reflexivity).
  rewrite E. unfold CHAR_BUDGET. lia.
Qed.

(** C3, amended.  [build_file_context] renders the first [n] files, for
    some [n]; the blocks before the last one total less than the budget;
    either all the files are rendered and the total stays below the
    budget, or the last block brings the total to the budget, no further
    block is rendered and only the marker is appended.  The string
    returned is these parts joined by blank lines: its length is the total
    of the parts and two characters between each two. *)
Theorem C3_blocks_stop_at_budget (files : list (str * str)) :
  exists n, (n <= length files)%nat /\
    let blocks := map rendered_block (firstn n files) in
    total_len (removelast blocks) < CHAR_BUDGET
    /\ ((n = length files /\ total_len blocks < CHAR_BUDGET
         /\ build_file_context files = join [NL; NL] blocks)
        \/ (CHAR_BUDGET <= total_len blocks
            /\ build_file_context files = join [NL; NL] (blocks ++ [OMITTED_MARKER])
            /\ len (build_file_context files)
               = total_len blocks + len OMITTED_MARKER + 2 * Z.of_nat n)).
Proof.
  destruct (render_parts_shape files 0) as [n [Hn [Hpre Hcase]]];
    [unfold CHAR_BUDGET; lia|].
  exists n. split; [exact Hn|]. cbn zeta in *. split; [lia|].
  unfold build_file_context.
  destruct Hcase as [[Hall [Hsum Hr]]|[Hsum Hr]].
  - left. rewrite Hr. repeat split; [exact Hall | lia].
  - right. rewrite Hr. repeat split; [lia|].
    rewrite len_join by (destruct (map rendered_block (firstn n files)); discriminate).
    rewrite total_len_app, length_app, length_map, length_firstn.
    rewrite Nat.min_l by exact Hn.
    change (total_len [OMITTED_MARKER]) with (len OMITTED_MARKER + 0).
    change (len [NL; NL]) with 2. simpl length. lia.
Qed.

(** C4, as stated, fails: the note is appended after the cut, so the
    result of a truncation can be longer than the limit and is truncated
    again, with other line counts in its note. *)
Lemma C4_truncation_not_idempotent :
  truncate_file (lit "a.txt") (truncate_file (lit "a.txt") (lit "abcdefghij") 5) 5
  <> truncate_file (lit "a.txt") (lit "abcdefghij") 5.
Proof. vm_compute. discriminate. Qed.

(** C4, amended.  Truncating again changes nothing when the result of the
    first truncation is no longer than the limit, as it is for every
    content no longer than the limit. *)
Theorem C4_idempotent_when_result_fits (p content : str) (limit : Z) :
  len (truncate_file p content limit) <= limit ->
  truncate_file p (truncate_file p content limit) limit = truncate_file p content limit.
Proof. apply truncate_file_short. Qed.

Lemma C4_witness :
  let content := repeat "a"%char 201 ++ [NL] ++ repeat "b"%char 100 in
  truncate_file (lit "a.txt") content 250 <> content
  /\ len (truncate_file (lit "a.txt") content 250) <= 250
  /\ truncate_file (lit "a.txt") (truncate_file (lit "a.txt") content 250) 250
     = truncate_file (lit "a.txt") content 250.
Proof.
  intros content.
  assert (L : len (truncate_file (lit "a.txt") content 250) <= 250).
  { assert (E : len (truncate_file (lit "a.txt") content 250) = 237) by (vm_compute; reflexivity).
    rewrite E. lia. }
  split; [vm_compute; discriminate|]. split; [exact L|].
  exact (C4_idempotent_when_result_fits (lit "a.txt") content 250 L).
Defined.

Lemma truncate_file_idempotent_on_short p content limit :
  len content <= limit ->
  truncate_file p (truncate_file p content limit) limit = truncate_file p content limit.
Proof.
  intros H. rewrite (truncate_file_short p content limit H).
  apply truncate_file_short, H.
Qed.

(** C5, as stated, fails.  A truncated content is longer than the cap it
    was truncated to, by the note; and under a negative limit, which makes
    the slice count from the end, it is longer than the limit and the
    note together. *)
Lemma C5_truncated_longer_than_cap :
  ~ len (truncate_file (lit "a.txt") (repeat "a"%char (Z.to_nat 7000)) MAX_FILE_CHARS) <= MAX_FILE_CHARS
  /\ ~ len (truncate_file (lit "a.txt") (lit "abc") (-1)) <= -1 + len (truncation_note 1 1).
Proof.
  split.
  - assert (E : len (truncate_file (lit "a.txt") (repeat "a"%char (Z.to_nat 7000)) MAX_FILE_CHARS) = 6036)
      by (vm_compute; reflexivity).
    rewrite E. unfold MAX_FILE_CHARS. lia.
  - assert (E : len (truncate_file (lit "a.txt") (lit "abc") (-1)) = 38) by (vm_compute; reflexivity).
    assert (N : len (truncation_note 1 1) = 36) by (vm_compute; reflexivity).
    rewrite E, N. lia.
Qed.

(** C5, amended.  For a limit that is not negative: a content no longer
    than the limit is returned unchanged; a longer one is returned as a
    prefix of it of at most [limit] characters followed by the note, so
    that the result is at most [limit] plus the length of the note
    long, and holds nothing but that prefix and the note. *)
Theorem C5_prefix_and_note (p content : str) (limit : Z) :
  0 <= limit ->
  (len content <= limit -> truncate_file p content limit = content)
  /\ (limit < len content ->
      exists kept rest note,
        content = kept ++ rest
        /\ note = truncation_note (S (count NL kept)) (S (count NL content))
        /\ truncate_file p content limit = kept ++ note
        /\ len kept <= limit
        /\ len (truncate_file p content limit) <= limit + len note).
Proof.
  intros Hl. split; [apply truncate_file_short|].
  intros Hlong.
  destruct (kept_prefix_prefix content limit) as [rest E].
  exists (kept_prefix content limit), rest,
    (truncation_note (S (count NL (kept_prefix content limit))) (S (count NL content))).
  pose proof (kept_prefix_len_le content limit Hl) as K.
  rewrite (truncate_file_long p content limit Hlong), len_app.
  repeat split; try assumption; lia.
Qed.

Lemma C5_witness :
  0 <= 5
  /\ truncate_file (lit "a.txt") (lit "abc") 5 = lit "abc"
  /\ len (truncate_file (lit "a.txt") (lit "abcdefghij") 5) = 5 + len (truncation_note 1 1).
Proof.
  destruct (C5_prefix_and_note (lit "a.txt") (lit "abc") 5 ltac:(lia)) as [S _].
  split; [lia|]. split; [apply S; vm_compute; discriminate|].
  vm_compute. reflexivity.
Defined.

(** Under any limit the result is a prefix of the content followed by the
    note. *)
Lemma truncate_file_is_prefix_and_note p content limit :
  limit < len content ->
  exists kept rest,
    content = kept ++ rest
    /\ truncate_file p content limit
       = kept ++ truncation_note (S (count NL kept)) (S (count NL content)).
Proof.
  intros H. destruct (kept_prefix_prefix content limit) as [rest E].
  exists (kept_prefix content limit), rest. split; [exact E|].
  apply truncate_file_long, H.
Qed.

(** C6, as stated, fails at the bound: under the limit 5 the newline at
    index 4 is at four fifths of the limit exactly; the code keeps the
    five characters, newline included, and does not cut back to it. *)
Lemma C6_newline_at_80_percent_kept :
  ~ cuts_back_from_80_percent (lit "abcd" ++ [NL] ++ lit "fghij") 5.
Proof.
  intros [H _]. vm_compute in H.
  specialize (H ltac:(discriminate)). discriminate.
Qed.

(** C6, amended.  For a content longer than the limit, [truncate_file]
    cuts back to the last newline of the first [limit] characters when
    the index of that newline is more than four fifths of [limit]; when
    it is four fifths or less, or there is no newline, it keeps the first
    [limit] characters, exactly [limit] of them for a limit that is not
    negative.  The note follows what is kept. *)
Theorem C6_cut_back_after_80_percent (p content : str) (limit : Z) :
  limit < len content ->
  let prefix := slice_to content limit in
  let n := rfind NL prefix in
  (4 * limit < 5 * n -> kept_prefix content limit = slice_to prefix n)
  /\ (5 * n <= 4 * limit -> kept_prefix content limit = prefix)
  /\ (0 <= limit -> len prefix = limit)
  /\ truncate_file p content limit
     = kept_prefix content limit
       ++ truncation_note (S (count NL (kept_prefix content limit))) (S (count NL content)).
Proof.
  intros Hlong prefix n. subst prefix n. repeat split.
  - intros H. unfold kept_prefix. apply Z.ltb_lt in H. rewrite H. reflexivity.
  - intros H. unfold kept_prefix. apply Z.ltb_ge in H. rewrite H. reflexivity.
  - intros H. apply slice_to_len_exact. lia.
  - apply truncate_file_long, Hlong.
Qed.

Lemma C6_witness :
  let content := lit "abcde" ++ [NL] ++ lit "fghij" in
  6 < len content
  /\ rfind NL (slice_to content 6) = 5
  /\ kept_prefix content 6 = lit "abcde"
  /\ truncate_file (lit "a.txt") content 6 = lit "abcde" ++ truncation_note 1 2.
Proof.
  intros content.
  assert (L : 6 < len content) by (vm_compute; reflexivity).
  destruct (C6_cut_back_after_80_percent (lit "a.txt") content 6 L) as [H1 [_ [_ H4]]].
  split; [exact L|]. split; [vm_compute; reflexivity|].
  split; [rewrite H1; vm_compute; reflexivity|].
  rewrite H4. vm_compute. reflexivity.
Defined.

(* ===================================================================== *)
(** ** The skip classifier: claim C7 *)
(* ===================================================================== *)

Section SkipDirs.

Lemma SKIP_DIRS_lowercase : Forall (fun d => lower d = d) SKIP_DIRS.
Proof. repeat constructor. Qed.

Lemma skip_dir_part_denylisted part : denylisted part -> skip_dir_part part = true.
Proof.
  unfold denylisted, skip_dir_part, same_up_to_case.
  intros [[d [Hd E]]|H]; apply orb_true_iff; [left | right; exact H].
  apply mem_In. rewrite E.
  pose proof SKIP_DIRS_lowercase as L. rewrite Forall_forall in L.
  rewrite (L d Hd). exact Hd.
Qed.

Lemma skip_of_denylisted_part p part :
  In part (removelast (PurePosixPath.parts p)) -> denylisted part -> _should_skip p = true.
Proof.
  intros Hin Hd. unfold _should_skip.
  replace (existsb skip_dir_part (removelast (PurePosixPath.parts p))) with true; [reflexivity|].
  symmetry. apply existsb_exists. exists part. split; [exact Hin|].
  apply skip_dir_part_denylisted, Hd.
Qed.

(** Splitting what was joined gives the components back. *)
Lemma split_on_component c x rest :
  count c x = O -> split_on c (x ++ c :: rest) = x :: split_on c rest.
Proof.
  induction x as [|y x IH]; simpl.
  - intros _. replace (chr_eqb c c) with true; [reflexivity|].
    symmetry. apply chr_eqb_eq. reflexivity.
  - destruct (chr_eqb y c); [discriminate|]. intros H. rewrite (IH H). reflexivity.
Qed.

Lemma split_on_last c x : count c x = O -> split_on c x = [x].
Proof.
  induction x as [|y x IH]; simpl; [reflexivity|].
  destruct (chr_eqb y c); [discriminate|]. intros H. rewrite (IH H). reflexivity.
Qed.

Lemma split_on_join comps :
  comps <> [] -> Forall (fun x => count SLASH x = O) comps ->
  split_on SLASH (join [SLASH] comps) = comps.
Proof.
  induction comps as [|x comps IH]; [congruence|]. intros _ H.
  inversion H as [|? ? Hx Hrest]; subst.
  destruct comps as [|y comps].
  - simpl. apply split_on_last, Hx.
  - change (join [SLASH] (x :: y :: comps)) with (x ++ SLASH :: join [SLASH] (y :: comps)).
    rewrite split_on_component by exact Hx. rewrite IH by (discriminate || assumption).
    reflexivity.
Qed.

(** The components of a path listed by a tree are what the slashes
    separate. *)
Lemma parts_of_join comps :
  comps <> [] -> Forall proper_component comps ->
  PurePosixPath.parts (join [SLASH] comps) = comps.
Proof.
  intros Hne H.
  assert (Hc : Forall (fun x => count SLASH x = O) comps).
  { eapply Forall_impl; [|exact H]. intros x [_ Hx]. exact Hx. }
  assert (Hk : Forall (fun x => PurePosixPath.is_component x = true) comps).
  { eapply Forall_impl; [|exact H]. intros x [Hx _]. exact Hx. }
  unfold PurePosixPath.parts, PurePosixPath.tail, PurePosixPath.root.
  rewrite split_on_join by assumption.
  assert (R : PurePosixPath.leading_slashes (join [SLASH] comps) = O).
  { destruct comps as [|x comps]; [congruence|].
    inversion H as [|? ? [Hx Hs] _]; subst.
    destruct x as [|y x]; [discriminate|].
    assert (Ey : chr_eqb y SLASH = false).
    { simpl in Hs. destruct (chr_eqb y SLASH); [discriminate | reflexivity]. }
    destruct comps; simpl; rewrite Ey; reflexivity. }
  rewrite R.
  clear Hne R H Hc. induction Hk as [|x l Hx _ IH]; simpl; [reflexivity|].
  rewrite Hx, IH. reflexivity.
Qed.

Lemma removelast_middle {A : Type} (pre : list A) x rest :
  rest <> [] -> In x (removelast (pre ++ x :: rest)).
Proof.
  intros Hne. rewrite removelast_app by discriminate.
  apply in_or_app. right.
  destruct rest as [|y rest]; [congruence|]. left. reflexivity.
Qed.

(** A path with a denylisted directory above its last component is
    skipped. *)
Lemma skip_under_denylisted_directory pre dir rest :
  Forall proper_component (pre ++ dir :: rest) -> rest <> [] -> denylisted dir ->
  _should_skip (join [SLASH] (pre ++ dir :: rest)) = true.
Proof.
  intros Hp Hne Hd. apply (skip_of_denylisted_part _ dir); [|exact Hd].
  rewrite parts_of_join; [|destruct pre; discriminate | exact Hp].
  apply removelast_middle, Hne.
Qed.

End SkipDirs.

(** C7, as stated, fails: the ending [.egg-info] is compared as it is
    written, so a directory whose name ends in [.EGG-INFO] does not make
    its files skipped. *)
Lemma C7_uppercase_egg_info_not_skipped : ~ skips_denylisted_in_any_case.
Proof.
  intros H.
  specialize (H (lit "Pkg.EGG-INFO/top_level.txt") (lit "Pkg.EGG-INFO")).
  assert (F : _should_skip (lit "Pkg.EGG-INFO/top_level.txt") = false) by (vm_compute; reflexivity).
  rewrite F in H. enough (false = true) by discriminate. apply H.
  - vm_compute. left. reflexivity.
  - right. vm_compute. reflexivity.
Qed.

(** C7, amended.  A path is skipped when one of its components other than
    the last is a member of the directory denylist, whatever the case of
    that component, or ends in [.egg-info] as written in lower case. *)
Theorem C7_denylisted_directory_skipped (p part : str) :
  In part (removelast (PurePosixPath.parts p)) ->
  denylisted part ->
  _should_skip p = true.
Proof. apply skip_of_denylisted_part. Qed.

Lemma C7_witness :
  In (lit "Node_Modules") (removelast (PurePosixPath.parts (lit "web/Node_Modules/left-pad/index.js")))
  /\ denylisted (lit "Node_Modules")
  /\ _should_skip (lit "web/Node_Modules/left-pad/index.js") = true.
Proof.
  assert (I : In (lit "Node_Modules")
                 (removelast (PurePosixPath.parts (lit "web/Node_Modules/left-pad/index.js")))).
  { vm_compute. right. left. reflexivity. }
  assert (D : denylisted (lit "Node_Modules")).
  { left. exists (lit "node_modules"). split; [left; reflexivity | reflexivity]. }
  split; [exact I|]. split; [exact D|].
  exact (C7_denylisted_directory_skipped _ _ I D).
Defined.

(** The same for a directory of a Python distribution. *)
Example egg_info_directory_skipped :
  _should_skip (lit "src/MyPkg.egg-info/top_level.txt") = true
  /\ _should_skip (lit "src/MyPkg.egg-info") = false.
Proof. split; vm_compute; reflexivity. Qed.

(* ===================================================================== *)
(** ** The classifiers on the paths the specification names *)
(* ===================================================================== *)

Lemma _tier_range p : 1 <= _tier p <= 5.
Proof.
  unfold _tier.
  destruct (match_whole TIER1_NAMES (PurePosixPath.name p)); [lia|].
  destruct (mem (PurePosixPath.name p) TIER2_NAMES); [lia|].
  destruct (pattern_search TIER3_ENTRY_PATTERNS p); [lia|].
  destruct (pattern_search TIER4_INFRA_PATTERNS p); lia.
Qed.

Example tiers_of_the_specification :
  _tier (lit "README.md") = 1
  /\ _tier (lit "package.json") = 2
  /\ _tier (lit "src/main.go") = 3
  /\ _tier (lit ".github/workflows/ci.yml") = 4
  /\ _tier (lit "src/utils/helpers.py") = 5.
Proof. repeat split; vm_compute; reflexivity. Qed.

Example skipped_paths :
  map _should_skip
      (map lit [ "assets/logo.png"; "yarn.lock"; "static/app.min.js";
                 "api/migrations/0001_initial.py"; "web/client.generated.ts";
                 "tests/fixtures/users.json"; "build/out.txt";
                 "src/main.py"; "build" ]%string)
  = [true; true; true; true; true; true; true; false; false].
Proof. vm_compute. reflexivity. Qed.

(** A tree without a blob that is not skipped renders as the sentinel. *)
Example empty_directory_tree :
  build_directory_tree [mkEntry (lit "logo.png") (Some 2048) Blob;
                        mkEntry (lit "src") None Tree] = lit "(empty)".
Proof. vm_compute. reflexivity. Qed.

(** No file, no context. *)
Example empty_file_context : build_file_context [] = [].
Proof. reflexivity. Qed.

(* ===================================================================== *)
(** ** Further properties of the selector *)
(* ===================================================================== *)

Section SelectorInvariants.

Lemma selected_candidates_paths l : forall b,
  map cpath (selected_candidates b l) = select_loop b l.
Proof.
  induction l as [|[[p sz] tier] l IH]; intros b; [reflexivity|].
  simpl. unfold allotment, ctier, csize. simpl.
  destruct (b <=? 0); [reflexivity|].
  destruct ((Z.min sz MAX_FILE_CHARS <=? b) || (tier <=? 2)); simpl; rewrite IH; reflexivity.
Qed.

Lemma allotment_le_cap c : allotment c <= MAX_FILE_CHARS.
Proof. unfold allotment. apply Z.le_min_r. Qed.

(** The loop never charges a whole cap beyond its budget. *)
Lemma charged_below l : forall b,
  - MAX_FILE_CHARS < b -> charged (selected_candidates b l) < b + MAX_FILE_CHARS.
Proof.
  induction l as [|c l IH]; intros b Hb; simpl; [lia|].
  destruct (b <=? 0) eqn:E0; [simpl; lia|]. apply Z.leb_gt in E0.
  pose proof (allotment_le_cap c) as Ha.
  destruct ((allotment c <=? b) || (ctier c <=? 2)).
  - simpl. specialize (IH (b - allotment c) ltac:(lia)). lia.
  - apply IH, Hb.
Qed.

(** Without a candidate of tier 1 or 2 among the selected, the budget
    holds. *)
Lemma charged_within l : forall b,
  0 <= b -> Forall (fun c => 3 <= ctier c) (selected_candidates b l) ->
  charged (selected_candidates b l) <= b.
Proof.
  induction l as [|c l IH]; intros b Hb; simpl; [intros _; lia|].
  destruct (b <=? 0) eqn:E0; [intros _; simpl; lia|].
  destruct (allotment c <=? b) eqn:Ea; simpl.
  - apply Z.leb_le in Ea. intros F. inversion F as [|? ? _ F']; subst.
    simpl. specialize (IH (b - allotment c) ltac:(lia) F'). lia.
  - destruct (ctier c <=? 2) eqn:Et.
    + intros F. inversion F as [|? ? Hc _]; subst. apply Z.leb_le in Et. lia.
    + apply IH, Hb.
Qed.

Lemma candidates_of_tier c tree :
  In c (candidates_of tree) -> ctier c = _tier (cpath c) /\ _should_skip (cpath c) = false.
Proof.
  intros H. apply candidates_of_In in H. destruct H as [i [_ [S ->]]].
  split; [reflexivity | exact S].
Qed.

(** On a sorted list: once a path of tier 3 or more is selected, every
    candidate of tier 1 or 2 has been. *)
Lemma essentials_first l :
  StronglySorted key_le l ->
  (forall c, In c l -> ctier c = _tier (cpath c)) ->
  forall b p,
    In p (select_loop b l) -> 3 <= _tier p ->
    forall c, In c l -> ctier c <= 2 -> In (cpath c) (select_loop b l).
Proof.
  induction 1 as [|x l Hs IH Hall]; intros Ht b p Hp Hp3 c Hc Hc2; [contradiction|].
  destruct x as [[xp xsz] xt]. simpl in Hp |- *.
  destruct (b <=? 0); [contradiction|].
  assert (Hx : xt = _tier xp) by (apply (Ht (xp, xsz, xt)); left; reflexivity).
  assert (Ht' : forall c, In c l -> ctier c = _tier (cpath c)).
  { intros c' Hc'. apply Ht. right. exact Hc'. }
  destruct (xt <=? 2) eqn:Ex.
  - rewrite orb_true_r in *. apply Z.leb_le in Ex.
    destruct Hp as [->|Hp]; [lia|].
    destruct Hc as [<-|Hc]; [left; reflexivity|].
    right. eapply IH; eassumption.
  - exfalso. apply Z.leb_gt in Ex.
    destruct Hc as [<-|Hc]; [unfold ctier in Hc2; simpl in Hc2; lia|].
    rewrite Forall_forall in Hall. specialize (Hall c Hc).
    apply key_le_spec in Hall. unfold ctier in *. simpl in Hall. lia.
Qed.

Lemma Subseq_NoDup {A : Type} (s l : list A) : Subseq s l -> NoDup l -> NoDup s.
Proof.
  induction 1 as [|x s l H IH|x s l H IH]; intros N.
  - constructor.
  - inversion N as [|? ? Hx N']; subst. constructor; [|apply IH, N'].
    intros I. apply Hx. eapply Subseq_In; eassumption.
  - inversion N; subst. apply IH. assumption.
Qed.

Lemma candidates_of_subseq tree :
  Subseq (map cpath (candidates_of tree)) (map path tree).
Proof.
  induction tree as [|e tree IH]; simpl; [constructor|].
  destruct (_should_skip (path e)); simpl.
  - apply Subseq_drop, IH.
  - apply Subseq_keep, IH.
Qed.

Lemma candidates_of_nil tree :
  candidates_of tree = [] <-> Forall (fun item => _should_skip (path item) = true) tree.
Proof.
  induction tree as [|e tree IH]; simpl.
  - split; [constructor | reflexivity].
  - destruct (_should_skip (path e)) eqn:E; simpl.
    + rewrite IH. split.
      * intros H. constructor; assumption.
      * intros H. inversion H; assumption.
    + split; [discriminate|]. intros H. inversion H. congruence.
Qed.

Lemma selection_nodup tree :
  NoDup (map path tree) -> NoDup (filter_and_prioritize tree).
Proof.
  intros N. unfold filter_and_prioritize.
  apply (Subseq_NoDup _ _ (select_loop_subseq _ _)).
  apply (Permutation_NoDup (Permutation_map cpath (sort_candidates_perm _))).
  apply (Subseq_NoDup _ _ (candidates_of_subseq tree) N).
Qed.

End SelectorInvariants.

(** X1.  No skipped path is selected or rendered: every path that
    [filter_and_prioritize] returns, and every path of the directory tree,
    is the path of an entry of the tree that [_should_skip] lets through. *)
Theorem X1_skipped_paths_never_shown tree p :
  In p (filter_and_prioritize tree) \/ In p (shown_paths tree) ->
  _should_skip p = false /\ exists item, In item tree /\ path item = p.
Proof.
  intros [H|H].
  - apply filter_and_prioritize_In in H. destruct H as [i [Hi [E S]]]. eauto.
  - apply shown_paths_In in H. destruct H as [i [Hi [E [_ S]]]]. eauto.
Qed.

Lemma X1_witness :
  let tree := [mkEntry (lit "dist/app.js") (Some 10) Blob;
               mkEntry (lit "src/app.js") (Some 10) Blob] in
  In (lit "src/app.js") (filter_and_prioritize tree)
  /\ _should_skip (lit "src/app.js") = false.
Proof.
  intros tree.
  assert (H : In (lit "src/app.js") (filter_and_prioritize tree)).
  { apply mem_In. vm_compute. reflexivity. }
  split; [exact H|].
  exact (proj1 (X1_skipped_paths_never_shown tree (lit "src/app.js") (or_introl H))).
Defined.

(** X2.  The selection is empty exactly when every entry of the tree is
    skipped: the first candidate in the order of the sort always fits the
    fresh budget. *)
Theorem X2_selection_empty_iff_all_skipped tree :
  filter_and_prioritize tree = []
  <-> Forall (fun item => _should_skip (path item) = true) tree.
Proof.
  rewrite selection_empty_iff. apply candidates_of_nil.
Qed.

(** X3.  The selection overshoots the budget by less than one file cap:
    the allotments of the selected candidates total less than
    [CHAR_BUDGET + MAX_FILE_CHARS], whatever the sizes; and when no
    selected candidate is of tier 1 or 2 they total at most
    [CHAR_BUDGET]. *)
Theorem X3_budget_overshoot_below_one_cap tree :
  let chosen := selected_candidates CHAR_BUDGET (sort_candidates (candidates_of tree)) in
  map cpath chosen = filter_and_prioritize tree
  /\ charged chosen < CHAR_BUDGET + MAX_FILE_CHARS
  /\ (Forall (fun c => 3 <= ctier c) chosen -> charged chosen <= CHAR_BUDGET).
Proof.
  intros chosen. subst chosen. split; [apply selected_candidates_paths|]. split.
  - apply charged_below. unfold MAX_FILE_CHARS, CHAR_BUDGET. lia.
  - apply charged_within. unfold CHAR_BUDGET. lia.
Qed.

(** X4.  Essential files go first: when a path of tier 3 or more is
    selected, the path of every entry of tier 1 or 2 that is not skipped
    is selected too. *)
Theorem X4_essentials_selected_before_others tree p item :
  In p (filter_and_prioritize tree) -> 3 <= _tier p ->
  In item tree -> _should_skip (path item) = false -> _tier (path item) <= 2 ->
  In (path item) (filter_and_prioritize tree).
Proof.
  intros Hp Hp3 Hi Hs Ht.
  assert (Hc : In (candidate_of item) (sort_candidates (candidates_of tree))).
  { apply (Permutation_in _ (sort_candidates_perm _)).
    apply candidates_of_In. exists item. auto. }
  apply (essentials_first _ (sort_candidates_sorted _)) with (p := p) (c := candidate_of item);
    try assumption.
  intros c Hin. apply (Permutation_in _ (Permutation_sym (sort_candidates_perm _))) in Hin.
  apply (candidates_of_tier c tree Hin).
Qed.

Lemma X4_witness :
  let tree := [mkEntry (lit "src/util.py") (Some 500) Blob;
               mkEntry (lit "docs/README.md") (Some 90000) Blob] in
  In (lit "src/util.py") (filter_and_prioritize tree)
  /\ 3 <= _tier (lit "src/util.py")
  /\ _tier (lit "docs/README.md") <= 2
  /\ In (lit "docs/README.md") (filter_and_prioritize tree).
Proof.
  intros tree.
  assert (H : In (lit "src/util.py") (filter_and_prioritize tree)).
  { apply mem_In. vm_compute. reflexivity. }
  assert (T3 : 3 <= _tier (lit "src/util.py")) by (vm_compute; discriminate).
  assert (T2 : _tier (lit "docs/README.md") <= 2) by (vm_compute; discriminate).
  split; [exact H|]. split; [exact T3|]. split; [exact T2|].
  apply (X4_essentials_selected_before_others tree (lit "src/util.py")
           (mkEntry (lit "docs/README.md") (Some 90000) Blob) H T3).
  - right. left. reflexivity.
  - vm_compute. reflexivity.
  - exact T2.
Defined.

(** X5.  A tree without two entries of the same path gives a selection
    without a repeated path. *)
Theorem X5_selection_without_duplicates tree :
  NoDup (map path tree) -> NoDup (filter_and_prioritize tree).
Proof. apply selection_nodup. Qed.

Lemma X5_witness :
  let tree := [mkEntry (lit "a.py") (Some 1) Blob; mkEntry (lit "b.py") (Some 1) Blob] in
  NoDup (map path tree) /\ NoDup (filter_and_prioritize tree).
Proof.
  intros tree.
  assert (N : NoDup (map path tree)).
  { constructor; [|constructor; [|constructor]]; simpl.
    - intros [H|[]]. vm_compute in H. discriminate.
    - intros []. }
  split; [exact N|]. exact (X5_selection_without_duplicates tree N).
Defined.

(* ===================================================================== *)
(** ** Further properties of the classifiers *)
(* ===================================================================== *)

Section Classifiers.

Lemma lower_char_idem c : lower_char (lower_char c) = lower_char c.
Proof. destruct c as [[] [] [] [] [] [] [] []]; vm_compute; reflexivity. Qed.

Lemma lower_char_dot c : chr_eqb (lower_char c) DOT = chr_eqb c DOT.
Proof. destruct c as [[] [] [] [] [] [] [] []]; vm_compute; reflexivity. Qed.

Lemma lower_char_slash c : chr_eqb (lower_char c) SLASH = chr_eqb c SLASH.
Proof. destruct c as [[] [] [] [] [] [] [] []]; vm_compute; reflexivity. Qed.

Lemma lower_char_newline c : chr_eqb NL (lower_char c) = chr_eqb NL c.
Proof. destruct c as [[] [] [] [] [] [] [] []]; vm_compute; reflexivity. Qed.

Lemma count_lower c0 s :
  (forall x, chr_eqb (lower_char x) c0 = chr_eqb x c0) ->
  count c0 (lower s) = count c0 s.
Proof.
  intros H. induction s as [|x s IH]; simpl; [reflexivity|].
  rewrite H, IH. reflexivity.
Qed.

Lemma length_lower s : length (lower s) = length s.
Proof. apply length_map. Qed.

(** [_should_skip] as the disjunction of its four rules. *)
Lemma _should_skip_rules p :
  _should_skip p =
  existsb skip_dir_part (removelast (PurePosixPath.parts p))
  || mem (PurePosixPath.name p) SKIP_FILENAMES
  || mem (lower (PurePosixPath.suffix p)) SKIP_EXTENSIONS
  || existsb (fun pat => pattern_search pat p) SKIP_PATTERNS.
Proof.
  unfold _should_skip.
  destruct (existsb skip_dir_part _); [reflexivity|].
  destruct (mem (PurePosixPath.name p) SKIP_FILENAMES); [reflexivity|].
  destruct (mem (lower (PurePosixPath.suffix p)) SKIP_EXTENSIONS); [reflexivity|].
  destruct (existsb _ SKIP_PATTERNS); reflexivity.
Qed.

Lemma leading_slashes_of_join comps :
  comps <> [] -> Forall proper_component comps ->
  PurePosixPath.leading_slashes (join [SLASH] comps) = O.
Proof.
  intros Hne H. destruct comps as [|x comps]; [congruence|].
  inversion H as [|? ? [Hx Hs] _]; subst.
  destruct x as [|y x]; [discriminate|].
  assert (Ey : chr_eqb y SLASH = false).
  { simpl in Hs. destruct (chr_eqb y SLASH); [discriminate | reflexivity]. }
  destruct comps; simpl; rewrite Ey; reflexivity.
Qed.

Lemma tail_of_join comps :
  comps <> [] -> Forall proper_component comps ->
  PurePosixPath.tail (join [SLASH] comps) = comps.
Proof.
  intros Hne H. unfold PurePosixPath.tail.
  rewrite split_on_join.
  - clear Hne. induction H as [|x l [Hx _] _ IH]; simpl; [reflexivity|].
    rewrite Hx, IH. reflexivity.
  - exact Hne.
  - eapply Forall_impl; [|exact H]. intros x [_ Hx]. exact Hx.
Qed.

(** The name of a file under a chain of directories. *)
Lemma name_of_join dirs file :
  Forall proper_component dirs -> proper_component file ->
  PurePosixPath.name (join [SLASH] (dirs ++ [file])) = file.
Proof.
  intros Hd Hf. unfold PurePosixPath.name.
  rewrite tail_of_join.
  - apply last_last.
  - destruct dirs; discriminate.
  - apply Forall_app. split; [exact Hd | constructor; [exact Hf | constructor]].
Qed.

Lemma rfind_absent c s : count c s = O -> rfind c s = -1.
Proof.
  induction s as [|x s IH]; simpl; [reflexivity|].
  destruct (chr_eqb x c); [discriminate|]. intros H. rewrite (IH H). reflexivity.
Qed.

Lemma rfind_last c a e :
  count c e = O -> rfind c (a ++ c :: e) = len a.
Proof.
  intros He. induction a as [|x a IH].
  - simpl. rewrite (rfind_absent c e He). simpl.
    replace (chr_eqb c c) with true; [reflexivity|].
    symmetry. apply chr_eqb_eq. reflexivity.
  - simpl app. simpl rfind. rewrite IH.
    replace (0 <=? len a) with true by (symmetry; apply Z.leb_le, len_nonneg).
    unfold len. simpl length. lia.
Qed.

(** The suffix of [stem.ext]. *)
Lemma suffix_of_name dirs stem e :
  Forall proper_component dirs -> proper_component (stem ++ DOT :: e) ->
  stem <> [] -> e <> [] -> count DOT e = O ->
  PurePosixPath.suffix (join [SLASH] (dirs ++ [stem ++ DOT :: e])) = DOT :: e.
Proof.
  intros Hd Hf Hs He Hc. unfold PurePosixPath.suffix. cbv zeta.
  pose proof (name_of_join dirs _ Hd Hf) as N. unfold str in *. rewrite N. clear N.
  rewrite (rfind_last DOT stem e Hc).
  assert (L1 : 0 < len stem) by (destruct stem; [congruence | unfold len; simpl; lia]).
  assert (L2 : 0 < len e) by (destruct e; [congruence | unfold len; simpl; lia]).
  replace (0 <? len stem) with true by (symmetry; apply Z.ltb_lt; exact L1).
  replace (len stem <? len (stem ++ DOT :: e) - 1) with true.
  - simpl. unfold len. rewrite Nat2Z.id.
    rewrite skipn_app, skipn_all, Nat.sub_diag. reflexivity.
  - symmetry. apply Z.ltb_lt. rewrite len_app. unfold len in *. simpl length. lia.
Qed.

Lemma SKIP_EXTENSIONS_shape :
  Forall (fun m => exists e, m = DOT :: e /\ e <> [] /\ count DOT e = O) SKIP_EXTENSIONS.
Proof.
  unfold SKIP_EXTENSIONS.
  repeat (constructor; [eexists; split; [reflexivity | split; [discriminate | reflexivity]]|]).
  constructor.
Qed.

(** An extension that is denylisted up to case is a dot followed by
    characters other than dots. *)
Lemma denylisted_extension_shape ext :
  In (lower ext) SKIP_EXTENSIONS ->
  exists e, ext = DOT :: e /\ e <> [] /\ count DOT e = O.
Proof.
  intros H. pose proof SKIP_EXTENSIONS_shape as F. rewrite Forall_forall in F.
  destruct (F _ H) as [m [E [Hm Hc]]].
  destruct ext as [|x e]; [discriminate|]. simpl in E. injection E as Ex Ee.
  exists e. repeat split.
  - f_equal. apply chr_eqb_eq. rewrite <- lower_char_dot. apply chr_eqb_eq. exact Ex.
  - intros ->. simpl in Ee. congruence.
  - rewrite <- (count_lower DOT e lower_char_dot). unfold lower in *. rewrite Ee. exact Hc.
Qed.

Lemma SKIP_FILENAMES_proper : Forall proper_component SKIP_FILENAMES.
Proof. unfold SKIP_FILENAMES. repeat (constructor; [split; reflexivity|]). constructor. Qed.

Lemma TIER2_NAMES_proper :
  Forall (fun n => proper_component n /\ match_whole TIER1_NAMES n = false) TIER2_NAMES.
Proof.
  unfold TIER2_NAMES.
  repeat (constructor; [split; [split; reflexivity | vm_compute; reflexivity]|]).
  constructor.
Qed.

(** Patterns that ignore case. *)
Lemma case_blind_cat a b : case_blind a -> case_blind b -> case_blind (cat a b).
Proof. destruct a, b; simpl; tauto. Qed.

Lemma case_blind_alt a b : case_blind a -> case_blind b -> case_blind (alt a b).
Proof. destruct a, b; simpl; tauto. Qed.

Lemma deriv_lower r c : case_blind r -> deriv (lower_char c) r = deriv c r.
Proof.
  induction r as [| |f|a IHa b IHb|a IHa b IHb|a IHa]; simpl; intros H; try reflexivity.
  - rewrite H. reflexivity.
  - destruct H as [Ha Hb]. rewrite (IHa Ha), (IHb Hb). reflexivity.
  - destruct H as [Ha Hb]. rewrite (IHa Ha), (IHb Hb). reflexivity.
  - rewrite (IHa H). reflexivity.
Qed.

Lemma case_blind_deriv r c : case_blind r -> case_blind (deriv c r).
Proof.
  induction r as [| |f|a IHa b IHb|a IHa b IHb|a IHa]; simpl; intros H; try exact I.
  - destruct (f c); exact I.
  - destruct H as [Ha Hb]. apply case_blind_alt.
    + apply case_blind_cat; [apply IHa, Ha | exact Hb].
    + destruct (nullable a); [apply IHb, Hb | exact I].
  - destruct H as [Ha Hb]. apply case_blind_alt; [apply IHa, Ha | apply IHb, Hb].
  - apply case_blind_cat; [apply IHa, H | exact H].
Qed.

Lemma fullmatch_lower s : forall r, case_blind r -> fullmatch r (lower s) = fullmatch r s.
Proof.
  induction s as [|c s IH]; intros r H; simpl; [reflexivity|].
  rewrite (deriv_lower r c H). apply IH, case_blind_deriv, H.
Qed.

Lemma case_blind_chr_i c : case_blind (chr_i c).
Proof. intros x. rewrite lower_char_idem. reflexivity. Qed.

Lemma case_blind_word_i s : case_blind (word_i s).
Proof.
  induction s as [|c s IH]; simpl; [exact I|].
  split; [apply case_blind_chr_i | exact IH].
Qed.

Lemma case_blind_TIER1 : case_blind (Cat TIER1_NAMES dollar).
Proof.
  unfold TIER1_NAMES, dollar, opt, wi. simpl cats. simpl alts.
  repeat match goal with
         | |- case_blind (word_i _) => apply case_blind_word_i
         | |- case_blind (chr_i _) => apply case_blind_chr_i
         | |- case_blind (Cat _ _) => split
         | |- case_blind (Alt _ _) => split
         | |- case_blind Eps => exact I
         | |- case_blind (chr NL) => intros x; apply lower_char_newline
         end.
Qed.

Lemma TIER1_LOWER_match :
  Forall (fun n => match_whole TIER1_NAMES n = true /\ PurePosixPath.is_component n = true
                   /\ count SLASH n = O) TIER1_LOWER.
Proof.
  unfold TIER1_LOWER.
  repeat (constructor; [split; [vm_compute; reflexivity | split; reflexivity]|]).
  constructor.
Qed.

Lemma is_component_lower n :
  PurePosixPath.is_component (lower n) = PurePosixPath.is_component n.
Proof.
  unfold PurePosixPath.is_component.
  destruct n as [|x [|y n]]; try reflexivity;
    simpl; rewrite lower_char_dot; reflexivity.
Qed.

Lemma is_component_long n : (2 <= length n)%nat -> PurePosixPath.is_component n = true.
Proof.
  destruct n as [|x [|y n]]; simpl; try lia. intros _.
  unfold PurePosixPath.is_component. simpl.
  destruct (chr_eqb x DOT); reflexivity.
Qed.

End Classifiers.

(** X6.  A file whose extension is on the extension denylist is skipped
    in any directory and whatever the case of the extension: for
    directories [dirs] and a file name [stem ++ ext] with a stem that is
    not empty and an [ext] whose lower case is in [SKIP_EXTENSIONS]. *)
Theorem X6_denylisted_extension_skipped dirs stem ext :
  Forall proper_component dirs ->
  stem <> [] -> count SLASH (stem ++ ext) = O ->
  In (lower ext) SKIP_EXTENSIONS ->
  _should_skip (join [SLASH] (dirs ++ [stem ++ ext])) = true.
Proof.
  intros Hd Hs Hc He.
  destruct (denylisted_extension_shape ext He) as [e [-> [Hne Hdot]]].
  assert (Hf : proper_component (stem ++ DOT :: e)).
  { split; [|exact Hc]. apply is_component_long. rewrite length_app.
    destruct stem; [congruence|]. simpl. lia. }
  rewrite _should_skip_rules, (suffix_of_name dirs stem e Hd Hf Hs Hne Hdot).
  replace (mem (lower (DOT :: e)) SKIP_EXTENSIONS) with true by (symmetry; apply mem_In, He).
  rewrite orb_true_r. reflexivity.
Qed.

Lemma X6_witness :
  Forall proper_component [lit "assets"; lit "img"]
  /\ In (lower (lit ".PNG")) SKIP_EXTENSIONS
  /\ _should_skip (lit "assets/img/Logo.PNG") = true.
Proof.
  assert (D : Forall proper_component [lit "assets"; lit "img"]).
  { repeat (constructor; [split; reflexivity|]). constructor. }
  assert (E : In (lower (lit ".PNG")) SKIP_EXTENSIONS) by (apply mem_In; vm_compute; reflexivity).
  split; [exact D|]. split; [exact E|].
  exact (X6_denylisted_extension_skipped [lit "assets"; lit "img"] (lit "Logo") (lit ".PNG")
           D ltac:(discriminate) eq_refl E).
Defined.

(** X7.  A file whose name is on the file-name denylist (lock files and
    the artefacts of operating systems) is skipped in any directory. *)
Theorem X7_denylisted_filename_skipped dirs name :
  Forall proper_component dirs ->
  In name SKIP_FILENAMES ->
  _should_skip (join [SLASH] (dirs ++ [name])) = true.
Proof.
  intros Hd Hn.
  pose proof SKIP_FILENAMES_proper as F. rewrite Forall_forall in F.
  rewrite _should_skip_rules, (name_of_join dirs name Hd (F _ Hn)).
  replace (mem name SKIP_FILENAMES) with true by (symmetry; apply mem_In, Hn).
  rewrite orb_true_r. reflexivity.
Qed.

Lemma X7_witness :
  Forall proper_component [lit "services"; lit "api"]
  /\ In (lit "package-lock.json") SKIP_FILENAMES
  /\ _should_skip (lit "services/api/package-lock.json") = true.
Proof.
  assert (D : Forall proper_component [lit "services"; lit "api"]).
  { repeat (constructor; [split; reflexivity|]). constructor. }
  assert (N : In (lit "package-lock.json") SKIP_FILENAMES) by (left; reflexivity).
  split; [exact D|]. split; [exact N|].
  exact (X7_denylisted_filename_skipped [lit "services"; lit "api"] (lit "package-lock.json") D N).
Defined.

(** X8.  A manifest is of tier 2 in any directory: a path whose last
    component is in [TIER2_NAMES], written as there, has tier 2. *)
Theorem X8_manifest_tier_2_at_any_depth dirs name :
  Forall proper_component dirs ->
  In name TIER2_NAMES ->
  _tier (join [SLASH] (dirs ++ [name])) = 2.
Proof.
  intros Hd Hn.
  pose proof TIER2_NAMES_proper as F. rewrite Forall_forall in F.
  destruct (F _ Hn) as [Hp H1].
  unfold _tier. rewrite (name_of_join dirs name Hd Hp), H1.
  replace (mem name TIER2_NAMES) with true by (symmetry; apply mem_In, Hn).
  reflexivity.
Qed.

Lemma X8_witness :
  Forall proper_component [lit "packages"; lit "core"]
  /\ In (lit "Cargo.toml") TIER2_NAMES
  /\ _tier (lit "packages/core/Cargo.toml") = 2.
Proof.
  assert (D : Forall proper_component [lit "packages"; lit "core"]).
  { repeat (constructor; [split; reflexivity|]). constructor. }
  assert (N : In (lit "Cargo.toml") TIER2_NAMES) by (apply mem_In; vm_compute; reflexivity).
  split; [exact D|]. split; [exact N|].
  exact (X8_manifest_tier_2_at_any_depth [lit "packages"; lit "core"] (lit "Cargo.toml") D N).
Defined.

(** X9.  The documentation names of tier 1 are recognised in any case and
    in any directory: a path whose last component is, in lower case,
    [readme], [architecture], [overview], [contributing], [changelog] or
    [design], alone or followed by [.md], [.rst] or [.txt], has tier 1. *)
Theorem X9_documentation_tier_1_in_any_case dirs name :
  Forall proper_component dirs ->
  In (lower name) TIER1_LOWER ->
  _tier (join [SLASH] (dirs ++ [name])) = 1.
Proof.
  intros Hd Hn.
  pose proof TIER1_LOWER_match as F. rewrite Forall_forall in F.
  destruct (F _ Hn) as [Hm [Hc Hs]].
  assert (Hp : proper_component name).
  { split.
    - rewrite <- is_component_lower. exact Hc.
    - rewrite <- (count_lower SLASH name lower_char_slash). exact Hs. }
  unfold _tier. rewrite (name_of_join dirs name Hd Hp).
  unfold match_whole in *. rewrite <- (fullmatch_lower name _ case_blind_TIER1), Hm.
  reflexivity.
Qed.

Lemma X9_witness :
  Forall proper_component [lit "docs"]
  /\ In (lower (lit "ReadMe.RST")) TIER1_LOWER
  /\ _tier (lit "docs/ReadMe.RST") = 1.
Proof.
  assert (D : Forall proper_component [lit "docs"]).
  { repeat (constructor; [split; reflexivity|]). constructor. }
  assert (N : In (lower (lit "ReadMe.RST")) TIER1_LOWER) by (apply mem_In; vm_compute; reflexivity).
  split; [exact D|]. split; [exact N|].
  exact (X9_documentation_tier_1_in_any_case [lit "docs"] (lit "ReadMe.RST") D N).
Defined.

(* ===================================================================== *)
(** ** Further properties of the truncator and of the renderers *)
(* ===================================================================== *)

Section RenderingInvariants.

Lemma count_app c a b : count c (a ++ b) = (count c a + count c b)%nat.
Proof.
  induction a as [|x a IH]; simpl; [reflexivity|].
  destruct (chr_eqb x c); rewrite IH; reflexivity.
Qed.

Lemma skipn_nth_error {A : Type} (l : list A) : forall n x,
  nth_error l n = Some x -> skipn n l = x :: skipn (S n) l.
Proof.
  induction l as [|y l IH]; intros [|n] x H; simpl in *; try discriminate.
  - injection H as ->. reflexivity.
  - apply IH, H.
Qed.

(** What [truncate_file] keeps, under a limit that is not negative. *)
Lemma kept_prefix_bounds content limit :
  0 <= limit < len content ->
  4 * limit <= 5 * len (kept_prefix content limit)
  /\ len (kept_prefix content limit) <= limit
  /\ (len (kept_prefix content limit) < limit ->
      exists rest, content = kept_prefix content limit ++ NL :: rest).
Proof.
  intros Hl. unfold kept_prefix.
  pose proof (slice_to_len_exact content limit ltac:(lia)) as Lt.
  destruct (slice_to_prefix content limit) as [r1 E1].
  set (t := slice_to content limit) in *.
  destruct (4 * limit <? 5 * rfind NL t) eqn:E.
  - apply Z.ltb_lt in E.
    destruct (rfind_spec NL t) as [[R _]|[R [N _]]]; [lia|].
    assert (K : slice_to t (rfind NL t) = firstn (Z.to_nat (rfind NL t)) t).
    { unfold slice_to. replace (0 <=? rfind NL t) with true; [reflexivity|].
      symmetry. apply Z.leb_le. lia. }
    assert (L : len (slice_to t (rfind NL t)) = rfind NL t).
    { apply slice_to_len_exact. lia. }
    rewrite L. repeat split; try lia.
    intros _. exists (skipn (S (Z.to_nat (rfind NL t))) t ++ r1).
    rewrite K, E1 at 1.
    rewrite <- (firstn_skipn (Z.to_nat (rfind NL t)) t) at 1.
    rewrite (skipn_nth_error _ _ _ N), <- app_assoc. reflexivity.
  - repeat split; lia.
Qed.

Lemma total_len_nonneg l : 0 <= total_len l.
Proof.
  induction l as [|x l IH]; simpl; [lia|]. pose proof (len_nonneg x). lia.
Qed.

Lemma render_parts_all files : forall t,
  t + total_len (map rendered_block files) < CHAR_BUDGET ->
  render_parts t files = map rendered_block files.
Proof.
  induction files as [|f rest IH]; intros t H; [reflexivity|].
  rewrite render_parts_cons. rewrite map_cons, total_len_cons in H.
  pose proof (total_len_nonneg (map rendered_block rest)) as P.
  replace (CHAR_BUDGET <=? t + len (rendered_block f)) with false
    by (symmetry; apply Z.leb_gt; lia).
  rewrite map_cons. f_equal. apply IH. lia.
Qed.

(** The order of strings is total and antisymmetric. *)
Lemma code_inj x y : code x = code y -> x = y.
Proof.
  unfold code. intros H.
  rewrite <- (ascii_nat_embedding x), <- (ascii_nat_embedding y), H. reflexivity.
Qed.

Lemma str_leb_total a : forall b, Str.leb a b = false -> Str.leb b a = true.
Proof.
  induction a as [|x a IH]; intros [|y b]; simpl; try (discriminate || reflexivity).
  destruct (Nat.ltb (code x) (code y)) eqn:E1; [discriminate|].
  destruct (Nat.ltb (code y) (code x)) eqn:E2; [reflexivity|].
  apply IH.
Qed.

Lemma str_leb_trans a : forall b c,
  Str.leb a b = true -> Str.leb b c = true -> Str.leb a c = true.
Proof.
  induction a as [|x a IH]; intros [|y b] [|z c]; simpl; try (discriminate || reflexivity).
  destruct (Nat.ltb (code x) (code y)) eqn:Exy, (Nat.ltb (code y) (code x)) eqn:Eyx,
           (Nat.ltb (code y) (code z)) eqn:Eyz, (Nat.ltb (code z) (code y)) eqn:Ezy,
           (Nat.ltb (code x) (code z)) eqn:Exz, (Nat.ltb (code z) (code x)) eqn:Ezx;
    rewrite ?Nat.ltb_lt, ?Nat.ltb_ge in *; try (discriminate || reflexivity || lia).
  apply IH.
Qed.

Lemma str_leb_antisym a : forall b,
  Str.leb a b = true -> Str.leb b a = true -> a = b.
Proof.
  induction a as [|x a IH]; intros [|y b]; simpl; try (discriminate || reflexivity).
  destruct (Nat.ltb (code x) (code y)) eqn:Exy, (Nat.ltb (code y) (code x)) eqn:Eyx;
    rewrite ?Nat.ltb_lt, ?Nat.ltb_ge in *; try (discriminate || lia).
  intros H1 H2. f_equal; [apply code_inj; lia | apply IH; assumption].
Qed.

Lemma insert_str_sorted x l :
  StronglySorted str_le l -> StronglySorted str_le (insert_str x l).
Proof.
  induction 1 as [|y l Hs IH Hall]; simpl.
  - constructor; constructor.
  - destruct (Str.leb x y) eqn:E.
    + constructor; [constructor; assumption|].
      constructor; [exact E|].
      eapply Forall_impl; [|exact Hall].
      intros z Hz. unfold str_le in *. eapply str_leb_trans; eassumption.
    + constructor; [exact IH|].
      apply (Permutation_Forall (insert_str_perm x l)).
      constructor; [apply str_leb_total, E | exact Hall].
Qed.

Lemma sorted_sorted l : StronglySorted str_le (sorted l).
Proof.
  induction l as [|x l IH]; simpl; [constructor | apply insert_str_sorted, IH].
Qed.

(** Two sorted lists of the same strings are the same list. *)
Lemma sorted_unique l1 : forall l2,
  StronglySorted str_le l1 -> StronglySorted str_le l2 -> Permutation l1 l2 -> l1 = l2.
Proof.
  induction l1 as [|x l1 IH]; intros l2 S1 S2 P.
  - apply Permutation_nil in P. congruence.
  - destruct l2 as [|y l2]; [apply Permutation_sym, Permutation_nil in P; discriminate|].
    inversion S1 as [|? ? S1' A1]; subst. inversion S2 as [|? ? S2' A2]; subst.
    rewrite Forall_forall in A1, A2.
    assert (E : x = y).
    { assert (Ix : In x (y :: l2)) by (apply (Permutation_in _ P); left; reflexivity).
      assert (Iy : In y (x :: l1)) by (apply (Permutation_in _ (Permutation_sym P)); left; reflexivity).
      destruct Ix as [->|Ix]; [reflexivity|].
      destruct Iy as [->|Iy]; [reflexivity|].
      apply str_leb_antisym; [apply A1, Iy | apply A2, Ix]. }
    subst y. f_equal. apply IH; try assumption.
    eapply Permutation_cons_inv. exact P.
Qed.

Lemma filter_perm {A : Type} (f : A -> bool) l l' :
  Permutation l l' -> Permutation (filter f l) (filter f l').
Proof.
  induction 1 as [|x l l' _ IH|x y l|l l' l'' _ IH1 _ IH2]; simpl.
  - constructor.
  - destruct (f x); [apply perm_skip|]; exact IH.
  - destruct (f x), (f y); try apply Permutation_refl. apply perm_swap.
  - eapply perm_trans; eassumption.
Qed.

Lemma tree_paths_perm tree tree' :
  Permutation tree tree' -> tree_paths tree = tree_paths tree'.
Proof.
  intros P. unfold tree_paths.
  apply sorted_unique; try apply sorted_sorted.
  eapply perm_trans; [apply Permutation_sym, sorted_perm|].
  eapply perm_trans; [|apply sorted_perm].
  apply Permutation_map, filter_perm, P.
Qed.

Lemma StronglySorted_firstn {A : Type} (R : A -> A -> Prop) l :
  StronglySorted R l -> forall n, StronglySorted R (firstn n l).
Proof.
  induction 1 as [|x l Hs IH Hall]; intros [|n]; simpl; try constructor.
  - apply IH.
  - rewrite Forall_forall in *. intros y Hy. apply Hall. eapply In_firstn, Hy.
Qed.

Lemma tree_paths_length tree :
  length (tree_paths tree) = length (filter eligible tree).
Proof.
  unfold tree_paths.
  rewrite <- (Permutation_length (sorted_perm _)), length_map. reflexivity.
Qed.

End RenderingInvariants.

(** X10.  Under a limit that is not negative, what [truncate_file] keeps
    of a longer content is at most [limit] and at least four fifths of
    [limit] characters; when it is fewer than [limit] it is whole lines,
    the content going on with a newline; and the note reports at least
    one line kept and no more lines kept than the content has. *)
Theorem X10_truncation_keeps_four_fifths (p content : str) (limit : Z) :
  0 <= limit < len content ->
  exists kept,
    truncate_file p content limit
    = kept ++ truncation_note (S (count NL kept)) (S (count NL content))
    /\ 4 * limit <= 5 * len kept <= 5 * limit
    /\ (len kept < limit -> exists rest, content = kept ++ NL :: rest)
    /\ (1 <= S (count NL kept) <= S (count NL content))%nat.
Proof.
  intros Hl. exists (kept_prefix content limit).
  destruct (kept_prefix_bounds content limit Hl) as [B1 [B2 B3]].
  split; [apply truncate_file_long; lia|]. split; [lia|]. split; [exact B3|].
  destruct (kept_prefix_prefix content limit) as [rest E].
  pose proof (f_equal (count NL) E) as C. rewrite count_app in C. lia.
Qed.

Lemma X10_witness :
  let content := lit "line one" ++ [NL] ++ lit "line two" ++ [NL] ++ lit "line three" in
  0 <= 20 < len content
  /\ truncate_file (lit "a.txt") content 20
     = (lit "line one" ++ [NL] ++ lit "line two") ++ truncation_note 2 3.
Proof.
  intros content.
  assert (H : 0 <= 20 < len content) by (split; [lia | vm_compute; reflexivity]).
  split; [exact H|].
  destruct (X10_truncation_keeps_four_fifths (lit "a.txt") content 20 H) as [kept [E _]].
  vm_compute. reflexivity.
Defined.

(** X11.  When the blocks of all the files total less than the budget,
    [build_file_context] renders every file, in the order given, and adds
    no marker. *)
Theorem X11_context_of_small_input (files : list (str * str)) :
  total_len (map rendered_block files) < CHAR_BUDGET ->
  build_file_context files = join [NL; NL] (map rendered_block files).
Proof.
  intros H. unfold build_file_context. rewrite render_parts_all; [reflexivity | lia].
Qed.

Lemma X11_witness :
  let files := [(lit "a.py", lit "x = 1"); (lit "b.py", lit "y = 2")] in
  total_len (map rendered_block files) < CHAR_BUDGET
  /\ build_file_context files
     = file_block (lit "a.py") (lit "x = 1") ++ [NL; NL] ++ file_block (lit "b.py") (lit "y = 2").
Proof.
  intros files.
  assert (H : total_len (map rendered_block files) < CHAR_BUDGET) by (vm_compute; reflexivity).
  split; [exact H|].
  rewrite (X11_context_of_small_input files H). vm_compute. reflexivity.
Defined.

(** X12.  The directory tree does not depend on the order of the listing:
    two trees with the same entries in any order render the same. *)
Theorem X12_directory_tree_ignores_listing_order tree tree' :
  Permutation tree tree' ->
  build_directory_tree tree = build_directory_tree tree'.
Proof.
  intros P. unfold build_directory_tree, shown_paths.
  rewrite (tree_paths_perm tree tree' P). reflexivity.
Qed.

Lemma X12_witness :
  let a := mkEntry (lit "src/a.py") (Some 3) Blob in
  let b := mkEntry (lit "README.md") (Some 7) Blob in
  Permutation [a; b] [b; a]
  /\ build_directory_tree [a; b] = build_directory_tree [b; a].
Proof.
  intros a b.
  assert (P : Permutation [a; b] [b; a]) by apply perm_swap.
  split; [exact P|]. exact (X12_directory_tree_ignores_listing_order _ _ P).
Defined.

(** X13.  The paths of the directory tree are in ascending order of their
    characters; there is one for each blob that is not skipped, up to
    [TREE_MAX_ENTRIES]; and when these are no more than
    [TREE_MAX_ENTRIES], each of them is rendered. *)
Theorem X13_directory_tree_sorted_and_capped tree :
  StronglySorted str_le (shown_paths tree)
  /\ length (shown_paths tree) = Nat.min TREE_MAX_ENTRIES (length (filter eligible tree))
  /\ ((length (filter eligible tree) <= TREE_MAX_ENTRIES)%nat ->
      forall item, In item tree -> eligible item = true -> In (path item) (shown_paths tree)).
Proof.
  unfold shown_paths. split; [|split].
  - apply StronglySorted_firstn, sorted_sorted.
  - rewrite length_firstn, tree_paths_length. reflexivity.
  - intros Hn item Hi He.
    rewrite firstn_all2 by (rewrite tree_paths_length; exact Hn).
    unfold tree_paths. apply (Permutation_in _ (sorted_perm _)).
    apply in_map. apply filter_In. split; [exact Hi | exact He].
Qed.

(* ===================================================================== *)
(** ** From the calls to the API to the replies *)
(* ===================================================================== *)

Section Replies.

Import Text Github Main.

Lemma startswith_app s t : startswith (s ++ t) s = true.
Proof.
  induction s as [|c s IH]; simpl; [destruct t; reflexivity|].
  rewrite IH. replace (chr_eqb c c) with true; [reflexivity|].
  symmetry. apply chr_eqb_eq. reflexivity.
Qed.

Lemma contains_app_r needle pre s :
  contains needle s = true -> contains needle (pre ++ s) = true.
Proof.
  intros H. induction pre as [|c pre IH]; [exact H|].
  change ((c :: pre) ++ s) with (c :: pre ++ s). cbn [contains].
  rewrite IH. apply orb_true_r.
Qed.

Lemma contains_startswith needle s : startswith s needle = true -> contains needle s = true.
Proof. intros H. destruct s; cbn [contains]; rewrite H; reflexivity. Qed.

Lemma lower_app a b : lower (a ++ b) = lower a ++ lower b.
Proof. apply map_app. Qed.

Lemma rate_limit_found msg :
  mentions_rate_limit msg -> contains (lit "rate limit") (lower msg) = true.
Proof.
  intros [pre [w [post [-> E]]]]. rewrite !lower_app, E.
  apply contains_app_r, contains_startswith, startswith_app.
Qed.

(** What [fetch_repo_contents] raises when the first call raises. *)
Lemma fetch_raises_of_repo_call rfs repo_call tree_call file_call o r e :
  _get_default_branch rfs repo_call = Raise e ->
  Github.fetch_repo_contents rfs repo_call tree_call file_call o r =
  match e with
  | TimeoutException _ => Raise (TimeoutError (lit "GitHub API request timed out."))
  | RequestError t => Raise (RuntimeError (lit "Network error contacting GitHub: " ++ t))
  | _ => Raise e
  end.
Proof.
  intros H. unfold Github.fetch_repo_contents. rewrite H. destruct e; reflexivity.
Qed.

(** What it raises when the second call raises. *)
Lemma fetch_raises_of_tree_call rfs repo_call tree_call file_call o r branch e :
  _get_default_branch rfs repo_call = Return branch ->
  Github._get_tree rfs (tree_call branch) = Raise e ->
  Github.fetch_repo_contents rfs repo_call tree_call file_call o r =
  match e with
  | TimeoutException _ => Raise (TimeoutError (lit "GitHub API request timed out fetching tree."))
  | RequestError t => Raise (RuntimeError (lit "Network error fetching repository tree: " ++ t))
  | _ => Raise e
  end.
Proof.
  intros Hb H. unfold Github.fetch_repo_contents. rewrite Hb, H. destruct e; reflexivity.
Qed.

(** The two calls raise what [_get] raises. *)
Lemma branch_raises_of_get rfs r e :
  _get rfs r = Raise e -> _get_default_branch rfs r = Raise e.
Proof. intros H. unfold _get_default_branch. rewrite H. reflexivity. Qed.

Lemma tree_raises_of_get rfs r e :
  _get rfs r = Raise e -> Github._get_tree rfs r = Raise e.
Proof. intros H. unfold Github._get_tree. rewrite H. reflexivity. Qed.

(** [_get] on the three statuses it knows, for any body. *)
Lemma _get_rate_limited {A : Type} rfs msg (body : A) :
  mentions_rate_limit msg ->
  _get rfs (Response 403 (Some msg) body) = Raise (RuntimeError RATE_LIMITED).
Proof.
  intros H. unfold _get.
  change (403 =? 404) with false. change (403 =? 403) with true. cbv beta iota zeta.
  rewrite (rate_limit_found msg H). reflexivity.
Qed.

Lemma dict_set_fresh d k v :
  ~ In k (map fst d) -> dict_set d k v = d ++ [(k, v)].
Proof.
  induction d as [|[k' v'] d IH]; simpl; intros H; [reflexivity|].
  destruct (Str.eqb k' k) eqn:E.
  - apply str_eqb_eq in E. subst. exfalso. apply H. left. reflexivity.
  - rewrite IH; [reflexivity|]. intros I. apply H. right. exact I.
Qed.

Lemma fetched_files_keys fetch paths p :
  In p (map fst (fetched_files fetch paths)) -> In p paths.
Proof.
  induction paths as [|q paths IH]; simpl; [tauto|].
  rewrite map_app, in_app_iff. intros [H|H]; [|right; apply IH, H].
  destruct (fetch q); simpl in H; [|contradiction].
  destruct H as [->|[]]. left. reflexivity.
Qed.

(** The dictionary of the fetched files, for paths that do not repeat. *)
Lemma files_of_fetched fetch paths : forall acc,
  NoDup paths -> (forall p, In p paths -> ~ In p (map fst acc)) ->
  fold_left (fun d pc => match snd pc with
                         | Some content => dict_set d (fst pc) content
                         | None => d
                         end)
            (map (fun p => (p, fetch p)) paths) acc
  = acc ++ fetched_files fetch paths.
Proof.
  induction paths as [|q paths IH]; intros acc N D; simpl.
  - rewrite app_nil_r. reflexivity.
  - inversion N as [|? ? Hq N']; subst.
    destruct (fetch q) as [text|] eqn:E.
    + rewrite dict_set_fresh by (apply D; left; reflexivity).
      rewrite IH; [rewrite <- app_assoc; reflexivity | exact N' |].
      intros p Hp. rewrite map_app, in_app_iff. intros [I|[<-|[]]].
      * apply (D p); [right; exact Hp | exact I].
      * exact (Hq Hp).
    + simpl. apply IH; [exact N'|]. intros p Hp. apply D. right. exact Hp.
Qed.

End Replies.

(** X14.  A rate limit of GitHub is answered with the status 429: when
    the first call is refused with the status 403 and a message that holds
    the words [rate limit] in any case, the reply to a request with a
    well-formed address is 429 with the message of the rate limit,
    whatever [raise_for_status] and the other calls would do. *)
Theorem X14_github_rate_limit_replied_429 (R : Type)
    (url o r msg : str) (rfs : Z -> option str) (body : option str)
    (tree_call : str -> Github.sent (option (list entry)))
    (file_call : str -> Github.sent (option str))
    (llm : Github.repo_data -> Github.outcome R) :
  Main.url_groups (Text.strip url) = Some (o, r) ->
  mentions_rate_limit msg ->
  Main.summarize url
    (Github.fetch_repo_contents rfs (Github.Response 403 (Some msg) body) tree_call file_call)
    llm
  = Main.JSONError 429 Github.RATE_LIMITED.
Proof.
  intros Hu Hm. unfold Main.summarize. rewrite Hu.
  rewrite (fetch_raises_of_repo_call _ _ _ _ _ _ _
             (branch_raises_of_get _ _ _ (_get_rate_limited rfs msg body Hm))).
  replace (Text.contains (lit "rate limit") (lower Github.RATE_LIMITED)) with true
    by (vm_compute; reflexivity).
  reflexivity.
Qed.

Lemma X14_witness :
  let url := lit " https://github.com/octo/demo " in
  let msg := lit "API Rate Limit exceeded for 203.0.113.7" in
  Main.url_groups (Text.strip url) = Some (lit "octo", lit "demo")
  /\ mentions_rate_limit msg
  /\ Main.summarize (R := unit) url
       (Github.fetch_repo_contents (fun _ => None) (Github.Response 403 (Some msg) None)
          (fun _ => Github.Failed (Github.RequestError [])) (fun _ => Github.Failed (Github.RequestError [])))
       (fun _ => Github.Return tt)
     = Main.JSONError 429 Github.RATE_LIMITED.
Proof.
  intros url msg.
  assert (U : Main.url_groups (Text.strip url) = Some (lit "octo", lit "demo"))
    by (vm_compute; reflexivity).
  assert (M : mentions_rate_limit msg).
  { exists (lit "API "), (lit "Rate Limit"), (lit " exceeded for 203.0.113.7").
    split; reflexivity. }
  split; [exact U|]. split; [exact M|].
  exact (X14_github_rate_limit_replied_429 unit url _ _ msg _ None _ _ _ U M).
Defined.

(** X15.  The other refusals of GitHub, on the call for the repository
    and on the call for the tree alike.  The status 404 is answered 404
    with [Repository not found or is private.] and the status 451 is
    answered 403, whether the body is JSON or not, as [r.json()] is not
    called for them.  The status 403 is answered 403 when the body is a
    JSON object whose message is without the words [rate limit], or
    without a message; when the body is not JSON, [r.json()] raises, and
    the reply is 404 with the text of that error.  A time-out is answered
    504. *)
Theorem X15_github_refusals_to_replies (R : Type)
    (url o r branch : str) (rfs : Z -> option str) (message : option str)
    (repo_call : Github.sent (option str))
    (tree_call : str -> Github.sent (option (list entry)))
    (file_call : str -> Github.sent (option str))
    (llm : Github.repo_data -> Github.outcome R) :
  Main.url_groups (Text.strip url) = Some (o, r) ->
  Github._get_default_branch rfs repo_call = Github.Return branch ->
  let on_repo resp :=
    Main.summarize url (Github.fetch_repo_contents rfs resp tree_call file_call) llm in
  let on_tree resp :=
    Main.summarize url (Github.fetch_repo_contents rfs repo_call (fun _ => resp) file_call) llm in
  let quiet :=
    Text.contains (lit "rate limit")
                  (lower (match message with Some m => m | None => [] end)) = false in
  (forall body, on_repo (Github.Response 404 message body) = Main.JSONError 404 Github.NOT_FOUND)
  /\ (forall body, on_tree (Github.Response 404 message body) = Main.JSONError 404 Github.NOT_FOUND)
  /\ (forall body, on_repo (Github.Response 451 message body) = Main.JSONError 403 Github.LEGAL_REASONS)
  /\ (forall body, on_tree (Github.Response 451 message body) = Main.JSONError 403 Github.LEGAL_REASONS)
  /\ (forall body, quiet ->
        on_repo (Github.Response 403 message body) = Main.JSONError 403 Github.ACCESS_DENIED)
  /\ (forall body, quiet ->
        on_tree (Github.Response 403 message body) = Main.JSONError 403 Github.ACCESS_DENIED)
  /\ (forall t, on_repo (Github.Failed (Github.TimeoutException t))
                = Main.JSONError 504 (lit "GitHub API request timed out."))
  /\ (forall t, on_tree (Github.Failed (Github.TimeoutException t))
                = Main.JSONError 504 (lit "GitHub API request timed out fetching tree."))
  /\ (forall why body,
        on_repo (Github.NotJSON 404 why body) = Main.JSONError 404 Github.NOT_FOUND
        /\ on_repo (Github.NotJSON 451 why body) = Main.JSONError 403 Github.LEGAL_REASONS
        /\ on_repo (Github.NotJSON 403 why body) = Main.JSONError 404 why)
  /\ (forall why body,
        on_tree (Github.NotJSON 404 why body) = Main.JSONError 404 Github.NOT_FOUND
        /\ on_tree (Github.NotJSON 451 why body) = Main.JSONError 403 Github.LEGAL_REASONS
        /\ on_tree (Github.NotJSON 403 why body) = Main.JSONError 404 why).
Proof.
  intros Hu Hb on_repo on_tree quiet. subst on_repo on_tree quiet.
  unfold Main.summarize. rewrite Hu.
  split; [|split; [|split; [|split; [|split; [|split; [|split; [|split; [|split]]]]]]]]; intros.
  - rewrite (fetch_raises_of_repo_call _ _ _ _ _ _ (Github.ValueError Github.NOT_FOUND));
      reflexivity.
  - rewrite (fetch_raises_of_tree_call _ _ _ _ _ _ _ (Github.ValueError Github.NOT_FOUND) Hb);
      reflexivity.
  - rewrite (fetch_raises_of_repo_call _ _ _ _ _ _ (Github.PermissionError Github.LEGAL_REASONS));
      reflexivity.
  - rewrite (fetch_raises_of_tree_call _ _ _ _ _ _ _
               (Github.PermissionError Github.LEGAL_REASONS) Hb); reflexivity.
  - rewrite (fetch_raises_of_repo_call _ _ _ _ _ _ (Github.PermissionError Github.ACCESS_DENIED));
      [reflexivity|].
    apply branch_raises_of_get. unfold Github._get.
    change (403 =? 404) with false. change (403 =? 403) with true. cbv beta iota zeta.
    rewrite H. reflexivity.
  - rewrite (fetch_raises_of_tree_call _ _ _ _ _ _ _
               (Github.PermissionError Github.ACCESS_DENIED) Hb); [reflexivity|].
    apply tree_raises_of_get. unfold Github._get.
    change (403 =? 404) with false. change (403 =? 403) with true. cbv beta iota zeta.
    rewrite H. reflexivity.
  - rewrite (fetch_raises_of_repo_call _ _ _ _ _ _ (Github.TimeoutException t)); reflexivity.
  - rewrite (fetch_raises_of_tree_call _ _ _ _ _ _ _ (Github.TimeoutException t) Hb);
      reflexivity.
  - split; [|split].
    + rewrite (fetch_raises_of_repo_call _ _ _ _ _ _ (Github.ValueError Github.NOT_FOUND));
        reflexivity.
    + rewrite (fetch_raises_of_repo_call _ _ _ _ _ _
                 (Github.PermissionError Github.LEGAL_REASONS)); reflexivity.
    + rewrite (fetch_raises_of_repo_call _ _ _ _ _ _ (Github.JSONDecodeError why));
        reflexivity.
  - split; [|split].
    + rewrite (fetch_raises_of_tree_call _ _ _ _ _ _ _ (Github.ValueError Github.NOT_FOUND) Hb);
        reflexivity.
    + rewrite (fetch_raises_of_tree_call _ _ _ _ _ _ _
                 (Github.PermissionError Github.LEGAL_REASONS) Hb); reflexivity.
    + rewrite (fetch_raises_of_tree_call _ _ _ _ _ _ _ (Github.JSONDecodeError why) Hb);
        reflexivity.
Qed.

Lemma X15_witness :
  let url := lit "https://github.com/octo/demo" in
  let repo_call := Github.Response 200 None (Some (lit "main")) in
  let why := lit "Expecting value: line 1 column 1 (char 0)" in
  let on_tree resp :=
    Main.summarize (R := unit) url
      (Github.fetch_repo_contents (fun _ => None) repo_call (fun _ => resp)
         (fun _ => Github.Failed (Github.RequestError [])))
      (fun _ => Github.Return tt) in
  Main.url_groups (Text.strip url) = Some (lit "octo", lit "demo")
  /\ Github._get_default_branch (fun _ => None) repo_call = Github.Return (lit "main")
  /\ on_tree (Github.Response 404 None None) = Main.JSONError 404 Github.NOT_FOUND
  /\ on_tree (Github.Response 403 None None) = Main.JSONError 403 Github.ACCESS_DENIED
  /\ on_tree (Github.NotJSON 403 why None) = Main.JSONError 404 why.
Proof.
  intros url repo_call why on_tree.
  assert (U : Main.url_groups (Text.strip url) = Some (lit "octo", lit "demo"))
    by (vm_compute; reflexivity).
  assert (B : Github._get_default_branch (fun _ => None) repo_call = Github.Return (lit "main"))
    by reflexivity.
  split; [exact U|]. split; [exact B|].
  destruct (X15_github_refusals_to_replies unit url _ _ (lit "main") (fun _ => None) None
              repo_call (fun _ => Github.Response 404 None None)
              (fun _ => Github.Failed (Github.RequestError [])) (fun _ => Github.Return tt) U B)
    as [_ [H1 [_ [_ [_ [H2 [_ [_ [_ H3]]]]]]]]].
  split; [exact (H1 None)|]. split; [exact (H2 None eq_refl)|].
  exact (proj2 (proj2 (H3 why None))).
Defined.

(** X26.  A body that is not JSON under a status that [raise_for_status]
    accepts: [_get] raises the error of [r.json()] where it returns, and
    the request is answered 404 with the text of that error, on the call
    for the repository and on the call for the tree alike. *)
Theorem X26_body_not_json_replied_404 (R : Type)
    (url o r branch why : str) (rfs : Z -> option str) (status : Z)
    (repo_call : Github.sent (option str))
    (tree_call : str -> Github.sent (option (list entry)))
    (file_call : str -> Github.sent (option str))
    (llm : Github.repo_data -> Github.outcome R) :
  Main.url_groups (Text.strip url) = Some (o, r) ->
  Github._get_default_branch rfs repo_call = Github.Return branch ->
  status <> 404 -> status <> 403 -> status <> 451 -> rfs status = None ->
  (forall body,
     Main.summarize url
       (Github.fetch_repo_contents rfs (Github.NotJSON status why body) tree_call file_call) llm
     = Main.JSONError 404 why)
  /\ (forall body,
        Main.summarize url
          (Github.fetch_repo_contents rfs repo_call (fun _ => Github.NotJSON status why body)
             file_call) llm
        = Main.JSONError 404 why).
Proof.
  intros Hu Hb H1 H2 H3 Hr. unfold Main.summarize. rewrite Hu.
  assert (G : forall (A : Type) (body : A),
             Github._get rfs (Github.NotJSON status why body)
             = Github.Raise (Github.JSONDecodeError why)).
  { intros A body. unfold Github._get.
    replace (status =? 404) with false by (symmetry; apply Z.eqb_neq; exact H1).
    replace (status =? 403) with false by (symmetry; apply Z.eqb_neq; exact H2).
    replace (status =? 451) with false by (symmetry; apply Z.eqb_neq; exact H3).
    rewrite Hr. reflexivity. }
  split; intros body.
  - rewrite (fetch_raises_of_repo_call _ _ _ _ _ _ (Github.JSONDecodeError why));
      [reflexivity|]. apply branch_raises_of_get, G.
  - rewrite (fetch_raises_of_tree_call _ _ _ _ _ _ _ (Github.JSONDecodeError why) Hb);
      [reflexivity|]. apply tree_raises_of_get, G.
Qed.

Lemma X26_witness :
  let url := lit "https://github.com/octo/demo" in
  let why := lit "Expecting value: line 1 column 1 (char 0)" in
  Main.url_groups (Text.strip url) = Some (lit "octo", lit "demo")
  /\ Main.summarize (R := unit) url
       (Github.fetch_repo_contents (fun _ => None) (Github.NotJSON 200 why None)
          (fun _ => Github.Response 200 None None)
          (fun _ => Github.Failed (Github.RequestError [])))
       (fun _ => Github.Return tt)
     = Main.JSONError 404 why.
Proof.
  intros url why.
  assert (U : Main.url_groups (Text.strip url) = Some (lit "octo", lit "demo"))
    by (vm_compute; reflexivity).
  split; [exact U|].
  assert (B : Github._get_default_branch (fun _ => None)
                (Github.Response 200 None (Some (lit "main"))) = Github.Return (lit "main"))
    by reflexivity.
  destruct (X26_body_not_json_replied_404 unit url _ _ (lit "main") why (fun _ => None) 200
              (Github.Response 200 None (Some (lit "main")))
              (fun _ => Github.Response 200 None None)
              (fun _ => Github.Failed (Github.RequestError [])) (fun _ => Github.Return tt)
              U B ltac:(discriminate) ltac:(discriminate) ltac:(discriminate) eq_refl)
    as [H _].
  exact (H None).
Defined.

(** X16.  A network error on the first call is answered 502 with
    [Network error contacting GitHub:] and the text of the error, unless
    that message holds the words [rate limit] in some case: then the
    reply is 429, as it is when the text of the error itself holds
    them. *)
Theorem X16_network_error_replied_502_or_429 (R : Type)
    (url o r text : str) (rfs : Z -> option str)
    (tree_call : str -> Github.sent (option (list entry)))
    (file_call : str -> Github.sent (option str))
    (llm : Github.repo_data -> Github.outcome R) :
  Main.url_groups (Text.strip url) = Some (o, r) ->
  let msg := lit "Network error contacting GitHub: " ++ text in
  let reply :=
    Main.summarize url
      (Github.fetch_repo_contents rfs (Github.Failed (Github.RequestError text))
         tree_call file_call) llm in
  reply = Main.JSONError (if Text.contains (lit "rate limit") (lower msg) then 429 else 502) msg
  /\ (mentions_rate_limit text -> reply = Main.JSONError 429 msg).
Proof.
  intros Hu msg reply. subst reply.
  assert (E : Main.summarize url
                (Github.fetch_repo_contents rfs (Github.Failed (Github.RequestError text))
                   tree_call file_call) llm
              = Main.JSONError (if Text.contains (lit "rate limit") (lower msg) then 429 else 502) msg).
  { unfold Main.summarize. rewrite Hu.
    rewrite (fetch_raises_of_repo_call _ _ _ _ _ _ (Github.RequestError text)) by reflexivity.
    fold msg. destruct (Text.contains (lit "rate limit") (lower msg)); reflexivity. }
  split; [exact E|].
  intros Hm. rewrite E.
  replace (Text.contains (lit "rate limit") (lower msg)) with true; [reflexivity|].
  symmetry. subst msg. rewrite lower_app. apply contains_app_r, rate_limit_found, Hm.
Qed.

Lemma X16_witness :
  let url := lit "https://github.com/octo/demo" in
  Main.url_groups (Text.strip url) = Some (lit "octo", lit "demo")
  /\ Main.summarize (R := unit) url
       (Github.fetch_repo_contents (fun _ => None)
          (Github.Failed (Github.RequestError (lit "connection refused")))
          (fun _ => Github.Failed (Github.RequestError [])) (fun _ => Github.Failed (Github.RequestError [])))
       (fun _ => Github.Return tt)
     = Main.JSONError 502 (lit "Network error contacting GitHub: connection refused").
Proof.
  intros url.
  assert (U : Main.url_groups (Text.strip url) = Some (lit "octo", lit "demo"))
    by (vm_compute; reflexivity).
  split; [exact U|].
  destruct (X16_network_error_replied_502_or_429 unit url _ _ (lit "connection refused")
              (fun _ => None) (fun _ => Github.Failed (Github.RequestError []))
              (fun _ => Github.Failed (Github.RequestError [])) (fun _ => Github.Return tt) U)
    as [H _].
  rewrite H. vm_compute. reflexivity.
Defined.

(** X17.  What [summarize] does not turn into a reply: a status that
    [raise_for_status] rejects, other than 404, 403 and 451, leaves the
    handler as the exception of [httpx]; and so does the missing key of a
    repository whose description has no [default_branch]. *)
Theorem X17_other_statuses_unhandled (R : Type)
    (url o r text : str) (rfs : Z -> option str) (status : Z) (message : option str)
    (tree_call : str -> Github.sent (option (list entry)))
    (file_call : str -> Github.sent (option str))
    (llm : Github.repo_data -> Github.outcome R) :
  Main.url_groups (Text.strip url) = Some (o, r) ->
  status <> 404 -> status <> 403 -> status <> 451 ->
  let on_repo resp :=
    Main.summarize url (Github.fetch_repo_contents rfs resp tree_call file_call) llm in
  (rfs status = Some text ->
   forall body, on_repo (Github.Response status message body)
                = Main.Unhandled (Github.HTTPStatusError text))
  /\ (rfs status = None ->
      on_repo (Github.Response status message None)
      = Main.Unhandled (Github.KeyError (lit "default_branch"))).
Proof.
  intros Hu H1 H2 H3 on_repo. subst on_repo. unfold Main.summarize. rewrite Hu.
  assert (G : forall body : option str,
             Github._get rfs (Github.Response status message body)
             = match rfs status with
               | Some t => Github.Raise (Github.HTTPStatusError t)
               | None => Github.Return body
               end).
  { intros body. unfold Github._get.
    replace (status =? 404) with false by (symmetry; apply Z.eqb_neq; exact H1).
    replace (status =? 403) with false by (symmetry; apply Z.eqb_neq; exact H2).
    replace (status =? 451) with false by (symmetry; apply Z.eqb_neq; exact H3).
    reflexivity. }
  split.
  - intros Hr body.
    rewrite (fetch_raises_of_repo_call _ _ _ _ _ _ (Github.HTTPStatusError text)); [reflexivity|].
    unfold Github._get_default_branch. rewrite G, Hr. reflexivity.
  - intros Hr.
    rewrite (fetch_raises_of_repo_call _ _ _ _ _ _ (Github.KeyError (lit "default_branch")));
      [reflexivity|].
    unfold Github._get_default_branch. rewrite G, Hr. reflexivity.
Qed.

Lemma X17_witness :
  let url := lit "https://github.com/octo/demo" in
  let rfs := fun s : Z => if (400 <=? s) then Some (lit "Server error") else None in
  Main.url_groups (Text.strip url) = Some (lit "octo", lit "demo")
  /\ rfs 500 = Some (lit "Server error")
  /\ Main.summarize (R := unit) url
       (Github.fetch_repo_contents rfs (Github.Response 500 None None)
          (fun _ => Github.Failed (Github.RequestError [])) (fun _ => Github.Failed (Github.RequestError [])))
       (fun _ => Github.Return tt)
     = Main.Unhandled (Github.HTTPStatusError (lit "Server error")).
Proof.
  intros url rfs.
  assert (U : Main.url_groups (Text.strip url) = Some (lit "octo", lit "demo"))
    by (vm_compute; reflexivity).
  split; [exact U|]. split; [reflexivity|].
  destruct (X17_other_statuses_unhandled unit url _ _ (lit "Server error") rfs 500 None
              (fun _ => Github.Failed (Github.RequestError []))
              (fun _ => Github.Failed (Github.RequestError [])) (fun _ => Github.Return tt) U
              ltac:(discriminate) ltac:(discriminate) ltac:(discriminate)) as [H _].
  exact (H eq_refl None).
Defined.

Section Pipeline.

Lemma get_tree_of_get rfs r data :
  Github._get rfs r = Github.Return data ->
  Github._get_tree rfs r
  = Github.Return (_get_tree (match data with Some tree => tree | None => [] end)).
Proof. intros H. unfold Github._get_tree. rewrite H. reflexivity. Qed.

Lemma _get_tree_nil listing :
  _get_tree listing = [] <-> (forall item, In item listing -> type item <> Blob).
Proof.
  split.
  - intros E item Hi Hb.
    assert (I : In item (_get_tree listing)) by (apply _get_tree_In; auto).
    rewrite E in I. exact I.
  - intros H. destruct (_get_tree listing) as [|e t] eqn:E; [reflexivity|].
    exfalso. assert (I : In e (_get_tree listing)) by (rewrite E; left; reflexivity).
    apply _get_tree_In in I. destruct I as [I B]. exact (H e I B).
Qed.

(** [fetch_repo_contents] past its two calls. *)
Lemma fetch_past_the_calls rfs repo_call tree_call file_call o r branch data :
  Github._get_default_branch rfs repo_call = Github.Return branch ->
  Github._get rfs (tree_call branch) = Github.Return data ->
  let tree := _get_tree (match data with Some t => t | None => [] end) in
  Github.fetch_repo_contents rfs repo_call tree_call file_call o r
  = match tree with
    | [] => Github.Raise (Github.ValueError EMPTY_REPOSITORY)
    | _ =>
        match filter_and_prioritize tree with
        | [] => Github.Raise (Github.ValueError NO_READABLE_FILES)
        | _ =>
            Github.Return
              (Github.mkRepoData o r (build_directory_tree tree)
                 (Github.files_of
                    (map (fun p => (p, Github._fetch_file (file_call p)))
                         (filter_and_prioritize tree))))
        end
    end.
Proof.
  intros Hb Ht tree. unfold Github.fetch_repo_contents.
  rewrite Hb, (get_tree_of_get _ _ _ Ht). reflexivity.
Qed.

Lemma fetched_files_all fetch paths :
  (forall p, In p paths -> fetch p <> None) ->
  map fst (fetched_files fetch paths) = paths.
Proof.
  induction paths as [|q paths IH]; intros H; [reflexivity|].
  simpl. rewrite map_app, IH by (intros p Hp; apply H; right; exact Hp).
  destruct (fetch q) eqn:E; [reflexivity|].
  exfalso. apply (H q); [left; reflexivity | exact E].
Qed.

(** What [fetch_repo_contents] returns when something is selected. *)
Lemma fetch_returns_fetched rfs repo_call tree_call file_call o r branch data :
  Github._get_default_branch rfs repo_call = Github.Return branch ->
  Github._get rfs (tree_call branch) = Github.Return data ->
  NoDup (map path (_get_tree (match data with Some t => t | None => [] end))) ->
  filter_and_prioritize (_get_tree (match data with Some t => t | None => [] end)) <> [] ->
  Github.fetch_repo_contents rfs repo_call tree_call file_call o r
  = Github.Return
      (Github.mkRepoData o r
         (build_directory_tree (_get_tree (match data with Some t => t | None => [] end)))
         (fetched_files (fun p => Github._fetch_file (file_call p))
            (filter_and_prioritize (_get_tree (match data with Some t => t | None => [] end))))).
Proof.
  intros Hb Ht Hn Hs.
  rewrite (fetch_past_the_calls _ _ _ _ _ _ _ _ Hb Ht). cbv zeta.
  set (tree := _get_tree (match data with Some t => t | None => [] end)) in *.
  destruct tree as [|e t] eqn:Et; [exfalso; apply Hs; reflexivity|].
  rewrite <- Et in *.
  destruct (filter_and_prioritize tree) as [|p ps] eqn:Es; [congruence|].
  rewrite <- Es. f_equal. f_equal. unfold Github.files_of.
  apply (files_of_fetched (fun p => Github._fetch_file (file_call p))
           (filter_and_prioritize tree) []).
  - apply selection_nodup. exact Hn.
  - intros q _ [].
Qed.

End Pipeline.

(** X18.  A repository without a file, and one without a readable file,
    are both answered 404, each with its own message: when the two calls
    succeed and the listing holds no blob (or the response no [tree]),
    the message is that of the empty repository; when it holds blobs and
    [_should_skip] skips them all, it is that of the unreadable one. *)
Theorem X18_empty_or_unreadable_replied_404 (R : Type)
    (url o r branch : str) (rfs : Z -> option str)
    (repo_call : Github.sent (option str))
    (tree_call : str -> Github.sent (option (list entry)))
    (file_call : str -> Github.sent (option str))
    (llm : Github.repo_data -> Github.outcome R)
    (data : option (list entry)) :
  Main.url_groups (Text.strip url) = Some (o, r) ->
  Github._get_default_branch rfs repo_call = Github.Return branch ->
  Github._get rfs (tree_call branch) = Github.Return data ->
  let listing := match data with Some t => t | None => [] end in
  let reply :=
    Main.summarize url (Github.fetch_repo_contents rfs repo_call tree_call file_call) llm in
  ((forall item, In item listing -> type item <> Blob) ->
   reply = Main.JSONError 404 EMPTY_REPOSITORY)
  /\ ((exists item, In item listing /\ type item = Blob) ->
      (forall item, In item listing -> type item = Blob -> _should_skip (path item) = true) ->
      reply = Main.JSONError 404 NO_READABLE_FILES).
Proof.
  intros Hu Hb Ht listing reply. subst reply. unfold Main.summarize. rewrite Hu.
  rewrite (fetch_past_the_calls _ _ _ _ _ _ _ _ Hb Ht). fold listing. cbv zeta.
  split.
  - intros H. apply _get_tree_nil in H. rewrite H. reflexivity.
  - intros [item [Hi Hk]] Hs.
    assert (I : In item (_get_tree listing)) by (apply _get_tree_In; auto).
    assert (E : filter_and_prioritize (_get_tree listing) = []).
    { apply selection_empty_iff, candidates_of_nil, Forall_forall.
      intros x Hx. apply _get_tree_In in Hx. destruct Hx as [Hx Bx]. apply Hs; assumption. }
    destruct (_get_tree listing) as [|e t]; [contradiction|].
    rewrite E. reflexivity.
Qed.

Lemma X18_witness :
  let url := lit "https://github.com/octo/assets" in
  let repo_call := Github.Response 200 None (Some (lit "main")) in
  let listing := [mkEntry (lit "img") None Tree; mkEntry (lit "img/logo.png") (Some 900) Blob] in
  let tree_call := fun _ : str => Github.Response 200 None (Some listing) in
  Main.url_groups (Text.strip url) = Some (lit "octo", lit "assets")
  /\ Github._get_default_branch (fun _ => None) repo_call = Github.Return (lit "main")
  /\ Github._get (fun _ => None) (tree_call (lit "main")) = Github.Return (Some listing)
  /\ Main.summarize (R := unit) url
       (Github.fetch_repo_contents (fun _ => None) repo_call tree_call
          (fun _ => Github.Failed (Github.RequestError [])))
       (fun _ => Github.Return tt)
     = Main.JSONError 404 NO_READABLE_FILES.
Proof.
  intros url repo_call listing tree_call.
  assert (U : Main.url_groups (Text.strip url) = Some (lit "octo", lit "assets"))
    by (vm_compute; reflexivity).
  assert (B : Github._get_default_branch (fun _ => None) repo_call = Github.Return (lit "main"))
    by reflexivity.
  assert (T : Github._get (fun _ => None) (tree_call (lit "main")) = Github.Return (Some listing))
    by reflexivity.
  split; [exact U|]. split; [exact B|]. split; [exact T|].
  destruct (X18_empty_or_unreadable_replied_404 unit url _ _ (lit "main") (fun _ => None)
              repo_call tree_call (fun _ => Github.Failed (Github.RequestError []))
              (fun _ => Github.Return tt) (Some listing) U B T) as [_ H].
  apply H.
  - exists (mkEntry (lit "img/logo.png") (Some 900) Blob). split; [right; left|]; reflexivity.
  - intros item [<-|[<-|[]]] K; [discriminate K | vm_compute; reflexivity].
Defined.

(** X19.  A download that fails drops its file and nothing else: when
    the two calls succeed, the paths of the blobs do not repeat and
    something is selected, [fetch_repo_contents] returns, under the owner
    and the name it was given, the directory tree of the blobs and the
    files that were fetched, in the order of the selection; when every
    download succeeds their paths are the selection itself. *)
Theorem X19_fetched_files_in_selection_order
    (o r branch : str) (rfs : Z -> option str)
    (repo_call : Github.sent (option str))
    (tree_call : str -> Github.sent (option (list entry)))
    (file_call : str -> Github.sent (option str))
    (data : option (list entry)) :
  Github._get_default_branch rfs repo_call = Github.Return branch ->
  Github._get rfs (tree_call branch) = Github.Return data ->
  let tree := _get_tree (match data with Some t => t | None => [] end) in
  let fetch := fun p => Github._fetch_file (file_call p) in
  NoDup (map path tree) ->
  filter_and_prioritize tree <> [] ->
  Github.fetch_repo_contents rfs repo_call tree_call file_call o r
  = Github.Return
      (Github.mkRepoData o r (build_directory_tree tree)
         (fetched_files fetch (filter_and_prioritize tree)))
  /\ ((forall p, In p (filter_and_prioritize tree) -> fetch p <> None) ->
      map fst (fetched_files fetch (filter_and_prioritize tree)) = filter_and_prioritize tree).
Proof.
  intros Hb Ht tree fetch Hn Hs. split; [|apply fetched_files_all].
  apply (fetch_returns_fetched _ _ _ _ _ _ _ _ Hb Ht Hn Hs).
Qed.

Lemma X19_witness :
  let repo_call := Github.Response 200 None (Some (lit "main")) in
  let listing := [mkEntry (lit "src/a.py") (Some 20) Blob; mkEntry (lit "README.md") (Some 10) Blob] in
  let tree_call := fun _ : str => Github.Response 200 None (Some listing) in
  let file_call := fun p : str =>
    if Str.eqb p (lit "README.md")
    then Github.Response 200 None (Some (lit "hello"))
    else Github.Response 404 None None in
  Github._get_default_branch (fun _ => None) repo_call = Github.Return (lit "main")
  /\ Github._get (fun _ => None) (tree_call (lit "main")) = Github.Return (Some listing)
  /\ NoDup (map path (_get_tree listing))
  /\ filter_and_prioritize (_get_tree listing) <> []
  /\ Github.fetch_repo_contents (fun _ => None) repo_call tree_call file_call
       (lit "octo") (lit "demo")
     = Github.Return
         (Github.mkRepoData (lit "octo") (lit "demo")
            (build_directory_tree (_get_tree listing)) [(lit "README.md", lit "hello")]).
Proof.
  intros repo_call listing tree_call file_call.
  assert (B : Github._get_default_branch (fun _ => None) repo_call = Github.Return (lit "main"))
    by reflexivity.
  assert (T : Github._get (fun _ => None) (tree_call (lit "main")) = Github.Return (Some listing))
    by reflexivity.
  assert (N : NoDup (map path (_get_tree listing))).
  { constructor; [|constructor; [|constructor]]; simpl.
    - intros [H|[]]. vm_compute in H. discriminate.
    - intros []. }
  assert (S : filter_and_prioritize (_get_tree listing) <> []) by (vm_compute; discriminate).
  split; [exact B|]. split; [exact T|]. split; [exact N|]. split; [exact S|].
  destruct (X19_fetched_files_in_selection_order (lit "octo") (lit "demo") (lit "main")
              (fun _ => None) repo_call tree_call file_call (Some listing) B T N S) as [H _].
  rewrite H. vm_compute. reflexivity.
Defined.

(** X20.  Every failure of the call to the model is answered 500, its
    rate limit and its time-out included, where the same failures of
    GitHub are answered 429 and 504: a missing or empty key, the status
    401, the status 429 and a time-out each give the status 500 and
    [Failed to generate summary:] followed by the text of the error. *)
Theorem X20_model_failures_replied_500 (R : Type)
    (url o r : str) (fetch : str -> str -> Github.outcome Github.repo_data)
    (data : Github.repo_data) (parse : str -> Github.outcome R) :
  Main.url_groups (Text.strip url) = Some (o, r) ->
  fetch o r = Github.Return data ->
  let reply api_key post :=
    Main.summarize url fetch
      (fun d => match Summarizer.summarize_repo_request api_key post with
                | Github.Raise e => Github.Raise e
                | Github.Return text => parse text
                end) in
  let failed text := Main.JSONError 500 (lit "Failed to generate summary: " ++ text) in
  (forall post, reply None post = failed Summarizer.NO_API_KEY)
  /\ (forall post, reply (Some []) post = failed Summarizer.NO_API_KEY)
  /\ (forall c k m text,
        reply (Some (c :: k)) (Github.Response 401 m text) = failed (lit "Invalid LLM API key."))
  /\ (forall c k m text,
        reply (Some (c :: k)) (Github.Response 429 m text)
        = failed (lit "LLM API rate limit exceeded."))
  /\ (forall c k t,
        reply (Some (c :: k)) (Github.Failed (Github.TimeoutException t))
        = failed (lit "LLM API request timed out.")).
Proof.
  intros Hu Hf reply failed. subst reply failed. unfold Main.summarize.
  rewrite Hu, Hf.
  split; [|split; [|split; [|split]]]; intros; reflexivity.
Qed.

Lemma X20_witness :
  let url := lit "https://github.com/octo/demo" in
  let data := Github.mkRepoData (lit "octo") (lit "demo") (lit "README.md") [] in
  let fetch := fun _ _ : str => Github.Return data in
  Main.url_groups (Text.strip url) = Some (lit "octo", lit "demo")
  /\ fetch (lit "octo") (lit "demo") = Github.Return data
  /\ Main.summarize (R := unit) url fetch
       (fun d => match Summarizer.summarize_repo_request (Some (lit "key"))
                         (Github.Response 429 None (lit "slow down")) with
                 | Github.Raise e => Github.Raise e
                 | Github.Return _ => Github.Return tt
                 end)
     = Main.JSONError 500 (lit "Failed to generate summary: LLM API rate limit exceeded.").
Proof.
  intros url data fetch.
  assert (U : Main.url_groups (Text.strip url) = Some (lit "octo", lit "demo"))
    by (vm_compute; reflexivity).
  split; [exact U|]. split; [reflexivity|].
  destruct (X20_model_failures_replied_500 unit url _ _ fetch data (fun _ => Github.Return tt)
              U eq_refl) as [_ [_ [_ [H _]]]].
  exact (H "k"%char (lit "ey") None (lit "slow down")).
Defined.

(* ===================================================================== *)
(** ** The address of the repository *)
(* ===================================================================== *)

Section Address.

Import Main.

Lemma Matches_chr c t : Matches (chr c) t <-> t = [c].
Proof.
  unfold chr. split.
  - intros H. inversion H as [|f x Hx| | | | |]; subst.
    apply chr_eqb_eq in Hx. subst. reflexivity.
  - intros ->. constructor. apply chr_eqb_eq. reflexivity.
Qed.

Lemma Matches_word s : forall t, Matches (word s) t <-> t = s.
Proof.
  induction s as [|c s IH]; intros t; simpl.
  - apply Matches_Eps.
  - rewrite Matches_Cat. split.
    + intros [s1 [s2 [-> [H1 H2]]]]. apply Matches_chr in H1. apply IH in H2. subst. reflexivity.
    + intros ->. exists [c], s. repeat split; [apply Matches_chr | apply IH]; reflexivity.
Qed.

Lemma Matches_opt r t : Matches (opt r) t <-> Matches r t \/ t = [].
Proof. unfold opt. rewrite Matches_Alt, Matches_Eps. reflexivity. Qed.

Lemma Matches_star_cls f t : Matches (Star (Cls f)) t <-> forallb f t = true.
Proof.
  split.
  - intros H. remember (Star (Cls f)) as r eqn:Er.
    induction H as [| | | | | |a u v Hu _ Hv IHv]; try discriminate; [reflexivity|].
    injection Er as ->. inversion Hu as [|g x Hx| | | | |]; subst.
    simpl. rewrite Hx. apply IHv. reflexivity.
  - induction t as [|x t IH]; simpl; intros H; [constructor|].
    apply andb_true_iff in H. destruct H as [Hx Ht].
    change (x :: t) with ([x] ++ t). constructor; [constructor; exact Hx | apply IH, Ht].
Qed.

Lemma Matches_plus_cls f t :
  Matches (plus (Cls f)) t <-> t <> [] /\ forallb f t = true.
Proof.
  unfold plus. rewrite Matches_Cat. split.
  - intros [s1 [s2 [-> [H1 H2]]]]. inversion H1 as [|g x Hx| | | | |]; subst.
    apply Matches_star_cls in H2. simpl. rewrite Hx, H2. split; [discriminate | reflexivity].
  - intros [Hne H]. destruct t as [|x t]; [congruence|].
    simpl in H. apply andb_true_iff in H. destruct H as [Hx Ht].
    exists [x], t. repeat split; [constructor; exact Hx | apply Matches_star_cls, Ht].
Qed.

Lemma Matches_Cat_assoc a b c s :
  Matches (Cat (Cat a b) c) s <-> Matches (Cat a (Cat b c)) s.
Proof.
  rewrite !Matches_Cat. split.
  - intros [s1 [s2 [-> [H H3]]]]. apply Matches_Cat in H.
    destruct H as [u [v [-> [H1 H2]]]]. exists u, (v ++ s2).
    rewrite <- app_assoc. repeat split; [exact H1|]. constructor; assumption.
  - intros [s1 [s2 [-> [H1 H]]]]. apply Matches_Cat in H.
    destruct H as [u [v [-> [H2 H3]]]]. exists (s1 ++ u), v.
    rewrite app_assoc. repeat split; [|exact H3]. constructor; assumption.
Qed.

Lemma Matches_dollar d : Matches dollar d <-> d = [] \/ d = [NL].
Proof.
  unfold dollar. rewrite Matches_opt, Matches_chr. tauto.
Qed.

Lemma no_newline_dot t : forallb (fun c => negb (chr_eqb c NL)) t = true <-> count NL t = O.
Proof.
  induction t as [|x t IH]; simpl; [tauto|].
  destruct (chr_eqb x NL); simpl; [split; discriminate | exact IH].
Qed.

(** What may follow the name of the repository. *)
Lemma url_tail_spec s :
  match_whole URL_TAIL s = true <->
  exists a b d,
    s = a ++ b ++ d
    /\ (a = [] \/ a = lit ".git")
    /\ (b = [] \/ exists t, b = SLASH :: t /\ count NL t = O)
    /\ (d = [] \/ d = [NL]).
Proof.
  unfold match_whole. rewrite fullmatch_spec. unfold URL_TAIL. simpl cats.
  rewrite Matches_Cat_assoc, Matches_Cat. split.
  - intros [a [s2 [-> [Ha H]]]]. apply Matches_Cat in H.
    destruct H as [b [d [-> [Hb Hd]]]]. exists a, b, d.
    split; [reflexivity|]. split; [|split].
    + apply Matches_opt in Ha. destruct Ha as [Ha|Ha]; [right | left; exact Ha].
      apply (Matches_word (lit ".git")). exact Ha.
    + apply Matches_opt in Hb. destruct Hb as [Hb|Hb]; [right | left; exact Hb].
      apply Matches_Cat in Hb. destruct Hb as [u [t [-> [Hu Ht]]]].
      apply (Matches_word (lit "/")) in Hu. subst u. exists t. split; [reflexivity|].
      apply no_newline_dot, Matches_star_cls. exact Ht.
    + apply Matches_dollar. exact Hd.
  - intros [a [b [d [-> [Ha [Hb Hd]]]]]]. exists a, (b ++ d).
    split; [reflexivity|]. split; [|constructor].
    + apply Matches_opt. destruct Ha as [->| ->]; [right; reflexivity | left].
      apply (Matches_word (lit ".git")). reflexivity.
    + apply Matches_opt. destruct Hb as [->|[t [-> Ht]]]; [right; reflexivity | left].
      change (SLASH :: t) with (lit "/" ++ t). constructor.
      * apply (Matches_word (lit "/")). reflexivity.
      * apply Matches_star_cls, no_newline_dot. exact Ht.
    + apply Matches_dollar. exact Hd.
Qed.

Lemma url_tail_of_rest rest :
  url_rest rest ->
  match_whole URL_TAIL rest = true /\ match_whole URL_TAIL (lit ".git" ++ rest) = true.
Proof.
  intros H. split; apply url_tail_spec.
  - exists [], rest, []. rewrite app_nil_r. repeat split; auto.
  - exists (lit ".git"), rest, []. rewrite app_nil_r. repeat split; auto.
Qed.

Lemma url_char_slash : url_char SLASH = false.
Proof. reflexivity. Qed.

Lemma url_char_newline : url_char NL = false.
Proof. reflexivity. Qed.

(** Letters of a name cannot begin what may follow the name, unless they
    spell [.git]. *)
Lemma url_tail_after_word g rest :
  url_word g -> url_rest rest ->
  match_whole URL_TAIL (g ++ rest) = true -> g = lit ".git".
Proof.
  intros [Hne Hg] Hr H. apply url_tail_spec in H.
  destruct H as [a [b [d [E [Ha [Hb Hd]]]]]].
  assert (Hbd : b ++ d = [] \/ exists c t, b ++ d = c :: t /\ url_char c = false).
  { destruct Hb as [->|[t [-> _]]].
    - destruct Hd as [->| ->]; [left; reflexivity | right].
      exists NL, []. split; reflexivity.
    - right. exists SLASH, (t ++ d). split; reflexivity. }
  assert (Hrest : rest = [] \/ exists t, rest = SLASH :: t).
  { destruct Hr as [->|[t [-> _]]]; [left; reflexivity | right; exists t; reflexivity]. }
  destruct Ha as [->| ->].
  - exfalso. simpl in E. destruct g as [|c g]; [congruence|].
    simpl in Hg. apply andb_true_iff in Hg. destruct Hg as [Hc _].
    destruct Hbd as [Hbd|[c' [t [Hbd Hc']]]]; rewrite Hbd in E; [discriminate|].
    injection E as -> _. congruence.
  - assert (W : forall c, In c g -> url_char c = true).
    { intros c Hc. rewrite forallb_forall in Hg. apply Hg, Hc. }
    destruct g as [|c1 [|c2 [|c3 [|c4 [|c5 g]]]]]; [congruence| | | | |].
    + exfalso. destruct Hrest as [->|[t ->]]; simpl in E; injection E as _ E; discriminate.
    + exfalso. destruct Hrest as [->|[t ->]]; simpl in E; injection E as _ _ E; discriminate.
    + exfalso. destruct Hrest as [->|[t ->]]; simpl in E; injection E as _ _ _ E; discriminate.
    + simpl in E. injection E as -> -> -> -> _. reflexivity.
    + exfalso. simpl in E. injection E as _ _ _ _ E.
      assert (H5 : url_char c5 = true) by (apply (W c5); simpl; tauto).
      destruct Hbd as [Hbd|[c' [t [Hbd Hc']]]]; rewrite Hbd in E; [discriminate|].
      injection E as -> _. congruence.
Qed.

Lemma lazy_group_first cls k g : forall taken s',
  g <> [] -> forallb cls g = true -> k s' = true ->
  (forall g1 g2, g = g1 ++ g2 -> g1 <> [] -> g2 <> [] -> k (g2 ++ s') = false) ->
  lazy_group cls k taken (g ++ s') = Some (rev taken ++ g).
Proof.
  induction g as [|c g IH]; intros taken s' Hne Hg Hk Hmin; [congruence|].
  simpl in Hg. apply andb_true_iff in Hg. destruct Hg as [Hc Hg].
  simpl. rewrite Hc. destruct g as [|c' g].
  - simpl. rewrite Hk. reflexivity.
  - rewrite (Hmin [c] (c' :: g)) by (reflexivity || discriminate).
    rewrite IH; [simpl; rewrite <- app_assoc; reflexivity | discriminate | exact Hg | exact Hk |].
    intros g1 g2 E H1 H2. apply (Hmin (c :: g1) g2); [rewrite E; reflexivity | discriminate | exact H2].
Qed.

Lemma greedy_group_run (B : Type) cls (k : str -> option B) g : forall s' b,
  g <> [] -> forallb cls g = true ->
  match s' with c :: _ => cls c = false | [] => True end ->
  k s' = Some b ->
  greedy_group cls k (g ++ s') = Some (g, b).
Proof.
  induction g as [|c g IH]; intros s' b Hne Hg Hs Hk; [congruence|].
  simpl in Hg. apply andb_true_iff in Hg. destruct Hg as [Hc Hg].
  simpl. rewrite Hc. destruct g as [|c' g].
  - simpl. rewrite Hk.
    destruct s' as [|x s']; [reflexivity|]. simpl. rewrite Hs. reflexivity.
  - rewrite (IH s' b) by (discriminate || assumption). reflexivity.
Qed.

Lemma startswith_spec s p : startswith s p = true <-> exists t, s = p ++ t.
Proof.
  revert s. induction p as [|x p IH]; intros s.
  - split; [intros _; exists s; reflexivity | intros _; destruct s; reflexivity].
  - destruct s as [|y s]; simpl.
    + split; [discriminate | intros [t E]; discriminate].
    + rewrite andb_true_iff, chr_eqb_eq, IH. split.
      * intros [-> [t ->]]. exists t. reflexivity.
      * intros [t E]. injection E as -> ->. split; [reflexivity | exists t; reflexivity].
Qed.

Lemma endswith_spec s p : endswith s p = true <-> exists g, s = g ++ p.
Proof.
  unfold endswith. rewrite startswith_spec. split.
  - intros [t E]. exists (rev t).
    rewrite <- (rev_involutive s), E, rev_app_distr, rev_involutive. reflexivity.
  - intros [g ->]. exists (rev g). apply rev_app_distr.
Qed.

Lemma after_app p s : after p (p ++ s) = Some s.
Proof.
  unfold after. rewrite startswith_app.
  rewrite skipn_app, skipn_all, Nat.sub_diag. reflexivity.
Qed.

Lemma forallb_app_l {A : Type} (f : A -> bool) a b :
  forallb f (a ++ b) = true -> forallb f a = true.
Proof. rewrite forallb_app, andb_true_iff. tauto. Qed.

(** The second group of a name followed by what may follow it. *)
Lemma second_group name rest :
  url_word name -> url_rest rest ->
  lazy_group url_char (match_whole URL_TAIL) [] (name ++ rest) = Some (repo_name name).
Proof.
  intros [Hne Hn] Hr. destruct (url_tail_of_rest rest Hr) as [T0 T1].
  unfold repo_name.
  destruct (endswith name (lit ".git") && Nat.ltb 4 (length name)) eqn:E.
  - apply andb_true_iff in E. destruct E as [E L].
    apply endswith_spec in E. destruct E as [g E]. apply Nat.ltb_lt in L.
    assert (Hg : g <> []) by (intros ->; subst name; simpl in L; lia).
    assert (F : firstn (length name - 4) name = g).
    { subst name. rewrite length_app. simpl length.
      replace (length g + 4 - 4)%nat with (length g) by lia.
      rewrite firstn_app, firstn_all, Nat.sub_diag. simpl. apply app_nil_r. }
    rewrite F. subst name. rewrite <- app_assoc.
    apply (lazy_group_first url_char (match_whole URL_TAIL) g []); try assumption.
    + apply (forallb_app_l _ _ _ Hn).
    + intros g1 g2 Eg H1 H2. destruct (match_whole URL_TAIL (g2 ++ lit ".git" ++ rest)) eqn:M;
        [|reflexivity].
      exfalso. rewrite app_assoc in M.
      apply url_tail_after_word in M; [| |exact Hr].
      * destruct g2; [congruence|]. apply (f_equal (@length ascii)) in M.
        rewrite length_app in M. simpl in M. lia.
      * split; [destruct g2; discriminate|].
        subst g. rewrite <- app_assoc, forallb_app in Hn.
        apply andb_true_iff in Hn. tauto.
  - apply (lazy_group_first url_char (match_whole URL_TAIL) name []); try assumption.
    intros g1 g2 En H1 H2. destruct (match_whole URL_TAIL (g2 ++ rest)) eqn:M; [|reflexivity].
    exfalso. apply url_tail_after_word in M; [| |exact Hr].
    + subst g2. rewrite <- not_true_iff_false in E. apply E. apply andb_true_iff. split.
      * apply endswith_spec. exists g1. exact En.
      * apply Nat.ltb_lt. subst name. rewrite length_app. simpl.
        destruct g1; [congruence|]. simpl. lia.
    + split; [exact H2|]. subst name. rewrite forallb_app in Hn.
      apply andb_true_iff in Hn. tauto.
Qed.

(** The two groups of an address of the shape. *)
Lemma url_groups_of_shape scheme owner name rest :
  url_scheme scheme -> url_word owner -> url_word name -> url_rest rest ->
  url_groups (scheme ++ owner ++ SLASH :: name ++ rest) = Some (owner, repo_name name).
Proof.
  intros Hs [Ho1 Ho2] Hn Hr. unfold url_groups.
  assert (A : match after (lit "https://github.com/") (scheme ++ owner ++ SLASH :: name ++ rest) with
              | Some r => Some r
              | None => after (lit "http://github.com/") (scheme ++ owner ++ SLASH :: name ++ rest)
              end = Some (owner ++ SLASH :: name ++ rest)).
  { destruct Hs as [->| ->].
    - rewrite after_app. reflexivity.
    - replace (after (lit "https://github.com/")
                 (lit "http://github.com/" ++ owner ++ SLASH :: name ++ rest)) with (@None str)
        by reflexivity.
      apply after_app. }
  cbv zeta. rewrite A.
  apply greedy_group_run; try assumption.
  - apply url_char_slash.
  - replace (chr_eqb SLASH SLASH) with true by reflexivity.
    apply second_group; assumption.
Qed.

End Address.

(** X21.  The owner and the name that [summarize] reads in an address:
    for [http://github.com/] or [https://github.com/] followed by an
    owner, a slash and a name, both made of letters, digits, [_], [.] and
    [-], and then nothing or a slash and the rest of a line, the first
    group is the owner and the second is the name without one final
    [.git]; the rest of the path is ignored. *)
Theorem X21_owner_and_name_of_address (scheme owner name rest : str) :
  url_scheme scheme -> url_word owner -> url_word name -> url_rest rest ->
  Main.url_groups (scheme ++ owner ++ SLASH :: name ++ rest)
  = Some (owner, Main.repo_name name).
Proof. apply url_groups_of_shape. Qed.

Lemma X21_witness :
  url_scheme (lit "https://github.com/")
  /\ url_word (lit "vercel") /\ url_word (lit "next.js.git")
  /\ url_rest (lit "/tree/canary")
  /\ Main.url_groups (lit "https://github.com/vercel/next.js.git/tree/canary")
     = Some (lit "vercel", lit "next.js").
Proof.
  assert (S : url_scheme (lit "https://github.com/")) by (left; reflexivity).
  assert (O : url_word (lit "vercel")) by (split; [discriminate | reflexivity]).
  assert (N : url_word (lit "next.js.git")) by (split; [discriminate | reflexivity]).
  assert (T : url_rest (lit "/tree/canary")).
  { right. exists (lit "tree/canary"). split; reflexivity. }
  split; [exact S|]. split; [exact O|]. split; [exact N|]. split; [exact T|].
  exact (X21_owner_and_name_of_address _ _ _ _ S O N T).
Defined.

Section Acceptance.

Import Main.

Lemma greedy_group_sound (B : Type) cls (k : str -> option B) s : forall g b,
  greedy_group cls k s = Some (g, b) ->
  exists s', s = g ++ s' /\ g <> [] /\ forallb cls g = true /\ k s' = Some b.
Proof.
  induction s as [|c s IH]; intros g b H; simpl in H; [discriminate|].
  destruct (cls c) eqn:Hc; [|discriminate].
  destruct (greedy_group cls k s) as [[g' b']|] eqn:E.
  - injection H as <- <-. destruct (IH _ _ eq_refl) as [s' [-> [Hg [Hf Hk]]]].
    exists s'. simpl. rewrite Hc, Hf. repeat split; [discriminate | exact Hk].
  - destruct (k s) as [b'|] eqn:Hk; [|discriminate]. injection H as <- <-.
    exists s. simpl. rewrite Hc. repeat split; [discriminate | exact Hk].
Qed.

Lemma greedy_group_complete (B : Type) cls (k : str -> option B) g : forall s' b,
  g <> [] -> forallb cls g = true -> k s' = Some b ->
  greedy_group cls k (g ++ s') <> None.
Proof.
  induction g as [|c g IH]; intros s' b Hne Hg Hk; [congruence|].
  simpl in Hg. apply andb_true_iff in Hg. destruct Hg as [Hc Hg].
  simpl. rewrite Hc. destruct g as [|c' g].
  - simpl. destruct (greedy_group cls k s') as [[g' b']|]; [discriminate|].
    rewrite Hk. discriminate.
  - destruct (greedy_group cls k ((c' :: g) ++ s')) as [[g' b']|] eqn:E; [discriminate|].
    exfalso. apply (IH s' b); [discriminate | exact Hg | exact Hk | exact E].
Qed.

Lemma lazy_group_sound cls k s : forall taken r,
  lazy_group cls k taken s = Some r ->
  exists g s', r = rev taken ++ g /\ s = g ++ s' /\ g <> []
               /\ forallb cls g = true /\ k s' = true.
Proof.
  induction s as [|c s IH]; intros taken r H; simpl in H; [discriminate|].
  destruct (cls c) eqn:Hc; [|discriminate].
  destruct (k s) eqn:Hk.
  - injection H as <-. exists [c], s. simpl. rewrite Hc.
    repeat split; [discriminate | exact Hk].
  - destruct (IH _ _ H) as [g [s' [-> [-> [Hg [Hf Hk']]]]]].
    exists (c :: g), s'. simpl. rewrite Hc, Hf, <- app_assoc.
    repeat split; [discriminate | exact Hk'].
Qed.

Lemma lazy_group_complete cls k g : forall taken s',
  g <> [] -> forallb cls g = true -> k s' = true ->
  lazy_group cls k taken (g ++ s') <> None.
Proof.
  induction g as [|c g IH]; intros taken s' Hne Hg Hk; [congruence|].
  simpl in Hg. apply andb_true_iff in Hg. destruct Hg as [Hc Hg].
  simpl. rewrite Hc. destruct (k (g ++ s')) eqn:E; [discriminate|].
  destruct g as [|c' g]; [simpl in E; congruence|].
  apply IH; [discriminate | exact Hg | exact Hk].
Qed.

Lemma after_sound p s r : after p s = Some r -> s = p ++ r.
Proof.
  unfold after. destruct (startswith s p) eqn:E; [|discriminate].
  apply startswith_spec in E. destruct E as [t ->]. intros H. injection H as <-.
  rewrite skipn_app, skipn_all, Nat.sub_diag. reflexivity.
Qed.

(** The language of the pattern, spelled out. *)
Lemma url_pattern_spec url :
  match_whole GITHUB_URL_PATTERN url = true <->
  exists scheme owner name rest,
    url_scheme scheme /\ url_word owner /\ url_word name
    /\ url = scheme ++ owner ++ SLASH :: name ++ rest
    /\ match_whole URL_TAIL rest = true.
Proof.
  unfold match_whole. rewrite fullmatch_spec. unfold GITHUB_URL_PATTERN. cbn [cats].
  split.
  - intros H.
    repeat match goal with
           | H : Matches (Cat _ _) _ |- _ =>
               apply Matches_Cat in H; destruct H as [? [? [? [? ?]]]]
           end.
    subst.
    match goal with H : Matches (w "http") _ |- _ => apply (Matches_word (lit "http")) in H end.
    match goal with H : Matches (w "://github.com/") _ |- _ =>
      apply (Matches_word (lit "://github.com/")) in H end.
    match goal with H : Matches (w "/") _ |- _ => apply (Matches_word (lit "/")) in H end.
    match goal with H : Matches (opt (w "s")) ?x |- _ =>
      apply Matches_opt in H; rename x into sx; rename H into Hs end.
    repeat match goal with H : Matches (plus (Cls url_char)) _ |- _ =>
      apply Matches_plus_cls in H end.
    subst.
    match goal with
    | Ho : ?o <> [] /\ forallb url_char ?o = true,
      Hn : ?n <> [] /\ forallb url_char ?n = true,
      Ht : Matches URL_TAIL ?t, Hd : Matches dollar ?d
      |- context [ ?o ++ lit "/" ++ ?n ++ ?t ] =>
        exists (lit "http" ++ sx ++ lit "://github.com/"), o, n, (t ++ d)
    end.
    split; [|split; [assumption|split; [assumption|split]]].
    + destruct Hs as [Hs| ->]; [left | right; reflexivity].
      apply (Matches_word (lit "s")) in Hs. subst. reflexivity.
    + rewrite <- !app_assoc. reflexivity.
    + apply fullmatch_spec. constructor; assumption.
  - intros [scheme [owner [name [rest [Hs [Ho [Hn [-> Ht]]]]]]]].
    apply fullmatch_spec in Ht. apply Matches_Cat in Ht.
    destruct Ht as [t [d [-> [Ht Hd]]]].
    assert (Hscheme : exists sx, scheme = lit "http" ++ sx ++ lit "://github.com/"
                                 /\ Matches (opt (w "s")) sx).
    { destruct Hs as [->| ->].
      - exists (lit "s"). split; [reflexivity|]. apply Matches_opt. left.
        apply (Matches_word (lit "s")). reflexivity.
      - exists []. split; [reflexivity|]. apply Matches_opt. right. reflexivity. }
    destruct Hscheme as [sx [-> Hsx]].
    replace ((lit "http" ++ sx ++ lit "://github.com/") ++ owner ++ SLASH :: name ++ t ++ d)
      with ((lit "http" ++ sx ++ lit "://github.com/" ++ owner ++ lit "/" ++ name ++ t) ++ d)
      by (rewrite <- !app_assoc; reflexivity).
    constructor; [|exact Hd].
    constructor; [apply (Matches_word (lit "http")); reflexivity|].
    constructor; [exact Hsx|].
    constructor; [apply (Matches_word (lit "://github.com/")); reflexivity|].
    constructor; [apply Matches_plus_cls; exact Ho|].
    constructor; [apply (Matches_word (lit "/")); reflexivity|].
    constructor; [apply Matches_plus_cls; exact Hn | exact Ht].
Qed.

(** [url_groups] finds groups exactly in the addresses of the language
    of the pattern. *)
Lemma url_groups_accepts url :
  url_groups url <> None <-> match_whole GITHUB_URL_PATTERN url = true.
Proof.
  rewrite url_pattern_spec. unfold url_groups. split.
  - intros H.
    destruct (match after (lit "https://github.com/") url with
              | Some r => Some r
              | None => after (lit "http://github.com/") url
              end) as [r|] eqn:A; [|congruence].
    assert (Hs : exists scheme, url_scheme scheme /\ url = scheme ++ r).
    { destruct (after (lit "https://github.com/") url) as [r'|] eqn:A1.
      - injection A as <-. apply after_sound in A1. eexists. split; [left; reflexivity | exact A1].
      - apply after_sound in A. eexists. split; [right; reflexivity | exact A]. }
    destruct Hs as [scheme [Hs ->]]. cbv zeta in H.
    destruct (greedy_group url_char _ r) as [[owner name]|] eqn:G; [|congruence].
    apply greedy_group_sound in G. destruct G as [s' [-> [Ho1 [Ho2 Hk]]]].
    destruct s' as [|c s']; [discriminate|].
    destruct (chr_eqb c SLASH) eqn:Ec; [|discriminate]. apply chr_eqb_eq in Ec. subst c.
    apply lazy_group_sound in Hk. destruct Hk as [g [t [_ [-> [Hg1 [Hg2 Ht]]]]]].
    exists scheme, owner, g, t. repeat split; assumption.
  - intros [scheme [owner [name [rest [Hs [[Ho1 Ho2] [[Hn1 Hn2] [-> Ht]]]]]]]].
    assert (A : match after (lit "https://github.com/") (scheme ++ owner ++ SLASH :: name ++ rest) with
                | Some r => Some r
                | None => after (lit "http://github.com/") (scheme ++ owner ++ SLASH :: name ++ rest)
                end = Some (owner ++ SLASH :: name ++ rest)).
    { destruct Hs as [->| ->].
      - rewrite after_app. reflexivity.
      - replace (after (lit "https://github.com/")
                   (lit "http://github.com/" ++ owner ++ SLASH :: name ++ rest)) with (@None str)
          by reflexivity.
        apply after_app. }
    cbv zeta. rewrite A.
    destruct (lazy_group url_char (match_whole URL_TAIL) [] (name ++ rest)) as [g|] eqn:L.
    + eapply greedy_group_complete; [exact Ho1 | exact Ho2 |].
      replace (chr_eqb SLASH SLASH) with true by reflexivity. exact L.
    + exfalso. eapply lazy_group_complete; [exact Hn1 | exact Hn2 | exact Ht | exact L].
Qed.

End Acceptance.

(** X22.  The reply 400 is for the addresses that the pattern does not
    match, and for no other request: [summarize] answers with the status
    400 exactly when the address, white space at its ends removed, is
    outside the language of [GITHUB_URL_PATTERN], whatever the calls
    would give. *)
Theorem X22_status_400_iff_address_rejected (R : Type) (url : str)
    (fetch : str -> str -> Github.outcome Github.repo_data)
    (llm : Github.repo_data -> Github.outcome R) :
  Main.status_code (Main.summarize url fetch llm) = Some 400
  <-> match_whole Main.GITHUB_URL_PATTERN (Text.strip url) = false.
Proof.
  rewrite <- not_true_iff_false, <- url_groups_accepts.
  unfold Main.summarize.
  destruct (Main.url_groups (Text.strip url)) as [[o r]|].
  - split; [|intros H; exfalso; apply H; discriminate].
    intros H. exfalso.
    destruct (fetch o r) as [d|[m|m|m|m|m|k|t|t|t]]; try (simpl in H; discriminate).
    + destruct (llm d); simpl in H; discriminate.
    + destruct (Text.contains (lit "rate limit") (lower m)); simpl in H; discriminate.
  - split; [intros _ H; apply H; reflexivity | reflexivity].
Qed.

(* ===================================================================== *)
(** ** The fences around the answer of the model *)
(* ===================================================================== *)

Section Fences.

Import Text Summarizer.

Lemma split_from_nonempty sep s : forall k cur, split_from sep k cur s <> [].
Proof.
  induction s as [|c s IH]; intros k cur; cbn [split_from]; [discriminate|].
  destruct k; [|apply IH].
  destruct (startswith (c :: s) sep); [discriminate | apply IH].
Qed.

Lemma split_from_skip sep skipped : forall cur s,
  split_from sep (length skipped) cur (skipped ++ s) = split_from sep O cur s.
Proof.
  induction skipped as [|c skipped IH]; intros cur s; [reflexivity|].
  simpl. apply IH.
Qed.

(** A split at an occurrence of the separator. *)
Lemma split_from_cut c sep cur s :
  split_from (c :: sep) O cur ((c :: sep) ++ s) = rev cur :: split_from (c :: sep) O [] s.
Proof.
  change ((c :: sep) ++ s) with (c :: sep ++ s).
  cbn [split_from]. change (c :: sep ++ s) with ((c :: sep) ++ s).
  rewrite startswith_app. cbn [length Nat.pred].
  rewrite split_from_skip. reflexivity.
Qed.

(** No split inside a text in which no occurrence of the separator
    begins. *)
Lemma split_from_clear sep x : forall cur rest,
  (forall i, (i < length x)%nat -> startswith (skipn i (x ++ rest)) sep = false) ->
  split_from sep O cur (x ++ rest) = split_from sep O (rev x ++ cur) rest.
Proof.
  induction x as [|y x IH]; intros cur rest H; [reflexivity|].
  pose proof (H O ltac:(simpl; lia)) as H0. cbn [skipn] in H0.
  change ((y :: x) ++ rest) with (y :: x ++ rest) in *. cbn [split_from].
  rewrite H0, IH.
  - simpl. rewrite <- app_assoc. reflexivity.
  - intros i Hi. apply (H (S i)). simpl. lia.
Qed.

(** The part between an opening fence and what closes it. *)
Lemma split_fenced x rest :
  (forall i, (i < length x)%nat -> startswith (skipn i (x ++ rest)) FENCE = false) ->
  (rest = [] \/ exists a, rest = FENCE ++ a) ->
  exists parts, split FENCE (FENCE ++ x ++ rest) = [] :: x :: parts.
Proof.
  intros Hx Hr. unfold split. unfold FENCE at 1 2.
  change (lit "```") with ("`"%char :: lit "``").
  rewrite split_from_cut.
  rewrite (split_from_clear ("`"%char :: lit "``") x [] rest Hx), app_nil_r.
  destruct Hr as [->|[a ->]].
  - exists []. simpl. rewrite rev_involutive. reflexivity.
  - unfold FENCE. change (lit "```") with ("`"%char :: lit "``").
    rewrite split_from_cut, rev_involutive. eexists. reflexivity.
Qed.

Lemma unfence_fenced x rest :
  (forall i, (i < length x)%nat -> startswith (skipn i (x ++ rest)) FENCE = false) ->
  (rest = [] \/ exists a, rest = FENCE ++ a) ->
  unfence (FENCE ++ x ++ rest)
  = Some (strip (if startswith x (lit "json") then skipn 4 x else x)).
Proof.
  intros Hx Hr. unfold unfence. rewrite startswith_app.
  destruct (split_fenced x rest Hx Hr) as [parts ->]. reflexivity.
Qed.

(** The tag [json] holds no fence. *)
Lemma no_fence_in_tag x rest :
  (forall i, (i < length x)%nat -> startswith (skipn i (x ++ rest)) FENCE = false) ->
  forall i, (i < length (lit "json" ++ x))%nat ->
            startswith (skipn i ((lit "json" ++ x) ++ rest)) FENCE = false.
Proof.
  intros H i Hi.
  destruct i as [|[|[|[|i]]]]; try reflexivity.
  change (skipn (S (S (S (S i)))) ((lit "json" ++ x) ++ rest)) with (skipn i (x ++ rest)).
  apply H. rewrite length_app in Hi. simpl in Hi. lia.
Qed.

Lemma unfence_total raw : unfence raw <> None.
Proof.
  unfold unfence. destruct (startswith raw FENCE) eqn:E; [|discriminate].
  apply startswith_spec in E. destruct E as [t ->].
  unfold split, FENCE. change (lit "```") with ("`"%char :: lit "``").
  rewrite split_from_cut.
  destruct (split_from ("`"%char :: lit "``") 0 [] t) as [|part parts] eqn:S; [|discriminate].
  exfalso. exact (split_from_nonempty _ _ _ _ S).
Qed.

End Fences.

(** X23.  The fences that the model puts around its answer are taken
    off, and taking them off never fails.  For a text that opens with a
    fence, with or without the tag [json], followed by [body] and then by
    nothing or by a closing fence and any text, where [body] is what
    stands before the next fence (no fence begins inside it; single
    backticks may), the result is [body] without the white space at its
    ends, what comes after the closing fence being dropped; a text that
    opens otherwise is left as it is; and the index of the split always
    exists. *)
Theorem X23_fences_taken_off (body rest : str) :
  (forall i, (i < length body)%nat ->
             startswith (skipn i (body ++ rest)) Summarizer.FENCE = false) ->
  (rest = [] \/ exists a, rest = Summarizer.FENCE ++ a) ->
  Summarizer.unfence (Summarizer.FENCE ++ lit "json" ++ body ++ rest) = Some (Text.strip body)
  /\ (startswith body (lit "json") = false ->
      Summarizer.unfence (Summarizer.FENCE ++ body ++ rest) = Some (Text.strip body))
  /\ (forall raw, startswith raw Summarizer.FENCE = false -> Summarizer.unfence raw = Some raw)
  /\ (forall raw, Summarizer.unfence raw <> None).
Proof.
  intros Hb Hr. split; [|split; [|split]].
  - replace (lit "json" ++ body ++ rest) with ((lit "json" ++ body) ++ rest)
      by (rewrite <- app_assoc; reflexivity).
    rewrite (unfence_fenced (lit "json" ++ body) rest);
      [|apply no_fence_in_tag; exact Hb | exact Hr].
    replace (startswith (lit "json" ++ body) (lit "json")) with true
      by (symmetry; apply startswith_app).
    reflexivity.
  - intros Hj. rewrite (unfence_fenced body rest Hb Hr), Hj. reflexivity.
  - intros raw H. unfold Summarizer.unfence. rewrite H. reflexivity.
  - apply unfence_total.
Qed.

Lemma X23_witness :
  let body := [NL] ++ lit "{'summary': 'run `make`'}" ++ [NL] in
  let rest := Summarizer.FENCE ++ [NL] ++ lit "Hope this helps!" in
  (forall i, (i < length body)%nat ->
             startswith (skipn i (body ++ rest)) Summarizer.FENCE = false)
  /\ (rest = [] \/ exists a, rest = Summarizer.FENCE ++ a)
  /\ Summarizer.unfence (Summarizer.FENCE ++ lit "json" ++ body ++ rest)
     = Some (lit "{'summary': 'run `make`'}").
Proof.
  intros body rest.
  assert (C : forall i, (i < length body)%nat ->
                        startswith (skipn i (body ++ rest)) Summarizer.FENCE = false).
  { intros i Hi. do 27 (destruct i as [|i]; [reflexivity|]). simpl in Hi. lia. }
  assert (T : rest = [] \/ exists a, rest = Summarizer.FENCE ++ a).
  { right. exists ([NL] ++ lit "Hope this helps!"). reflexivity. }
  split; [exact C|]. split; [exact T|].
  destruct (X23_fences_taken_off body rest C T) as [H _].
  rewrite H. vm_compute. reflexivity.
Defined.

(* ===================================================================== *)
(** ** From the listing to the prompt *)
(* ===================================================================== *)

Lemma fetched_files_map fetch (contents : str -> str) paths :
  (forall p, In p paths -> fetch p = Some (contents p)) ->
  fetched_files fetch paths = map (fun p => (p, contents p)) paths.
Proof.
  induction paths as [|q paths IH]; intros H; [reflexivity|].
  simpl. rewrite (H q) by (left; reflexivity).
  rewrite IH by (intros p Hp; apply H; right; exact Hp). reflexivity.
Qed.

(** X24.  The order of the selection reaches the prompt: when the two
    calls succeed, the paths of the blobs do not repeat, every selected
    file is downloaded and the blocks of these files total less than the
    budget, the prompt is built from the owner and the name given, the
    directory tree of the blobs, and a file context that is the blocks of
    the selected files, in the order of the selection, with a blank line
    between them. *)
Theorem X24_prompt_lists_selection_in_order
    (o r branch : str) (rfs : Z -> option str)
    (repo_call : Github.sent (option str))
    (tree_call : str -> Github.sent (option (list entry)))
    (file_call : str -> Github.sent (option str))
    (data : option (list entry)) (contents : str -> str) :
  Github._get_default_branch rfs repo_call = Github.Return branch ->
  Github._get rfs (tree_call branch) = Github.Return data ->
  let tree := _get_tree (match data with Some t => t | None => [] end) in
  let selection := filter_and_prioritize tree in
  let blocks := map (fun p => rendered_block (p, contents p)) selection in
  NoDup (map path tree) ->
  selection <> [] ->
  (forall p, In p selection -> Github._fetch_file (file_call p) = Some (contents p)) ->
  total_len blocks < CHAR_BUDGET ->
  exists d,
    Github.fetch_repo_contents rfs repo_call tree_call file_call o r = Github.Return d
    /\ Github.owner d = o /\ Github.repo d = r
    /\ Github.directory_tree d = build_directory_tree tree
    /\ build_file_context (Github.files d) = join [NL; NL] blocks
    /\ Summarizer._build_user_prompt d
       = lit "Repository: " ++ o ++ lit "/" ++ r ++ [NL; NL]
         ++ lit "## Directory Structure" ++ [NL] ++ lit "```" ++ [NL]
         ++ build_directory_tree tree ++ [NL] ++ lit "```" ++ [NL; NL]
         ++ lit "## File Contents" ++ [NL]
         ++ join [NL; NL] blocks ++ [NL; NL]
         ++ lit "Analyze the above repository and return the JSON summary.".
Proof.
  intros Hb Ht tree selection blocks Hn Hs Hf Hlen.
  assert (F : Github.fetch_repo_contents rfs repo_call tree_call file_call o r
              = Github.Return
                  (Github.mkRepoData o r (build_directory_tree tree)
                     (map (fun p => (p, contents p)) selection))).
  { rewrite (fetch_returns_fetched _ _ _ _ o r _ _ Hb Ht Hn Hs).
    fold tree. fold selection.
    rewrite (fetched_files_map _ contents selection Hf). reflexivity. }
  assert (C : build_file_context (map (fun p => (p, contents p)) selection)
              = join [NL; NL] blocks).
  { unfold build_file_context. rewrite render_parts_all.
    - rewrite map_map. reflexivity.
    - rewrite map_map. fold blocks. lia. }
  eexists. split; [exact F|]. simpl. repeat split; try reflexivity; [exact C|].
  unfold Summarizer._build_user_prompt. simpl. rewrite C. reflexivity.
Qed.

Lemma X24_witness :
  let repo_call := Github.Response 200 None (Some (lit "main")) in
  let listing := [mkEntry (lit "src/a.py") (Some 5) Blob; mkEntry (lit "README.md") (Some 5) Blob] in
  let tree_call := fun _ : str => Github.Response 200 None (Some listing) in
  let contents := fun p : str => lit "text of " ++ p in
  let file_call := fun p : str => Github.Response 200 None (Some (contents p)) in
  Github._get_default_branch (fun _ => None) repo_call = Github.Return (lit "main")
  /\ Github._get (fun _ => None) (tree_call (lit "main")) = Github.Return (Some listing)
  /\ NoDup (map path (_get_tree listing))
  /\ filter_and_prioritize (_get_tree listing) = [lit "README.md"; lit "src/a.py"]
  /\ exists d,
       Github.fetch_repo_contents (fun _ => None) repo_call tree_call file_call
         (lit "octo") (lit "demo") = Github.Return d
       /\ build_file_context (Github.files d)
          = file_block (lit "README.md") (lit "text of README.md") ++ [NL; NL]
            ++ file_block (lit "src/a.py") (lit "text of src/a.py").
Proof.
  intros repo_call listing tree_call contents file_call.
  assert (B : Github._get_default_branch (fun _ => None) repo_call = Github.Return (lit "main"))
    by reflexivity.
  assert (T : Github._get (fun _ => None) (tree_call (lit "main")) = Github.Return (Some listing))
    by reflexivity.
  assert (N : NoDup (map path (_get_tree listing))).
  { constructor; [|constructor; [|constructor]]; simpl.
    - intros [H|[]]. vm_compute in H. discriminate.
    - intros []. }
  assert (S : filter_and_prioritize (_get_tree listing) = [lit "README.md"; lit "src/a.py"])
    by (vm_compute; reflexivity).
  split; [exact B|]. split; [exact T|]. split; [exact N|]. split; [exact S|].
  destruct (X24_prompt_lists_selection_in_order (lit "octo") (lit "demo") (lit "main")
              (fun _ => None) repo_call tree_call file_call (Some listing) contents B T N
              ltac:(vm_compute; discriminate) ltac:(intros p _; reflexivity)
              ltac:(vm_compute; reflexivity)) as [d [F [_ [_ [_ [C _]]]]]].
  exists d. split; [exact F|]. rewrite C. vm_compute. reflexivity.
Defined.

(** X25.  The rule of the essential files: a candidate of tier 1 or 2
    that the loop reaches before the budget is spent is selected, even
    when its allotment is more than what is left of the budget. *)
Theorem X25_essential_selected_beyond_budget tree pre c post b :
  sort_candidates (candidates_of tree) = pre ++ c :: post ->
  budget_after CHAR_BUDGET pre = Some b -> 0 < b -> ctier c <= 2 ->
  filter_and_prioritize tree
  = select_loop CHAR_BUDGET pre ++ cpath c :: select_loop (b - allotment c) post.
Proof.
  intros E Hpre Hb Ht. unfold filter_and_prioritize. rewrite E.
  apply (reached_candidate_selected _ _ _ _ _ Hpre Hb (or_introl Ht)).
Qed.

Lemma X25_witness :
  let cands := sort_candidates (candidates_of thirteen_manifests) in
  let c := (lit "d12/package.json", 6000, 2) in
  cands = firstn 11 cands ++ c :: skipn 12 cands
  /\ budget_after CHAR_BUDGET (firstn 11 cands) = Some 4000
  /\ 4000 < allotment c
  /\ In (lit "d12/package.json") (filter_and_prioritize thirteen_manifests).
Proof.
  intros cands c.
  assert (E : sort_candidates (candidates_of thirteen_manifests)
              = firstn 11 cands ++ c :: skipn 12 cands) by (vm_compute; reflexivity).
  assert (B : budget_after CHAR_BUDGET (firstn 11 cands) = Some 4000) by (vm_compute; reflexivity).
  split; [exact E|]. split; [exact B|]. split; [vm_compute; reflexivity|].
  rewrite (X25_essential_selected_beyond_budget thirteen_manifests _ c _ 4000 E B
             ltac:(lia) ltac:(vm_compute; discriminate)).
  apply in_or_app. right. left. reflexivity.
Defined.
